(** * generate-extra-json.mjs: registries of known-good versions

    A shallow embedding of [src/generate-extra-json.mjs].  The script reads a
    snapshot of the release channels ([data/dashboard.json]) and four persisted
    JSON documents, merges the snapshot into them and writes them back, each
    one next to an expanded copy that carries download URLs.

    Conventions of the embedding:
    - a JSON object whose properties are walked by [Object.values] is a list
      of (key, value) pairs in property order; an object only used as a
      dictionary (the milestones, the [Map] of builds, a [downloads] object) is
      a [gmap string _];
    - [readJsonFile] is the argument of a function and [writeJsonFile] its
      result;
    - [createTimestamp] reads the system clock: the readings the clock will
      give are a sequence [Date_now : nat -> string], the state is the number
      of readings taken so far;
    - an uncaught [TypeError] is [None];
    - a string is the sequence of the bytes of its UTF-8 form, as the JSON
      file has it;
    - the properties of an object are its own ones.  A lookup [o[k]] also
      finds what [o] inherits from [Object.prototype]: the lookup [get] is
      the one of the script where [k] is a key of [o] or none of the names
      [Object_prototype], and the statements about a lookup that fails say
      so; an assignment [o[k] = v] of a key taken from a version string
      adds the key, except for the key ["__proto__"] ([setProperty]);
    - the objects [addDownloads] copies and writes to live in a heap. *)

From stdpp Require Import gmap strings pretty list sorting.
From Stdlib Require Import ZArith Ascii.

#[local] Set Warnings "-clear-no-such-hyp".

(** ** Data model *)

(** One record of [data.channels] in the dashboard snapshot. *)
Module Channel.
Record t := mk {
  channel : string;
  version : string;
  revision : string;
  ok : bool
}.
End Channel.

(** A [{version, revision}] object: an entry of
    [last-known-good-versions.json] and of [known-good-versions.json]. *)
Module Entry.
Record t := mk {
  version : string;
  revision : string
}.
End Entry.

(** A [{milestone, version, revision}] object. *)
Module Milestone.
Record t := mk {
  milestone : string;
  version : string;
  revision : string
}.
End Milestone.

#[global] Instance Channel_eq_dec : EqDecision Channel.t.
Proof. solve_decision. Defined.

#[global] Instance Entry_eq_dec : EqDecision Entry.t.
Proof. solve_decision. Defined.

#[global] Instance Milestone_eq_dec : EqDecision Milestone.t.
Proof. solve_decision. Defined.

(** Objects walked in property order. *)
Definition Object (A : Type) : Type := list (string * A).

Definition Object_values {A} (o : Object A) : list A := o.*2.

Definition Object_keys {A} (o : Object A) : list string := o.*1.

(** [o[k]] among the own properties of [o]: [None] is [undefined]. *)
Fixpoint get {A} (k : string) (o : Object A) : option A :=
  match o with
  | [] => None
  | (k', v) :: o' => if decide (k' = k) then Some v else get k o'
  end.

(** The names of the properties of [Object.prototype], which every object
    of a JSON file inherits: for such a name that is no key of [o], [o[k]]
    is not [undefined] but a function (or, for ["__proto__"], the
    prototype). *)
Definition Object_prototype : list string :=
  [ "constructor"; "__defineGetter__"; "__defineSetter__"; "hasOwnProperty";
    "__lookupGetter__"; "__lookupSetter__"; "isPrototypeOf";
    "propertyIsEnumerable"; "toString"; "valueOf"; "__proto__";
    "toLocaleString" ].

(** [o[k]] is an own property of [o] or [undefined]: it is [get k o]. *)
Definition ownLookup {A} (k : string) (o : Object A) : Prop :=
  k ∈ Object_keys o ∨ k ∉ Object_prototype.

#[global] Instance ownLookup_dec {A} (k : string) (o : Object A) :
  Decision (ownLookup k o).
Proof. unfold ownLookup. apply _. Defined.

(** [o[k] = v] on a dictionary [o] without the key [k]: the key is added,
    except for ["__proto__"], where the assignment runs the setter that
    [o] inherits from [Object.prototype]; the setter makes [v] the
    prototype of [o] and adds no property. *)
Definition setProperty {A} (k : string) (v : A) (o : gmap string A)
    : gmap string A :=
  if bool_decide (k = "__proto__") then o else <[k := v]> o.

(** In-place mutation of the object stored under [k]. *)
Fixpoint mutate {A} (f : A → A) (k : string) (o : Object A) : Object A :=
  match o with
  | [] => []
  | (k', v) :: o' =>
      if decide (k' = k) then (k', f v) :: o' else (k', v) :: mutate f k o'
  end.

(** [data/dashboard.json]. *)
Module Dashboard.
Record t := mk { channels : Object Channel.t }.
End Dashboard.

(** [data/last-known-good-versions.json]. *)
Module LastKnownGood.
Record t := mk {
  timestamp : string;
  channels : Object Entry.t
}.
End LastKnownGood.

(** [data/known-good-versions.json]. *)
Module KnownGood.
Record t := mk {
  timestamp : string;
  versions : list Entry.t
}.
End KnownGood.

(** [data/latest-versions-per-milestone.json]. *)
Module PerMilestone.
Record t := mk {
  timestamp : string;
  milestones : gmap string Milestone.t
}.
End PerMilestone.

(** [data/latest-patch-versions-per-build.json]. *)
Module PerBuild.
Record t := mk {
  timestamp : string;
  builds : gmap string Entry.t
}.
End PerBuild.

(** ** Effects: the clock and uncaught exceptions *)

(** A computation that may read the clock and may throw.  The state is the
    number of clock readings taken so far. *)
Definition Run (A : Type) : Type := nat → option (A * nat).

Definition Run_ret {A} (a : A) : Run A := λ n, Some (a, n).

Definition Run_bind {A B} (m : Run A) (f : A → Run B) : Run B :=
  λ n, match m n with
       | Some (a, n') => f a n'
       | None => None
       end.

Definition throw {A} : Run A := λ _, None.

Declare Scope run_scope.
Delimit Scope run_scope with run.
Notation "'let*' x := m 'in' k" := (Run_bind m (λ x, k))
  (at level 10, x name, m at level 100, k at level 200) : run_scope.
Open Scope run_scope.

(** [for (const x of xs) body], threading the mutated document. *)
Fixpoint forOf {A S} (body : S → A → Run S) (xs : list A) (s : S) : Run S :=
  match xs with
  | [] => Run_ret s
  | x :: xs' => let* s' := body s x in forOf body xs' s'
  end.

Section Reconciler.

(** The successive results of [new Date().toISOString()]. *)
Variable Date_now : nat → string.

Definition createTimestamp : Run string :=
  λ n, Some (Date_now n, S n).

(** The test of lines 35-38. *)
Definition sameVersion (knownData : Entry.t) (channelData : Channel.t) : bool :=
  bool_decide (Entry.version knownData = Channel.version channelData)
  && bool_decide (Entry.revision knownData = Channel.revision channelData).

(** Lines 42-43: both fields of [knownData] are assigned. *)
Definition overwrite (channelData : Channel.t) (knownData : Entry.t) : Entry.t :=
  Entry.mk (Channel.version channelData) (Channel.revision channelData).

(** Body of the loop of [prepareLastKnownGoodVersionsData], lines 32-43.
    The lookup of line 34 is [get]: where the name is no key of the
    channels and none of [Object_prototype], [knownData] is [undefined] and
    line 36 throws. *)
Definition reconcileChannel (lastKnownGoodVersions : LastKnownGood.t)
    (channelData : Channel.t) : Run LastKnownGood.t :=
  if negb (Channel.ok channelData) then Run_ret lastKnownGoodVersions
  else
    let channelName := Channel.channel channelData in
    match get channelName (LastKnownGood.channels lastKnownGoodVersions) with
    | None => throw
    | Some knownData =>
        if sameVersion knownData channelData then Run_ret lastKnownGoodVersions
        else
          let* timestamp := createTimestamp in
          Run_ret (LastKnownGood.mk timestamp
                     (mutate (overwrite channelData) channelName
                        (LastKnownGood.channels lastKnownGoodVersions)))
    end.

(** [prepareLastKnownGoodVersionsData], lines 29-46.  The second argument is
    the document read from [./data/last-known-good-versions.json]. *)
Definition prepareLastKnownGoodVersionsData (data : Dashboard.t)
    (lastKnownGoodVersions : LastKnownGood.t) : Run LastKnownGood.t :=
  forOf reconcileChannel (Object_values (Dashboard.channels data))
    lastKnownGoodVersions.

(** An [ok] channel whose pair is not the persisted one. *)
Definition differs (lastKnownGoodVersions : LastKnownGood.t)
    (channelData : Channel.t) : bool :=
  Channel.ok channelData &&
  match get (Channel.channel channelData)
          (LastKnownGood.channels lastKnownGoodVersions) with
  | Some knownData => negb (sameVersion knownData channelData)
  | None => false
  end.

(** The channel names of the [ok] records of a snapshot. *)
Definition okNames (channels : list Channel.t) : list string :=
  Channel.channel <$> List.filter Channel.ok channels.

End Reconciler.

(** ** The version order *)

(** [isOlderVersion] comes from [./is-older-version.mjs]; the functions below
    take it as a parameter [isOlderVersion : string → string → bool].  What
    they need from it, on the version strings at hand: no version is older
    than itself, being older is transitive, and of two different version
    strings one is older than the other. *)
Record StrictOrderOn (isOlderVersion : string → string → bool)
    (versions : list string) : Prop := {
  older_irrefl a :
    a ∈ versions → isOlderVersion a a = false;
  older_trans a b c :
    a ∈ versions → b ∈ versions → c ∈ versions →
    isOlderVersion a b = true → isOlderVersion b c = true →
    isOlderVersion a c = true
}.

Record StrictTotalOn (isOlderVersion : string → string → bool)
    (versions : list string) : Prop := {
  older_order : StrictOrderOn isOlderVersion versions;
  older_total a b :
    a ∈ versions → b ∈ versions → a ≠ b →
    isOlderVersion a b = true ∨ isOlderVersion b a = true
}.

(** The three conditions of [StrictTotalOn], computed. *)
Definition strictTotalOnb (isOlderVersion : string → string → bool)
    (versions : list string) : bool :=
  forallb (λ a, negb (isOlderVersion a a)) versions
  && forallb (λ a, forallb (λ b, forallb (λ c,
       implb (isOlderVersion a b && isOlderVersion b c) (isOlderVersion a c))
       versions) versions) versions
  && forallb (λ a, forallb (λ b,
       bool_decide (a = b) || isOlderVersion a b || isOlderVersion b a)
       versions) versions.

(** [b] is not older than [a]: the two entries are in ascending order. *)
Definition inOrder (isOlderVersion : string → string → bool)
    (a b : Entry.t) : Prop :=
  isOlderVersion (Entry.version b) (Entry.version a) = false.

(** ** Strings *)

(** [s.split('.')]. *)
Fixpoint split_dot (s : string) : list string :=
  match s with
  | EmptyString => [EmptyString]
  | String c s' =>
      if Ascii.eqb c "."%char then EmptyString :: split_dot s'
      else match split_dot s' with
           | [] => [String c EmptyString]
           | w :: ws => String c w :: ws
           end
  end.

(** ** The Flat Catalog Merger *)

Section Merger.

Variable Date_now : nat → string.
Variable isOlderVersion : string → string → bool.

(** The comparison function given to [sort], lines 67-71. *)
Definition compareFn (a b : Entry.t) : Z :=
  if isOlderVersion (Entry.version a) (Entry.version b) then (-1)%Z
  else if bool_decide (Entry.version a = Entry.version b) then 0%Z
  else 1%Z.

(** [Array.prototype.sort].  For a consistent comparison function the
    language fixes the result: the stable sorted arrangement of the array.
    It is computed here by insertion, each element going behind the
    elements it does not precede.  ([compareFn] is consistent when
    [isOlderVersion] is a strict total order on the versions of the array;
    the sorted arrangement is then the only one, see
    [sorted_arrangement_unique].) *)
Fixpoint insertSorted {A} (compare : A → A → Z) (x : A) (sorted : list A) : list A :=
  match sorted with
  | [] => [x]
  | y :: sorted' =>
      if (compare x y <? 0)%Z then x :: y :: sorted'
      else y :: insertSorted compare x sorted'
  end.

Definition Array_sort {A} (compare : A → A → Z) (array : list A) : list A :=
  foldl (λ sorted x, insertSorted compare x sorted) [] array.

(** Body of the second loop of [updateKnownGoodVersions], lines 56-65; the
    state is the [Set] of versions and the document. *)
Definition mergeEntry (state : gset string * KnownGood.t) (entry : Entry.t)
    : Run (gset string * KnownGood.t) :=
  let '(set, knownGoodVersions) := state in
  let version := Entry.version entry in
  let revision := Entry.revision entry in
  if bool_decide (version ∈ set) then Run_ret state
  else
    let set := {[version]} ∪ set in
    let versions :=
      KnownGood.versions knownGoodVersions ++ [Entry.mk version revision] in
    let* timestamp := createTimestamp Date_now in
    Run_ret (set, KnownGood.mk timestamp versions).

(** [updateKnownGoodVersions], lines 48-74.  The first argument is the
    document read from [filePath]; the result is the document written back. *)
Definition updateKnownGoodVersions (knownGoodVersions : KnownGood.t)
    (lastKnownGoodVersions : LastKnownGood.t) : Run KnownGood.t :=
  let set : gset string :=
    list_to_set (Entry.version <$> KnownGood.versions knownGoodVersions) in
  let* merged :=
    forOf mergeEntry
      (Object_values (LastKnownGood.channels lastKnownGoodVersions))
      (set, knownGoodVersions) in
  Run_ret (KnownGood.mk (KnownGood.timestamp merged.2)
             (Array_sort compareFn (KnownGood.versions merged.2))).

End Merger.

(** ** The Milestone Index Updater *)

(** Every stored version is one of [versions]. *)
Definition storedIn (versions : list string)
    (milestones : gmap string Milestone.t) : Prop :=
  map_Forall (λ _ entry, Milestone.version entry ∈ versions) milestones.

(** [version.split('.')[0]]. *)
Definition milestoneOf (version : string) : string :=
  match split_dot version with
  | [] => EmptyString
  | milestone :: _ => milestone
  end.

Section MilestoneUpdater.

Variable Date_now : nat → string.
Variable isOlderVersion : string → string → bool.

(** Body of the loop of [updateLatestVersionsPerMilestone], lines 128-144;
    the state is [needsUpdate] and the [milestones] object. *)
Definition updateMilestone (state : bool * gmap string Milestone.t)
    (channelData : Entry.t) : bool * gmap string Milestone.t :=
  let '(needsUpdate, milestones) := state in
  let version := Entry.version channelData in
  let revision := Entry.revision channelData in
  let milestone := milestoneOf version in
  match milestones !! milestone with
  | Some current =>
      if isOlderVersion (Milestone.version current) version then
        (true,
         <[milestone :=
             Milestone.mk (Milestone.milestone current) version revision]>
           milestones)
      else (needsUpdate, milestones)
  | None =>
      (true,
       setProperty milestone (Milestone.mk milestone version revision)
         milestones)
  end.

(** [updateLatestVersionsPerMilestone], lines 122-153.  The first argument
    is the document read from [filePath]; the result is the document written
    back. *)
Definition updateLatestVersionsPerMilestone
    (latestVersionsPerMilestoneData : PerMilestone.t)
    (lastKnownGoodVersionsData : LastKnownGood.t) : Run PerMilestone.t :=
  let milestones := PerMilestone.milestones latestVersionsPerMilestoneData in
  let '(needsUpdate, milestones) :=
    foldl updateMilestone (false, milestones)
      (Object_values (LastKnownGood.channels lastKnownGoodVersionsData)) in
  if needsUpdate then
    let* timestamp := createTimestamp Date_now in
    Run_ret (PerMilestone.mk timestamp milestones)
  else
    Run_ret (PerMilestone.mk
               (PerMilestone.timestamp latestVersionsPerMilestoneData)
               milestones).

(** The entry of a milestone is the same, or holds a strictly newer
    version. *)
Definition advanced (old new : Milestone.t) : Prop :=
  new = old ∨
  isOlderVersion (Milestone.version old) (Milestone.version new) = true.

(** The script run once for each of a series of per-channel documents, each
    run reading the milestones the run before it wrote. *)
Fixpoint successiveMilestoneRuns (document : PerMilestone.t)
    (snapshots : list LastKnownGood.t) : Run PerMilestone.t :=
  match snapshots with
  | [] => Run_ret document
  | lastKnownGoodVersionsData :: later =>
      let* document' :=
        updateLatestVersionsPerMilestone document lastKnownGoodVersionsData in
      successiveMilestoneRuns document' later
  end.

End MilestoneUpdater.

(** ** The Build-Track Reducer *)

(** [\d]. *)
Definition isDigit (c : ascii) : bool :=
  (48 <=? nat_of_ascii c) && (nat_of_ascii c <=? 57).

(** The one-byte line terminators: line feed and carriage return. *)
Definition isLineTerminator (c : ascii) : bool :=
  (nat_of_ascii c =? 10) || (nat_of_ascii c =? 13).

(** The line terminators U+2028 and U+2029, three bytes each: E2 80 A8 and
    E2 80 A9. *)
Definition isLineSeparator (c1 c2 c3 : ascii) : bool :=
  (nat_of_ascii c1 =? 226) && (nat_of_ascii c2 =? 128)
  && ((nat_of_ascii c3 =? 168) || (nat_of_ascii c3 =? 169)).

(** The character at the start of [s] is one [.] does not match: a line
    terminator. *)
Definition atLineTerminator (s : string) : bool :=
  match s with
  | EmptyString => false
  | String c1 rest =>
      isLineTerminator c1
      || match rest with
         | String c2 (String c3 _) => isLineSeparator c1 c2 c3
         | _ => false
         end
  end.

Fixpoint allDigits (s : string) : bool :=
  match s with
  | EmptyString => true
  | String c s' => isDigit c && allDigits s'
  end.

(** No character of [s] is a line terminator. *)
Fixpoint noLineTerminator (s : string) : bool :=
  match s with
  | EmptyString => true
  | String c s' => negb (atLineTerminator (String c s')) && noLineTerminator s'
  end.

(** [\d+$] against the whole of [s]. *)
Definition digitsToEnd (s : string) : bool :=
  match s with
  | EmptyString => false
  | String _ _ => allDigits s
  end.

(** The pattern [re] of line 157, tried at the start of [s]: group [build],
    any characters but line terminators, as many as possible; a dot; group
    [patch], one digit or more; the end of the input.  The greedy group
    first takes one more character and gives it back when the rest cannot
    match. *)
Fixpoint matchHere (s : string) : option (string * string) :=
  match s with
  | EmptyString => None
  | String c rest =>
      match (if atLineTerminator (String c rest) then None
             else matchHere rest) with
      | Some (build, patch) => Some (String c build, patch)
      | None =>
          if Ascii.eqb c "."%char && digitsToEnd rest then
            Some (EmptyString, rest)
          else None
      end
  end.

(** [re.exec(version)]: the leftmost position where the pattern matches;
    the result is the pair of groups [(build, patch)], [None] is [null].
    The position after a U+2028 or U+2029 is three bytes on. *)
Fixpoint re_exec (s : string) : option (string * string) :=
  match matchHere s with
  | Some groups => Some groups
  | None =>
      match s with
      | EmptyString => None
      | String c1 rest =>
          match rest with
          | String c2 (String c3 rest') =>
              if isLineSeparator c1 c2 c3 then re_exec rest'
              else re_exec rest
          | _ => re_exec rest
          end
      end
  end.

Section BuildReducer.

Variable isOlderVersion : string → string → bool.

(** Body of the loop of [prepareLatestPatchVersionsPerBuild], lines 159-169.
    Reading [match.groups] of a [null] match throws. *)
Definition reduceEntry (map : gmap string Entry.t) (entry : Entry.t)
    : option (gmap string Entry.t) :=
  let version := Entry.version entry in
  match re_exec version with
  | None => None
  | Some (build, patch) =>
      match map !! build with
      | Some knownEntry =>
          if isOlderVersion (Entry.version knownEntry) version then
            Some (<[build := entry]> map)
          else Some map
      | None => Some (<[build := entry]> map)
      end
  end.

Fixpoint reduceEntries (map : gmap string Entry.t) (versions : list Entry.t)
    : option (gmap string Entry.t) :=
  match versions with
  | [] => Some map
  | entry :: versions' =>
      match reduceEntry map entry with
      | Some map' => reduceEntries map' versions'
      | None => None
      end
  end.

(** [prepareLatestPatchVersionsPerBuild], lines 155-180.  The last loop
    copies the [Map] into the [builds] object, one assignment
    [builds[partialVersion] = entry] for each key of the [Map]: every key
    but ["__proto__"] becomes a key of [builds] (see [setProperty]). *)
Definition prepareLatestPatchVersionsPerBuild (knownGoodVersions : KnownGood.t)
    : option PerBuild.t :=
  match reduceEntries ∅ (KnownGood.versions knownGoodVersions) with
  | Some map =>
      Some (PerBuild.mk (KnownGood.timestamp knownGoodVersions)
              (delete "__proto__" map))
  | None => None
  end.

(** The reduction in the words of its description: the build prefix of a
    version, the entries of the catalog on one build track, and on a track
    the first entry that no entry of the track is newer than. *)
Definition buildPrefix (version : string) : option string :=
  fst <$> re_exec version.

Definition onTrack (build : string) (versions : list Entry.t) : list Entry.t :=
  List.filter
    (λ entry, bool_decide (buildPrefix (Entry.version entry) = Some build))
    versions.

Definition highestOf (track : list Entry.t) : option Entry.t :=
  List.find
    (λ entry,
       forallb (λ other,
                  negb (isOlderVersion (Entry.version entry) (Entry.version other)))
         track)
    track.

Definition latestPatchOf (build : string) (versions : list Entry.t)
    : option Entry.t :=
  highestOf (onTrack build versions).

(** What the loop does to the entry kept for one build. *)
Definition keepNewer (known : option Entry.t) (entry : Entry.t)
    : option Entry.t :=
  match known with
  | Some knownEntry =>
      if isOlderVersion (Entry.version knownEntry) (Entry.version entry)
      then Some entry else Some knownEntry
  | None => Some entry
  end.

End BuildReducer.

(** ** The Download Matrix Expander *)

(** One element of a [downloads[binary]] array: [{platform, url}], or
    [{url}] alone. *)
Module Download.
Record t := mk {
  platform : option string;
  url : string
}.
End Download.

(** A record of a collection, as [addDownloads] sees it: its [version], its
    other properties, and its [downloads] once it has some. *)
Module Release.
Record t := mk {
  version : string;
  others : Object string;
  downloads : option (gmap string (list Download.t))
}.
End Release.

(** The objects [addDownloads] deals with live in a heap: the document, with
    its timestamp and its named collections; a collection (an object or an
    array), with the addresses of its records in walking order; a record.
    An address is an index in the heap and a new object goes to its end. *)
Inductive HeapObject : Type :=
  | Document (timestamp : string) (collections : Object nat)
  | Collection (members : Object nat)
  | Record_ (release : Release.t).

Abbreviation Heap := (list HeapObject).

Section Expander.

(** From [./url-utils.mjs] and [./is-older-version.mjs]. *)
Variable binaries : list string.
Variable platforms : list string.
Variable makeDownloadUrl : string → option string → string → string.
Variable predatesChromeDriverAvailability : string → bool.
Variable predatesChromeHeadlessShellAvailability : string → bool.

(** Body of the loop over the binaries, lines 81-116.  The first argument of
    [makeDownloadUrl] is the [version], the second the [platform] when there
    is one, the third the [binary]. *)
Definition addBinary (version : string)
    (downloads : gmap string (list Download.t)) (binary : string)
    : gmap string (list Download.t) :=
  if bool_decide (binary = "chromedriver")
     && predatesChromeDriverAvailability version then downloads
  else if bool_decide (binary = "chrome-headless-shell")
          && predatesChromeHeadlessShellAvailability version then downloads
  else if bool_decide (binary = "mojojs") then downloads
  else if bool_decide (binary = "mojojs") then
    <[binary := [Download.mk None (makeDownloadUrl version None binary)]]>
      downloads
  else
    <[binary :=
        (λ platform,
           Download.mk (Some platform)
             (makeDownloadUrl version (Some platform) binary)) <$> platforms]>
      downloads.

(** Lines 79-117: the [downloads] object of a record of that [version]. *)
Definition downloadsFor (version : string) : gmap string (list Download.t) :=
  foldl (addBinary version) ∅ binaries.

(** [structuredClone], on a document of the heap [source].  The state is
    the memory of the objects copied so far, which keeps shared objects
    shared, and the heap the copies are added to.  The result is [None]
    when [source] does not hold, at the address, a document of collections
    of records. *)
Definition cloneRecord (source : Heap) (state : gmap nat nat * Heap)
    (address : nat) : option (nat * (gmap nat nat * Heap)) :=
  let '(memory, heap) := state in
  match memory !! address with
  | Some copy => Some (copy, state)
  | None =>
      match source !! address with
      | Some (Record_ release) =>
          Some (length heap,
                (<[address := length heap]> memory, heap ++ [Record_ release]))
      | _ => None
      end
  end.

Fixpoint cloneMembers (source : Heap) (state : gmap nat nat * Heap)
    (members : Object nat) : option (Object nat * (gmap nat nat * Heap)) :=
  match members with
  | [] => Some ([], state)
  | (key, address) :: members' =>
      match cloneRecord source state address with
      | Some (copy, state') =>
          match cloneMembers source state' members' with
          | Some (copies, state'') => Some ((key, copy) :: copies, state'')
          | None => None
          end
      | None => None
      end
  end.

Definition cloneCollection (source : Heap) (state : gmap nat nat * Heap)
    (address : nat) : option (nat * (gmap nat nat * Heap)) :=
  let '(memory, heap) := state in
  match memory !! address with
  | Some copy => Some (copy, state)
  | None =>
      match source !! address with
      | Some (Collection members) =>
          match cloneMembers source state members with
          | Some (copies, (memory', heap')) =>
              Some (length heap',
                    (<[address := length heap']> memory',
                     heap' ++ [Collection copies]))
          | None => None
          end
      | _ => None
      end
  end.

Fixpoint cloneCollections (source : Heap) (state : gmap nat nat * Heap)
    (collections : Object nat)
    : option (Object nat * (gmap nat nat * Heap)) :=
  match collections with
  | [] => Some ([], state)
  | (key, address) :: collections' =>
      match cloneCollection source state address with
      | Some (copy, state') =>
          match cloneCollections source state' collections' with
          | Some (copies, state'') => Some ((key, copy) :: copies, state'')
          | None => None
          end
      | None => None
      end
  end.

Definition structuredClone (heap : Heap) (data : nat) : option (nat * Heap) :=
  match heap !! data with
  | Some (Document timestamp collections) =>
      match cloneCollections heap (∅, heap) collections with
      | Some (copies, (_, heap')) =>
          Some (length heap', heap' ++ [Document timestamp copies])
      | None => None
      end
  | _ => None
  end.

(** Lines 79-117 for one [channelData]: its [downloads] property is set to
    a new object, which the loop over the binaries fills. *)
Definition expandRecord (heap : Heap) (channelData : nat) : option Heap :=
  match heap !! channelData with
  | Some (Record_ release) =>
      let version := Release.version release in
      Some (<[channelData :=
                Record_ (Release.mk version (Release.others release)
                           (Some (downloadsFor version)))]> heap)
  | _ => None
  end.

Fixpoint expandRecords (heap : Heap) (values : list nat) : option Heap :=
  match values with
  | [] => Some heap
  | channelData :: values' =>
      match expandRecord heap channelData with
      | Some heap' => expandRecords heap' values'
      | None => None
      end
  end.

(** [addDownloads], lines 76-120: the address of the copy and the heap
    after the call.  [copy[key]] is the timestamp when [key] is
    ["timestamp"]: a string has one value for each of its characters, and
    setting a property on one of them throws; it is [undefined], which has
    no values to walk, when the document has no such property (and [key]
    is none of [Object_prototype]). *)
Definition addDownloads (heap : Heap) (data : nat) (key : string)
    : option (nat * Heap) :=
  match structuredClone heap data with
  | Some (copy, heap') =>
      match heap' !! copy with
      | Some (Document timestamp collections) =>
          if bool_decide (key = "timestamp") then
            if bool_decide (timestamp = "") then Some (copy, heap') else None
          else
            match get key collections with
            | Some collection =>
                match heap' !! collection with
                | Some (Collection members) =>
                    match expandRecords heap' (Object_values members) with
                    | Some heap'' => Some (copy, heap'')
                    | None => None
                    end
                | _ => None
                end
            | None => None
            end
      | _ => None
      end
  | None => None
  end.

(** A record with the [downloads] the expander gives it. *)
Definition expanded (release : Release.t) : Release.t :=
  Release.mk (Release.version release) (Release.others release)
    (Some (downloadsFor (Release.version release))).

End Expander.

(** Reading a heap: the record at an address, and the records of the
    collection [document[key]], in walking order. *)
Definition recordAt (heap : Heap) (address : nat) : option Release.t :=
  match heap !! address with
  | Some (Record_ release) => Some release
  | _ => None
  end.

Definition recordsAt (heap : Heap) (document : nat) (key : string)
    : option (list Release.t) :=
  match heap !! document with
  | Some (Document _ collections) =>
      match get key collections with
      | Some collection =>
          match heap !! collection with
          | Some (Collection members) =>
              mapM (recordAt heap) (Object_values members)
          | _ => None
          end
      | None => None
      end
  | _ => None
  end.

(** A document as a JSON file gives it: every collection of the document is
    a collection of the heap, and every member of it a record. *)
Definition registryAt (heap : Heap) (document : nat) : Prop :=
  ∃ timestamp collections,
    heap !! document = Some (Document timestamp collections) ∧
    Forall (λ collection,
              ∃ members,
                heap !! collection = Some (Collection members) ∧
                Forall (λ member, is_Some (recordAt heap member))
                  (Object_values members))
      (Object_values collections).

(** How the copy at [copy] relates to the object of [source] at [address],
    in the heap [heap] that extends [source]: a member and its copy are the
    same record, or are both collections; a collection and its copy have the
    same keys and related members, or are the same record. *)
Definition memberCopy (source heap : Heap) (address copy : nat) : Prop :=
  length source ≤ copy ∧ copy < length heap ∧
  ((∃ release,
      source !! address = Some (Record_ release) ∧
      heap !! copy = Some (Record_ release)) ∨
   (∃ members members',
      source !! address = Some (Collection members) ∧
      heap !! copy = Some (Collection members'))).

Definition collectionCopy (source heap : Heap) (address copy : nat) : Prop :=
  length source ≤ copy ∧ copy < length heap ∧
  ((∃ release,
      source !! address = Some (Record_ release) ∧
      heap !! copy = Some (Record_ release)) ∨
   (∃ members members',
      source !! address = Some (Collection members) ∧
      heap !! copy = Some (Collection members') ∧
      Forall2 (λ kv kv', kv.1 = kv'.1 ∧ memberCopy source heap kv.2 kv'.2)
        members members')).

(** The invariant of [structuredClone]: the heap extends [source], and the
    memory sends addresses of [source] to their copies. *)
Definition cloning (source : Heap) (state : gmap nat nat * Heap) : Prop :=
  source `prefix_of` state.2 ∧
  ∀ address copy, state.1 !! address = Some copy →
    collectionCopy source state.2 address copy.

(** ** Further notions for the properties of the script *)

(** The last [ok] record of a snapshot that carries the channel name [c]. *)
Definition lastObserved (c : string) (channels : list Channel.t)
    : option Channel.t :=
  last (List.filter
          (λ channelData,
             Channel.ok channelData
             && bool_decide (Channel.channel channelData = c))
          channels).

(** Every milestone entry sits under the key that is its [milestone]
    property and the first component of its [version]. *)
Definition wellKeyed (milestones : gmap string Milestone.t) : Prop :=
  map_Forall
    (λ key entry,
       Milestone.milestone entry = key
       ∧ milestoneOf (Milestone.version entry) = key)
    milestones.

(** The milestone keys of the channels of a per-channel document. *)
Definition milestoneKeys (lastKnownGoodVersionsData : LastKnownGood.t)
    : list string :=
  (λ channelData, milestoneOf (Entry.version channelData))
    <$> Object_values (LastKnownGood.channels lastKnownGoodVersionsData).

(** A string without a dot. *)
Fixpoint noDot (s : string) : bool :=
  match s with
  | EmptyString => true
  | String c s' => negb (Ascii.eqb c "."%char) && noDot s'
  end.

(** ** Further notions for the Download Matrix Expander *)

Section Published.

Variable platforms : list string.
Variable makeDownloadUrl : string → option string → string → string.
Variable predatesChromeDriverAvailability : string → bool.
Variable predatesChromeHeadlessShellAvailability : string → bool.

(** The binary passes the three guards of lines 82-91. *)
Definition published (version binary : string) : bool :=
  negb (bool_decide (binary = "chromedriver")
        && predatesChromeDriverAvailability version)
  && negb (bool_decide (binary = "chrome-headless-shell")
           && predatesChromeHeadlessShellAvailability version)
  && negb (bool_decide (binary = "mojojs")).

(** One [{platform, url}] for each platform, in the order of [platforms]. *)
Definition platformDownloads (version binary : string) : list Download.t :=
  (λ platform,
     Download.mk (Some platform)
       (makeDownloadUrl version (Some platform) binary)) <$> platforms.

End Published.

(** The timestamp and the collection keys of the document at an address,
    and the member keys of its collection [key]. *)
Definition documentAt (heap : Heap) (document : nat)
    : option (string * list string) :=
  match heap !! document with
  | Some (Document timestamp collections) =>
      Some (timestamp, Object_keys collections)
  | _ => None
  end.

Definition memberKeysAt (heap : Heap) (document : nat) (key : string)
    : option (list string) :=
  match heap !! document with
  | Some (Document _ collections) =>
      match get key collections with
      | Some collection =>
          match heap !! collection with
          | Some (Collection members) => Some (Object_keys members)
          | _ => None
          end
      | None => None
      end
  | _ => None
  end.

Section PerVersionFiles.

Variable binaries : list string.
Variable platforms : list string.
Variable makeDownloadUrl : string → option string → string → string.
Variable predatesChromeDriverAvailability : string → bool.
Variable predatesChromeHeadlessShellAvailability : string → bool.

(** The name of the file of a release, line 222. *)
Definition fileName (release : Release.t) : string :=
  "./dist/" +:+ Release.version release +:+ ".json".

(** [writePerVersionFiles], lines 220-225: the calls of [writeJsonFile] it
    makes, file name and content, one for each element of the [versions]
    array of the expanded copy. *)
Definition writePerVersionFiles (heap : Heap) (knownGoodVersions : nat)
    : option (list (string * Release.t)) :=
  match
    addDownloads binaries platforms makeDownloadUrl
      predatesChromeDriverAvailability predatesChromeHeadlessShellAvailability
      heap knownGoodVersions "versions"
  with
  | Some (copy, heap') =>
      match recordsAt heap' copy "versions" with
      | Some releases => Some ((λ release, (fileName release, release)) <$> releases)
      | None => None
      end
  | None => None
  end.

End PerVersionFiles.

(** ** The script *)

(** The four documents the script computes, lines 184, 195, 202 and 209. *)
Module Script.
Record t := mk {
  lastKnownGoodVersionsData : LastKnownGood.t;
  latestVersionsPerMilestone : PerMilestone.t;
  knownGoodVersions : KnownGood.t;
  latestPatchVersionsPerBuild : PerBuild.t
}.
End Script.

Section Script.

Variable Date_now : nat → string.
Variable isOlderVersion : string → string → bool.

(** The top level of the script, lines 182-218, in its order: the
    reconciler, the milestone updater, the merger and the build reducer.
    The arguments are [DASHBOARD_DATA] and the three documents the steps
    read from their files.  The calls of [addDownloads] in between write
    their copies only and hand nothing to a later step. *)
Definition script (DASHBOARD_DATA : Dashboard.t)
    (lastKnownGoodVersionsFile : LastKnownGood.t)
    (latestVersionsPerMilestoneFile : PerMilestone.t)
    (knownGoodVersionsFile : KnownGood.t) : Run Script.t :=
  let* lastKnownGoodVersionsData :=
    prepareLastKnownGoodVersionsData Date_now DASHBOARD_DATA
      lastKnownGoodVersionsFile in
  let* latestVersionsPerMilestone :=
    updateLatestVersionsPerMilestone Date_now isOlderVersion
      latestVersionsPerMilestoneFile lastKnownGoodVersionsData in
  let* knownGoodVersions :=
    updateKnownGoodVersions Date_now isOlderVersion knownGoodVersionsFile
      lastKnownGoodVersionsData in
  match prepareLatestPatchVersionsPerBuild isOlderVersion knownGoodVersions with
  | Some latestPatchVersionsPerBuild =>
      Run_ret (Script.mk lastKnownGoodVersionsData latestVersionsPerMilestone
                 knownGoodVersions latestPatchVersionsPerBuild)
  | None => throw
  end.

End Script.

(** ** Sample documents *)

Definition clock_example (k : nat) : string :=
  "2023-12-14T00:09:" +:+ pretty (20 + k) +:+ ".000Z".

Definition dashboard_example : Dashboard.t :=
  Dashboard.mk
    [ ("Stable", Channel.mk "Stable" "120.0.6099.109" "1217362" true);
      ("Beta", Channel.mk "Beta" "121.0.6167.16" "1233107" true);
      ("Dev", Channel.mk "Dev" "122.0.6170.3" "1233136" false);
      ("Canary", Channel.mk "Canary" "122.0.6182.0" "1236020" true) ].

Definition lastKnownGood_example : LastKnownGood.t :=
  LastKnownGood.mk "2023-12-12T00:09:22.517Z"
    [ ("Stable", Entry.mk "120.0.6099.71" "1217362");
      ("Beta", Entry.mk "121.0.6167.8" "1233107");
      ("Dev", Entry.mk "122.0.6166.0" "1232335");
      ("Canary", Entry.mk "122.0.6182.0" "1236020") ].

(** The document after one pass over [dashboard_example]. *)
Definition lastKnownGood_reconciled : LastKnownGood.t :=
  LastKnownGood.mk "2023-12-14T00:09:21.000Z"
    [ ("Stable", Entry.mk "120.0.6099.109" "1217362");
      ("Beta", Entry.mk "121.0.6167.16" "1233107");
      ("Dev", Entry.mk "122.0.6166.0" "1232335");
      ("Canary", Entry.mk "122.0.6182.0" "1236020") ].

(** A snapshot with a channel the persisted document does not have. *)
Definition dashboard_extended : Dashboard.t :=
  Dashboard.mk
    (Dashboard.channels dashboard_example ++
     [ ("Extended", Channel.mk "Extended" "120.0.6099.109" "1217362" true) ]).

(** ** A version order for the sample documents *)

Module SpecModel.

(** Modelled from the spec: the value of one decimal digit, for the integer
    components of §4.1 ([./is-older-version.mjs] is not among the sources). *)
Definition digitValue (c : ascii) : option N :=
  let n := N_of_ascii c in
  if (48 <=? n)%N && (n <=? 57)%N then Some (n - 48)%N else None.

(** Modelled from the spec: a run of decimal digits read as an integer. *)
Fixpoint parseDigits (s : string) (acc : N) : option N :=
  match s with
  | EmptyString => Some acc
  | String c s' =>
      match digitValue c with
      | Some d => parseDigits s' (10 * acc + d)%N
      | None => None
      end
  end.

(** Modelled from the spec: one integer component of a version. *)
Definition parseComponent (s : string) : option N :=
  match s with
  | EmptyString => None
  | _ => parseDigits s 0%N
  end.

(** Modelled from the spec: a version split on "." into its integer
    components. *)
Definition parseVersion (version : string) : option (list N) :=
  mapM parseComponent (split_dot version).

(** Modelled from the spec: component-wise comparison from the left; the
    first differing pair decides, and when all compared components are equal
    neither sequence is older. *)
Fixpoint olderComponents (a b : list N) : bool :=
  match a, b with
  | x :: a', y :: b' =>
      if (x <? y)%N then true
      else if (y <? x)%N then false
      else olderComponents a' b'
  | _, _ => false
  end.

(** Modelled from the spec: [isOlderVersion] of [./is-older-version.mjs],
    the comparator of §4.1.  A string that is not a dotted sequence of
    integers is neither older nor newer than anything. *)
Definition isOlderVersion (a b : string) : bool :=
  match parseVersion a, parseVersion b with
  | Some a', Some b' => olderComponents a' b'
  | _, _ => false
  end.

End SpecModel.

Definition knownGood_example : KnownGood.t :=
  KnownGood.mk "2023-12-12T00:09:22.517Z"
    [ Entry.mk "119.0.6045.105" "1204232";
      Entry.mk "120.0.6099.71" "1217362";
      Entry.mk "121.0.6167.8" "1233107";
      Entry.mk "122.0.6182.0" "1236020" ].

(** The catalog after [lastKnownGood_reconciled] is merged into it. *)
Definition knownGood_merged : KnownGood.t :=
  KnownGood.mk "2023-12-14T00:09:24.000Z"
    [ Entry.mk "119.0.6045.105" "1204232";
      Entry.mk "120.0.6099.71" "1217362";
      Entry.mk "120.0.6099.109" "1217362";
      Entry.mk "121.0.6167.8" "1233107";
      Entry.mk "121.0.6167.16" "1233107";
      Entry.mk "122.0.6166.0" "1232335";
      Entry.mk "122.0.6182.0" "1236020" ].

Definition versions_example : list string :=
  [ "119.0.6045.105"; "120.0.6099.71"; "120.0.6099.109"; "121.0.6167.8";
    "121.0.6167.16"; "122.0.6166.0"; "122.0.6182.0" ].

Definition perMilestone_example : PerMilestone.t :=
  PerMilestone.mk "2023-12-12T00:09:22.517Z"
    (<["120" := Milestone.mk "120" "120.0.6099.71" "1217362"]>
       (<["121" := Milestone.mk "121" "121.0.6167.8" "1233107"]> ∅)).

(** The milestones after a run on [lastKnownGood_reconciled]. *)
Definition perMilestone_updated : PerMilestone.t :=
  PerMilestone.mk "2023-12-14T00:09:22.000Z"
    (<["120" := Milestone.mk "120" "120.0.6099.109" "1217362"]>
       (<["121" := Milestone.mk "121" "121.0.6167.16" "1233107"]>
          (<["122" := Milestone.mk "122" "122.0.6182.0" "1236020"]> ∅))).

Definition knownGood_builds : KnownGood.t :=
  KnownGood.mk "2023-12-14T00:09:24.000Z"
    [ Entry.mk "120.0.1.1" "1000001";
      Entry.mk "120.0.1.5" "1000005";
      Entry.mk "121.0.2.1" "1000101" ].

(** ** A sample heap for the expander *)

Definition binaries_example : list string :=
  ["chrome"; "chromedriver"; "chrome-headless-shell"; "mojojs"].

Definition platforms_example : list string :=
  ["linux64"; "mac-arm64"; "mac-x64"; "win32"; "win64"].

Definition makeDownloadUrl_example (version : string)
    (platform : option string) (binary : string) : string :=
  match platform with
  | Some platform =>
      "https://storage.example/" +:+ version +:+ "/" +:+ platform +:+ "/"
      +:+ binary +:+ "-" +:+ platform +:+ ".zip"
  | None => "https://storage.example/" +:+ version +:+ "/" +:+ binary +:+ ".zip"
  end.

(** Modelled from the spec: the availability predicates of
    [./is-older-version.mjs], §4.2, each a comparison with a fixed first
    version; the two versions are sample values. *)
Definition predatesChromeDriverAvailability_example (version : string) : bool :=
  SpecModel.isOlderVersion version "115.0.5763.0".

(** Modelled from the spec: see [predatesChromeDriverAvailability_example]. *)
Definition predatesChromeHeadlessShellAvailability_example (version : string)
    : bool :=
  SpecModel.isOlderVersion version "120.0.6098.0".

Definition heap_example : Heap :=
  [ Document "2023-12-14T00:09:21.000Z" [("channels", 1)];
    Collection [("Stable", 2); ("Beta", 3); ("Dev", 4)];
    Record_ (Release.mk "113.0.5672.0"
               [("channel", "Stable"); ("revision", "1121455")] None);
    Record_ (Release.mk "118.0.5993.70"
               [("channel", "Beta"); ("revision", "1192594")] None);
    Record_ (Release.mk "121.0.6167.16"
               [("channel", "Dev"); ("revision", "1233107")] None) ].

Definition addDownloads_example : option (nat * Heap) :=
  addDownloads binaries_example platforms_example makeDownloadUrl_example
    predatesChromeDriverAvailability_example
    predatesChromeHeadlessShellAvailability_example
    heap_example 0 "channels".

(** The heap after the call on [heap_example]. *)
Definition heap_expanded : Heap :=
  match addDownloads_example with
  | Some (_, heap) => heap
  | None => []
  end.

(** The builds of [knownGood_builds]. *)
Definition perBuild_example : PerBuild.t :=
  PerBuild.mk "2023-12-14T00:09:24.000Z"
    (<["121.0.2" := Entry.mk "121.0.2.1" "1000101"]>
       (<["120.0.1" := Entry.mk "120.0.1.5" "1000005"]> ∅)).

(** A catalog in the heap. *)
Definition heap_catalog : Heap :=
  [ Record_ (Release.mk "113.0.5672.0" [("revision", "1121455")] None);
    Record_ (Release.mk "120.0.6099.109" [("revision", "1217362")] None);
    Collection [("0", 0); ("1", 1)];
    Document "2023-12-14T00:09:24.000Z" [("versions", 2)] ].

(** The documents of a run of the script on the sample documents. *)
Definition script_example : Script.t :=
  Script.mk lastKnownGood_reconciled perMilestone_updated
    (KnownGood.mk "2023-12-14T00:09:25.000Z"
       (KnownGood.versions knownGood_merged))
    (PerBuild.mk "2023-12-14T00:09:25.000Z"
       (<["119.0.6045" := Entry.mk "119.0.6045.105" "1204232"]>
          (<["120.0.6099" := Entry.mk "120.0.6099.109" "1217362"]>
             (<["121.0.6167" := Entry.mk "121.0.6167.16" "1233107"]>
                (<["122.0.6166" := Entry.mk "122.0.6166.0" "1232335"]>
                   (<["122.0.6182" := Entry.mk "122.0.6182.0" "1236020"]>
                      ∅)))))).

(** * Proofs *)

(** ** Objects *)

Section ObjectFacts.
Context {A : Type}.
Implicit Types (o : Object A) (k : string) (f : A → A).

Lemma get_mutate_eq f k o : get k (mutate f k o) = f <$> get k o.
Proof.
  induction o as [|[k' v] o IH]; simpl; [done|].
  destruct (decide (k' = k)) as [->|Hne]; simpl.
  - by rewrite decide_True.
  - by rewrite decide_False.
Qed.

Lemma get_mutate_ne f k k' o : k ≠ k' → get k' (mutate f k o) = get k' o.
Proof.
  intros Hne. induction o as [|[k0 v] o IH]; simpl; [done|].
  destruct (decide (k0 = k)) as [->|Hk]; simpl.
  - by rewrite !decide_False.
  - by rewrite IH.
Qed.

Lemma keys_mutate f k o : Object_keys (mutate f k o) = Object_keys o.
Proof.
  unfold Object_keys. induction o as [|[k0 v] o IH]; simpl; [done|].
  destruct (decide (k0 = k)); simpl; [done|]. by f_equal.
Qed.

Lemma get_None_keys k o : get k o = None ↔ k ∉ Object_keys o.
Proof.
  unfold Object_keys. induction o as [|[k0 v] o IH]; simpl.
  - split; [intros _; apply not_elem_of_nil | done].
  - destruct (decide (k0 = k)) as [->|Hk].
    + split; [done|]. intros []. apply elem_of_cons. by left.
    + rewrite IH, not_elem_of_cons. split; [by intros ?|by intros [_ ?]].
Qed.

Lemma get_elem_of k o v : get k o = Some v → v ∈ Object_values o.
Proof.
  unfold Object_values. induction o as [|[k0 v0] o IH]; simpl; [done|].
  destruct (decide (k0 = k)).
  - intros [= ->]. by left.
  - intros Hget. right. by apply IH.
Qed.
End ObjectFacts.

(** ** Loops *)

Lemma forOf_cons {A S} (body : S → A → Run S) x xs s n :
  forOf body (x :: xs) s n =
    match body s x n with
    | Some (s', n') => forOf body xs s' n'
    | None => None
    end.
Proof. done. Qed.

(** ** The Channel Snapshot Reconciler *)

Section ReconcilerFacts.
Variable Date_now : nat → string.
Implicit Types (lkg : LastKnownGood.t) (cd : Channel.t) (cds : list Channel.t).

Local Abbreviation step := (reconcileChannel Date_now).
Local Abbreviation run := (forOf (reconcileChannel Date_now)).

Lemma run_cons cd cds lkg n :
  run (cd :: cds) lkg n =
    match step lkg cd n with
    | Some (lkg1, n1) => run cds lkg1 n1
    | None => None
    end.
Proof. done. Qed.

Lemma step_not_ok lkg cd n :
  Channel.ok cd = false → step lkg cd n = Some (lkg, n).
Proof. intros Hok. unfold reconcileChannel. by rewrite Hok. Qed.

(** What one iteration does when it does not throw. *)
Lemma step_inv lkg cd n lkg1 n1 :
  step lkg cd n = Some (lkg1, n1) →
  (differs lkg cd = false ∧ lkg1 = lkg ∧ n1 = n) ∨
  (differs lkg cd = true ∧ n1 = S n ∧
   lkg1 = LastKnownGood.mk (Date_now n)
            (mutate (overwrite cd) (Channel.channel cd)
               (LastKnownGood.channels lkg))).
Proof.
  unfold reconcileChannel, differs.
  destruct (Channel.ok cd); simpl.
  - destruct (get _ _) as [known|]; [|done].
    destruct (sameVersion known cd); simpl.
    + unfold Run_ret. intros [= <- <-]. by left.
    + unfold Run_bind, createTimestamp, Run_ret. intros [= <- <-]. by right.
  - unfold Run_ret. intros [= <- <-]. by left.
Qed.

Lemma step_throws lkg cd n :
  Channel.ok cd = true →
  get (Channel.channel cd) (LastKnownGood.channels lkg) = None →
  step lkg cd n = None.
Proof. intros Hok Hget. unfold reconcileChannel. by rewrite Hok, Hget. Qed.

Lemma step_keys lkg cd n lkg1 n1 :
  step lkg cd n = Some (lkg1, n1) →
  Object_keys (LastKnownGood.channels lkg1) =
  Object_keys (LastKnownGood.channels lkg).
Proof.
  intros [(_ & -> & _)|(_ & _ & ->)]%step_inv; [done|].
  apply keys_mutate.
Qed.

Lemma step_get_other lkg cd n lkg1 n1 c :
  step lkg cd n = Some (lkg1, n1) →
  (Channel.ok cd = true → Channel.channel cd ≠ c) →
  get c (LastKnownGood.channels lkg1) = get c (LastKnownGood.channels lkg).
Proof.
  intros [(_ & -> & _)|(Hd & _ & ->)]%step_inv Hc; [done|]. simpl.
  apply get_mutate_ne, Hc.
  unfold differs in Hd. by destruct (Channel.ok cd).
Qed.

(** After an iteration on an [ok] channel the persisted entry is the
    observed pair. *)
Lemma step_get_same lkg cd n lkg1 n1 :
  step lkg cd n = Some (lkg1, n1) →
  Channel.ok cd = true →
  differs lkg1 cd = false ∧
  is_Some (get (Channel.channel cd) (LastKnownGood.channels lkg1)).
Proof.
  intros Hstep Hok.
  destruct (step_inv _ _ _ _ _ Hstep) as [(Hd & -> & _)|(Hd & _ & ->)].
  - split; [done|]. unfold differs in Hd. rewrite Hok in Hd. simpl in Hd.
    destruct (get _ _) eqn:Hg; [done|].
    by rewrite step_throws in Hstep.
  - unfold differs in *. rewrite Hok in *. simpl in *.
    rewrite get_mutate_eq.
    destruct (get _ _) as [known|]; [|done]. simpl. split; [|done].
    unfold sameVersion, overwrite. simpl.
    by rewrite !bool_decide_eq_true_2.
Qed.


Lemma run_get_other cds lkg n lkg' n' c :
  run cds lkg n = Some (lkg', n') →
  (∀ cd, cd ∈ cds → Channel.ok cd = true → Channel.channel cd ≠ c) →
  get c (LastKnownGood.channels lkg') = get c (LastKnownGood.channels lkg).
Proof.
  revert lkg n. induction cds as [|cd cds IH]; intros lkg n.
  - by intros [= <- <-].
  - rewrite run_cons. destruct (step lkg cd n) as [[lkg1 n1]|] eqn:Hs; [|done].
    intros Hr Hc. rewrite (IH _ _ Hr).
    + eapply step_get_other; [done|]. apply Hc. by left.
    + intros cd' Hin. apply Hc. by right.
Qed.

Lemma run_throws cds lkg n cd :
  cd ∈ cds → Channel.ok cd = true →
  get (Channel.channel cd) (LastKnownGood.channels lkg) = None →
  run cds lkg n = None.
Proof.
  revert lkg n. induction cds as [|cd0 cds IH]; intros lkg n Hin Hok Hget.
  - by apply elem_of_nil in Hin.
  - rewrite run_cons. destruct (step lkg cd0 n) as [[lkg1 n1]|] eqn:Hs; [|done].
    apply elem_of_cons in Hin as [->|Hin].
    + by rewrite step_throws in Hs.
    + apply IH; [done..|].
      apply get_None_keys. rewrite (step_keys _ _ _ _ _ Hs).
      by apply get_None_keys.
Qed.

(** Skipping the channels that are not [ok] changes nothing. *)
Lemma run_filter_ok cds lkg n :
  run (List.filter Channel.ok cds) lkg n = run cds lkg n.
Proof.
  revert lkg n. induction cds as [|cd cds IH]; intros lkg n; [done|].
  simpl List.filter. destruct (Channel.ok cd) eqn:Hok.
  - rewrite !run_cons. destruct (step lkg cd n) as [[lkg1 n1]|]; [|done].
    apply IH.
  - rewrite run_cons, step_not_ok by done. apply IH.
Qed.

Lemma okNames_cons_ok cd cds :
  Channel.ok cd = true → okNames (cd :: cds) = Channel.channel cd :: okNames cds.
Proof. intros Hok. unfold okNames. simpl. by rewrite Hok. Qed.

Lemma okNames_cons_not_ok cd cds :
  Channel.ok cd = false → okNames (cd :: cds) = okNames cds.
Proof. intros Hok. unfold okNames. simpl. by rewrite Hok. Qed.

Lemma elem_of_okNames cd cds :
  cd ∈ cds → Channel.ok cd = true → Channel.channel cd ∈ okNames cds.
Proof.
  intros Hin Hok. unfold okNames. apply list_elem_of_fmap.
  exists cd. split; [done|]. apply list_elem_of_In, filter_In.
  split; [by apply list_elem_of_In|done].
Qed.

(** An iteration on one channel does not change whether the other channels
    differ. *)
Lemma step_differs_others lkg cd n lkg1 n1 cds :
  step lkg cd n = Some (lkg1, n1) →
  NoDup (okNames (cd :: cds)) →
  ∀ cd', cd' ∈ cds → differs lkg1 cd' = differs lkg cd'.
Proof.
  intros Hs Hnd cd' Hin. unfold differs.
  destruct (Channel.ok cd') eqn:Hok'; [simpl|done].
  erewrite step_get_other; [done..|].
  intros Hok Heq. rewrite okNames_cons_ok in Hnd by done.
  apply NoDup_cons in Hnd as [Hnotin _]. apply Hnotin.
  rewrite Heq. by apply elem_of_okNames.
Qed.

Lemma filter_differs_ext lkg lkg1 cds :
  (∀ cd', cd' ∈ cds → differs lkg1 cd' = differs lkg cd') →
  List.filter (differs lkg1) cds = List.filter (differs lkg) cds.
Proof.
  intros Hext. apply filter_ext_in. intros cd' Hin.
  by apply Hext, list_elem_of_In.
Qed.

Lemma NoDup_okNames_tail cd cds :
  NoDup (okNames (cd :: cds)) → NoDup (okNames cds).
Proof.
  destruct (Channel.ok cd) eqn:Hok.
  - rewrite okNames_cons_ok by done. by intros [_ ?]%NoDup_cons.
  - by rewrite okNames_cons_not_ok.
Qed.

(** The clock is read once for each channel that differs, and the
    timestamp left in the document is the last reading. *)
Lemma run_count cds lkg n lkg' n' :
  run cds lkg n = Some (lkg', n') →
  NoDup (okNames cds) →
  n' = n + length (List.filter (differs lkg) cds) ∧
  LastKnownGood.timestamp lkg' =
    (if decide (n' = n) then LastKnownGood.timestamp lkg
     else Date_now (n' - 1)).
Proof.
  revert lkg n. induction cds as [|cd cds IH]; intros lkg n.
  - intros [= <- <-] _. simpl. split; [lia|]. by rewrite decide_True.
  - rewrite run_cons. destruct (step lkg cd n) as [[lkg1 n1]|] eqn:Hs; [|done].
    intros Hr Hnd.
    destruct (IH _ _ Hr (NoDup_okNames_tail _ _ Hnd)) as [Hn Hts].
    rewrite (filter_differs_ext lkg lkg1) in Hn
      by by eapply step_differs_others.
    simpl List.filter.
    destruct (step_inv _ _ _ _ _ Hs) as [(Hd & -> & ->)|(Hd & -> & ->)].
    + by rewrite Hd.
    + rewrite Hd. simpl. split; [lia|].
      rewrite Hts. simpl. rewrite (decide_False (P := n' = n)) by lia.
      case_decide as Hn'; [|done]. f_equal. lia.
Qed.

(** Once every [ok] channel agrees with the document, a pass is a no-op. *)
Lemma run_fixpoint cds lkg n :
  (∀ cd, cd ∈ cds → Channel.ok cd = true →
     differs lkg cd = false ∧
     is_Some (get (Channel.channel cd) (LastKnownGood.channels lkg))) →
  run cds lkg n = Some (lkg, n).
Proof.
  induction cds as [|cd cds IH]; intros Hall; [done|].
  rewrite run_cons.
  assert (step lkg cd n = Some (lkg, n)) as ->.
  { destruct (Channel.ok cd) eqn:Hok; [|by apply step_not_ok].
    destruct (Hall cd) as [Hd [known Hg]]; [by left|done|].
    unfold differs in Hd. unfold reconcileChannel.
    rewrite Hok, Hg in *. simpl in *.
    by destruct (sameVersion known cd). }
  apply IH. intros cd' Hin. apply Hall. by right.
Qed.

Lemma run_settles cds lkg n lkg' n' :
  run cds lkg n = Some (lkg', n') →
  NoDup (okNames cds) →
  ∀ cd, cd ∈ cds → Channel.ok cd = true →
    differs lkg' cd = false ∧
    is_Some (get (Channel.channel cd) (LastKnownGood.channels lkg')).
Proof.
  revert lkg n. induction cds as [|cd cds IH]; intros lkg n.
  - intros _ _ cd Hin. by apply elem_of_nil in Hin.
  - rewrite run_cons. destruct (step lkg cd n) as [[lkg1 n1]|] eqn:Hs; [|done].
    intros Hr Hnd cd' Hin Hok'.
    apply elem_of_cons in Hin as [->|Hin].
    + destruct (step_get_same _ _ _ _ _ Hs Hok') as [Hd Hsome].
      assert (get (Channel.channel cd) (LastKnownGood.channels lkg') =
              get (Channel.channel cd) (LastKnownGood.channels lkg1)) as Hsame.
      { eapply run_get_other; [done|]. intros cd2 Hin2 Hok2 Heq.
        rewrite okNames_cons_ok in Hnd by done.
        apply NoDup_cons in Hnd as [Hnotin _]. apply Hnotin.
        rewrite <- Heq. by apply elem_of_okNames. }
      unfold differs in *. by rewrite Hsame.
    + eapply IH; eauto using NoDup_okNames_tail.
Qed.

End ReconcilerFacts.

Lemma values_filter_ok (o : Object Channel.t) :
  Object_values (List.filter (λ kv, Channel.ok kv.2) o) =
  List.filter Channel.ok (Object_values o).
Proof.
  unfold Object_values. induction o as [|[k cd] o IH]; simpl; [done|].
  destruct (Channel.ok cd); simpl; [f_equal|]; exact IH.
Qed.

(** C1 (amended): the reconciler takes a fresh timestamp once for every
    [ok] channel whose (version, revision) pair differs from the persisted
    entry, that is once per changed channel and not once per run; the
    document keeps the last of these readings, and keeps its old timestamp
    when no channel differs. *)
Theorem reconciler_bumps_per_changed_channel
    (Date_now : nat → string) (data : Dashboard.t)
    (lkg lkg' : LastKnownGood.t) (n n' : nat) :
  NoDup (okNames (Object_values (Dashboard.channels data))) →
  prepareLastKnownGoodVersionsData Date_now data lkg n = Some (lkg', n') →
  let changed :=
    List.filter (differs lkg) (Object_values (Dashboard.channels data)) in
  n' = n + length changed ∧
  LastKnownGood.timestamp lkg' =
    (if decide (changed = []) then LastKnownGood.timestamp lkg
     else Date_now (n' - 1)).
Proof.
  intros Hnd Hrun changed.
  destruct (run_count _ _ _ _ _ _ Hrun Hnd) as [Hn Hts].
  fold changed in Hn. split; [done|]. rewrite Hts.
  destruct changed as [|cd changed']; simpl in Hn.
  - by rewrite !decide_True by lia.
  - by rewrite !decide_False by (done || lia).
Qed.

Lemma reconciler_bumps_per_changed_channel_witness :
  2 = 0 + 2 ∧
  LastKnownGood.timestamp lastKnownGood_reconciled = clock_example (2 - 1).
Proof.
  apply (reconciler_bumps_per_changed_channel clock_example dashboard_example
           lastKnownGood_example lastKnownGood_reconciled 0 2).
  - apply (bool_decide_unpack _). vm_compute. exact I.
  - vm_compute. reflexivity.
Defined.

(** C1 as stated fails: with two changed channels the timestamp is assigned
    twice in one run. *)
Lemma reconciler_bumps_once_counterexample :
  ¬ (∀ lkg' n',
       prepareLastKnownGoodVersionsData clock_example dashboard_example
         lastKnownGood_example 0 = Some (lkg', n') →
       (∃ cd, cd ∈ Object_values (Dashboard.channels dashboard_example) ∧
              differs lastKnownGood_example cd = true) →
       n' = 1).
Proof.
  intros Hclaim.
  specialize (Hclaim lastKnownGood_reconciled 2).
  assert (2 = 1) as Habsurd; [|discriminate Habsurd].
  apply Hclaim.
  - vm_compute. reflexivity.
  - exists (Channel.mk "Stable" "120.0.6099.109" "1217362" true).
    split; [|vm_compute; reflexivity]. apply elem_of_cons. by left.
Qed.

(** C4: a second pass of the reconciler over the same snapshot, started
    from the document the first pass returned, returns that document as it
    is (same timestamp, same channel entries) and does not read the clock. *)
Theorem reconciler_idempotent
    (Date_now : nat → string) (data : Dashboard.t)
    (lkg lkg' : LastKnownGood.t) (n n' : nat) :
  NoDup (okNames (Object_values (Dashboard.channels data))) →
  prepareLastKnownGoodVersionsData Date_now data lkg n = Some (lkg', n') →
  prepareLastKnownGoodVersionsData Date_now data lkg' n' = Some (lkg', n').
Proof.
  intros Hnd Hrun. apply run_fixpoint.
  by eapply run_settles.
Qed.

Lemma reconciler_idempotent_witness :
  prepareLastKnownGoodVersionsData clock_example dashboard_example
    lastKnownGood_reconciled 2 = Some (lastKnownGood_reconciled, 2).
Proof.
  apply (reconciler_idempotent clock_example dashboard_example
           lastKnownGood_example lastKnownGood_reconciled 0 2).
  - apply (bool_decide_unpack _). vm_compute. exact I.
  - vm_compute. reflexivity.
Defined.

(** C9: an iteration on a channel that is not [ok] returns the document as
    it is, timestamp included, and does not read the clock; a run gives the
    same result with the channels that are not [ok] removed from the
    snapshot; and the entry of a channel name that no [ok] record carries is
    the same after the run as before it. *)
Theorem reconciler_skips_not_ok
    (Date_now : nat → string) (data : Dashboard.t)
    (lkg : LastKnownGood.t) (n : nat) :
  (∀ cd, Channel.ok cd = false →
     reconcileChannel Date_now lkg cd n = Some (lkg, n)) ∧
  prepareLastKnownGoodVersionsData Date_now
    (Dashboard.mk
       (List.filter (λ kv, Channel.ok kv.2) (Dashboard.channels data)))
    lkg n
  = prepareLastKnownGoodVersionsData Date_now data lkg n ∧
  (∀ lkg' n' c,
     prepareLastKnownGoodVersionsData Date_now data lkg n = Some (lkg', n') →
     c ∉ okNames (Object_values (Dashboard.channels data)) →
     get c (LastKnownGood.channels lkg') = get c (LastKnownGood.channels lkg)).
Proof.
  split; [|split].
  - intros cd. apply step_not_ok.
  - unfold prepareLastKnownGoodVersionsData. simpl.
    rewrite values_filter_ok. apply run_filter_ok.
  - intros lkg' n' c Hrun Hc. eapply run_get_other; [done|].
    intros cd Hin Hok <-. apply Hc. by apply elem_of_okNames.
Qed.

Lemma reconciler_skips_not_ok_witness :
  get "Dev" (LastKnownGood.channels lastKnownGood_reconciled) =
  get "Dev" (LastKnownGood.channels lastKnownGood_example).
Proof.
  refine (proj2 (proj2 (reconciler_skips_not_ok clock_example dashboard_example
                          lastKnownGood_example 0))
            lastKnownGood_reconciled 2 "Dev" _ _).
  - vm_compute. reflexivity.
  - apply (bool_decide_unpack _). vm_compute. exact I.
Defined.



(** ** The version order *)

Lemma strictTotalOnb_sound older versions :
  strictTotalOnb older versions = true → StrictTotalOn older versions.
Proof.
  unfold strictTotalOnb. rewrite !andb_true_iff, !forallb_forall.
  intros [[Hirr Htrans] Htotal]. split; [split|].
  - intros a Ha%list_elem_of_In. by apply negb_true_iff, Hirr.
  - intros a b c Ha%list_elem_of_In Hb%list_elem_of_In Hc%list_elem_of_In Hab Hbc.
    specialize (Htrans a Ha). rewrite forallb_forall in Htrans.
    specialize (Htrans b Hb). rewrite forallb_forall in Htrans.
    specialize (Htrans c Hc). by rewrite Hab, Hbc in Htrans.
  - intros a b Ha%list_elem_of_In Hb%list_elem_of_In Hne.
    specialize (Htotal a Ha). rewrite forallb_forall in Htotal.
    specialize (Htotal b Hb). rewrite !orb_true_iff in Htotal.
    destruct Htotal as [[Heq%bool_decide_eq_true|?]|?]; auto.
Qed.

Lemma older_asym older versions a b :
  StrictOrderOn older versions → a ∈ versions → b ∈ versions →
  older a b = true → older b a = false.
Proof.
  intros Hso Ha Hb Hab. destruct (older b a) eqn:Hba; [|done].
  rewrite <- (older_irrefl _ _ Hso a Ha).
  symmetry. by apply (older_trans _ _ Hso a b a).
Qed.

(** ** The Flat Catalog Merger *)

Section MergerFacts.
Variable Date_now : nat → string.
Variable older : string → string → bool.
Implicit Types (e x y : Entry.t) (l : list Entry.t).

Local Abbreviation ascending := (inOrder older).

Lemma compareFn_negative x y :
  (compareFn older x y <? 0)%Z = older (Entry.version x) (Entry.version y).
Proof.
  unfold compareFn. destruct (older _ _); [done|]. by case_bool_decide.
Qed.

Lemma insertSorted_perm x l : insertSorted (compareFn older) x l ≡ₚ x :: l.
Proof.
  induction l as [|y l IH]; simpl; [done|].
  destruct (_ <? _)%Z; [done|]. rewrite IH. apply Permutation_swap.
Qed.

Lemma Array_sort_perm l : Array_sort (compareFn older) l ≡ₚ l.
Proof.
  unfold Array_sort.
  enough (∀ acc, foldl (λ s x, insertSorted (compareFn older) x s) acc l
                 ≡ₚ l ++ acc) as H by (by rewrite H, app_nil_r).
  induction l as [|x l IH]; intros acc; simpl; [done|].
  rewrite IH, insertSorted_perm. by rewrite Permutation_middle.
Qed.

Lemma insertSorted_sorted versions x l :
  StrictOrderOn older versions →
  Entry.version <$> (x :: l) ⊆ versions →
  StronglySorted ascending l →
  StronglySorted ascending (insertSorted (compareFn older) x l).
Proof.
  intros Hsto Hsub Hsorted. induction Hsorted as [|y l Hl IH Hy]; simpl.
  - repeat constructor.
  - assert (Entry.version x ∈ versions) as Hx by (apply Hsub; set_solver).
    assert (Entry.version y ∈ versions) as Hyv by (apply Hsub; set_solver).
    rewrite compareFn_negative.
    destruct (older (Entry.version x) (Entry.version y)) eqn:Hxy.
    + constructor; [by constructor|]. constructor.
      * by eapply older_asym.
      * rewrite Forall_forall in Hy |- *. intros q Hq.
        specialize (Hy q Hq). unfold inOrder in *.
        destruct (older (Entry.version q) (Entry.version x)) eqn:Hqx; [|done].
        rewrite <- Hy. symmetry.
        apply (older_trans _ _ Hsto _ (Entry.version x)); try done.
        apply Hsub. set_solver.
    + constructor.
      * apply IH. set_solver.
      * rewrite insertSorted_perm. by constructor.
Qed.

Lemma Array_sort_sorted versions l :
  StrictOrderOn older versions →
  Entry.version <$> l ⊆ versions →
  StronglySorted ascending (Array_sort (compareFn older) l).
Proof.
  intros Hsto. unfold Array_sort.
  enough (∀ acc, StronglySorted ascending acc →
                 Entry.version <$> acc ++ l ⊆ versions →
                 StronglySorted ascending
                   (foldl (λ s x, insertSorted (compareFn older) x s) acc l))
    as H by (intros; apply H; [constructor|done]).
  induction l as [|x l IH]; intros acc Hacc Hsub; simpl; [done|].
  apply IH.
  - eapply insertSorted_sorted; [done| |done].
    rewrite !fmap_app, !fmap_cons in *. set_solver.
  - rewrite fmap_app, (fmap_Permutation _ _ _ (insertSorted_perm x acc)).
    rewrite !fmap_app, !fmap_cons in *. set_solver.
Qed.

(** With a strict total order on versions that are pairwise different, an
    array has one sorted arrangement only: whatever way the engine sorts,
    [Array_sort] gives its result. *)
Lemma sorted_arrangement_unique versions l1 l2 :
  StrictTotalOn older versions →
  Entry.version <$> l1 ⊆ versions →
  NoDup (Entry.version <$> l1) →
  l1 ≡ₚ l2 →
  StronglySorted ascending l1 → StronglySorted ascending l2 →
  l1 = l2.
Proof.
  intros Hsto. revert l2.
  induction l1 as [|x l1 IH]; intros l2 Hsub Hnd Hperm Hs1 Hs2.
  - by apply Permutation_nil_l in Hperm.
  - destruct l2 as [|y l2]; [by apply Permutation_nil_r in Hperm|].
    apply StronglySorted_inv in Hs1 as [Hs1 Hx].
    apply StronglySorted_inv in Hs2 as [Hs2 Hy].
    rewrite Forall_forall in Hx, Hy.
    assert (x = y) as <-.
    { destruct (decide (x = y)) as [|Hne]; [done|].
      assert (x ∈ l2) as Hx2.
      { assert (x ∈ y :: l2) as [?|?]%elem_of_cons
          by (rewrite <- Hperm; by left); done. }
      assert (y ∈ l1) as Hy1.
      { assert (y ∈ x :: l1) as [?|?]%elem_of_cons
          by (rewrite Hperm; by left); done. }
      specialize (Hx y Hy1). specialize (Hy x Hx2). unfold inOrder in *.
      assert (Entry.version x ≠ Entry.version y) as Hv.
      { intros Heq. rewrite fmap_cons in Hnd.
        apply NoDup_cons in Hnd as [Hnotin _]. apply Hnotin.
        rewrite Heq. by apply list_elem_of_fmap_2. }
      destruct (older_total _ _ Hsto (Entry.version x) (Entry.version y))
        as [Hxy|Hyx]; try done; try congruence.
      - apply Hsub. rewrite fmap_cons. by left.
      - apply Hsub. rewrite fmap_cons. right. by apply list_elem_of_fmap_2. }
    f_equal. apply IH; try done.
    + rewrite fmap_cons in Hsub. set_solver.
    + rewrite fmap_cons in Hnd. by apply NoDup_cons in Hnd as [_ ?].
    + by eapply Permutation_cons_inv.
Qed.

Lemma mergeEntry_present set kgv entry n :
  Entry.version entry ∈ set →
  mergeEntry Date_now (set, kgv) entry n = Some ((set, kgv), n).
Proof. intros Hin. unfold mergeEntry. by rewrite bool_decide_eq_true_2. Qed.

Lemma mergeEntry_absent set kgv entry n :
  Entry.version entry ∉ set →
  mergeEntry Date_now (set, kgv) entry n =
    Some (({[Entry.version entry]} ∪ set,
           KnownGood.mk (Date_now n)
             (KnownGood.versions kgv ++
              [Entry.mk (Entry.version entry) (Entry.revision entry)])),
          S n).
Proof. intros Hin. unfold mergeEntry. by rewrite bool_decide_eq_false_2. Qed.

(** The loop appends exactly the entries whose version the catalog does not
    hold yet, once each. *)
Lemma merge_loop entries set kgv n :
  set = list_to_set (Entry.version <$> KnownGood.versions kgv) →
  ∃ set' kgv' n' added,
    forOf (mergeEntry Date_now) entries (set, kgv) n = Some ((set', kgv'), n') ∧
    KnownGood.versions kgv' = KnownGood.versions kgv ++ added ∧
    NoDup (Entry.version <$> added) ∧
    (∀ e, e ∈ added →
       e ∈ entries ∧ Entry.version e ∉ Entry.version <$> KnownGood.versions kgv).
Proof.
  revert set kgv n. induction entries as [|entry entries IH]; intros set kgv n Hset.
  - exists set, kgv, n, []. rewrite app_nil_r. split_and!; try done.
    + constructor.
    + intros e He. by apply elem_of_nil in He.
  - rewrite forOf_cons.
    destruct (decide (Entry.version entry ∈ set)) as [Hin|Hin].
    + rewrite mergeEntry_present by done.
      destruct (IH set kgv n Hset)
        as (set' & kgv' & n' & added & Hrun & Hv & Hnd' & Hadd).
      exists set', kgv', n', added. split_and!; try done.
      intros e He. destruct (Hadd e He). split; [by right|done].
    + rewrite mergeEntry_absent by done.
      set (kgv1 := KnownGood.mk (Date_now n)
                     (KnownGood.versions kgv ++
                      [Entry.mk (Entry.version entry) (Entry.revision entry)])).
      assert (Entry.version entry ∉ Entry.version <$> KnownGood.versions kgv) as Hnew.
      { intros Hv. apply Hin. rewrite Hset. by apply elem_of_list_to_set. }
      destruct (IH ({[Entry.version entry]} ∪ set) kgv1 (S n))
        as (set' & kgv' & n' & added & Hrun & Hv & Hnd' & Hadd).
      { subst set kgv1. simpl. rewrite fmap_app, list_to_set_app_L. simpl.
        set_solver. }
      assert (∀ e, e ∈ added →
                Entry.version e ∉ Entry.version <$> KnownGood.versions kgv1)
        as Hadd1 by (intros e He; by apply Hadd).
      subst kgv1. simpl in Hv, Hadd1.
      exists set', kgv', n', (entry :: added). split_and!; try done.
      * rewrite Hv, <- app_assoc. simpl. by destruct entry.
      * rewrite fmap_cons. apply NoDup_cons. split; [|done].
        intros (e & Heq & He)%list_elem_of_fmap. apply (Hadd1 e He).
        rewrite fmap_app, <- Heq. set_solver.
      * intros e [->|He]%elem_of_cons.
        -- split; [by left|done].
        -- destruct (Hadd e He) as [He1 _]. split; [by right|].
           specialize (Hadd1 e He). rewrite fmap_app in Hadd1. set_solver.
Qed.

End MergerFacts.

(** C2: [updateKnownGoodVersions] returns a catalog whose entries are the
    old ones and, once each, channel entries whose version the old catalog
    did not hold; so the versions of the catalog it returns are pairwise
    different when those of the catalog it read were.  When being older is
    a strict total order on the versions at hand, the catalog it returns is
    in ascending order. *)
Theorem catalog_unique_and_sorted
    (Date_now : nat → string) (isOlderVersion : string → string → bool)
    (knownGoodVersions : KnownGood.t) (lastKnownGoodVersions : LastKnownGood.t)
    (n : nat) :
  ∃ result n' added,
    updateKnownGoodVersions Date_now isOlderVersion knownGoodVersions
      lastKnownGoodVersions n = Some (result, n') ∧
    KnownGood.versions result ≡ₚ KnownGood.versions knownGoodVersions ++ added ∧
    NoDup (Entry.version <$> added) ∧
    (∀ e, e ∈ added →
       e ∈ Object_values (LastKnownGood.channels lastKnownGoodVersions) ∧
       Entry.version e ∉ Entry.version <$> KnownGood.versions knownGoodVersions) ∧
    (NoDup (Entry.version <$> KnownGood.versions knownGoodVersions) →
     NoDup (Entry.version <$> KnownGood.versions result)) ∧
    (StrictTotalOn isOlderVersion
       ((Entry.version <$> KnownGood.versions knownGoodVersions) ++
        (Entry.version <$>
           Object_values (LastKnownGood.channels lastKnownGoodVersions))) →
     StronglySorted
       (λ a b, isOlderVersion (Entry.version b) (Entry.version a) = false)
       (KnownGood.versions result)).
Proof.
  destruct (merge_loop Date_now isOlderVersion
              (Object_values (LastKnownGood.channels lastKnownGoodVersions))
              (list_to_set
                 (Entry.version <$> KnownGood.versions knownGoodVersions))
              knownGoodVersions n eq_refl)
    as (set' & kgv' & n' & added & Hrun & Hv & Hnd' & Hadd).
  exists (KnownGood.mk (KnownGood.timestamp kgv')
            (Array_sort (compareFn isOlderVersion) (KnownGood.versions kgv'))),
    n', added.
  split_and!.
  - unfold updateKnownGoodVersions, Run_bind. by rewrite Hrun.
  - simpl. by rewrite Array_sort_perm, Hv.
  - done.
  - done.
  - intros Hnd. simpl.
    rewrite (fmap_Permutation _ _ _ (Array_sort_perm _ _)), Hv, fmap_app.
    apply NoDup_app. split_and!; [done| |done].
    intros v Hold (e & -> & He)%list_elem_of_fmap. by apply (Hadd e He).
  - intros Hsto. simpl. eapply Array_sort_sorted; [by apply older_order|].
    rewrite Hv, fmap_app. intros v [Hold|Hnew]%elem_of_app.
    + apply elem_of_app. by left.
    + apply elem_of_app. right.
      apply list_elem_of_fmap in Hnew as (e & -> & He).
      apply list_elem_of_fmap. exists e. split; [done|]. by apply Hadd.
Qed.

Lemma catalog_unique_and_sorted_witness :
  NoDup (Entry.version <$> KnownGood.versions knownGood_merged) ∧
  StronglySorted
    (λ a b, SpecModel.isOlderVersion (Entry.version b) (Entry.version a) = false)
    (KnownGood.versions knownGood_merged).
Proof.
  destruct (catalog_unique_and_sorted clock_example SpecModel.isOlderVersion
              knownGood_example lastKnownGood_reconciled 2)
    as (result & n' & added & Hrun & _ & _ & _ & Hunique & Hsorted).
  assert (result = knownGood_merged) as ->.
  { vm_compute in Hrun. by injection Hrun as <- _. }
  split.
  - apply Hunique. apply (bool_decide_unpack _). vm_compute. exact I.
  - apply Hsorted. apply strictTotalOnb_sound. vm_compute. reflexivity.
Defined.

Example updateKnownGoodVersions_example :
  updateKnownGoodVersions clock_example SpecModel.isOlderVersion
    knownGood_example lastKnownGood_reconciled 2 = Some (knownGood_merged, 5).
Proof. vm_compute. reflexivity. Qed.

(** ** The Milestone Index Updater *)

Lemma lookup_setProperty {A} (k k' : string) (v : A) (o : gmap string A) :
  setProperty k v o !! k' =
    if bool_decide (k' = k ∧ k ≠ "__proto__") then Some v else o !! k'.
Proof.
  unfold setProperty. case_bool_decide as Hproto.
  - rewrite bool_decide_eq_false_2; [done|]. by intros [_ ?].
  - destruct (decide (k' = k)) as [->|Hne].
    + rewrite bool_decide_eq_true_2 by done. apply lookup_insert_eq.
    + rewrite bool_decide_eq_false_2 by (by intros [? _]).
      by apply lookup_insert_ne.
Qed.

Section MilestoneFacts.
Variable Date_now : nat → string.
Variable older : string → string → bool.
Variable versions : list string.
Hypothesis older_order : StrictOrderOn older versions.
Implicit Types (ms : gmap string Milestone.t) (cd : Entry.t)
  (cds : list Entry.t) (old new : Milestone.t).

Local Abbreviation stored := (storedIn versions).
Local Abbreviation newer := (advanced older).

Lemma advanced_trans e1 e2 e3 :
  Milestone.version e1 ∈ versions → Milestone.version e2 ∈ versions →
  Milestone.version e3 ∈ versions →
  newer e1 e2 → newer e2 e3 → newer e1 e3.
Proof using older_order.
  intros H1 H2 H3 [->|H12] [->|H23]; [by left|by right|by right|].
  right. by apply (older_trans _ _ older_order _ (Milestone.version e2)).
Qed.

Lemma advanced_not_older old new :
  Milestone.version old ∈ versions → Milestone.version new ∈ versions →
  newer old new →
  older (Milestone.version new) (Milestone.version old) = false.
Proof using older_order.
  intros Ho Hn [->|Hadv].
  - by apply (older_irrefl _ _ older_order).
  - by eapply older_asym.
Qed.

Lemma updateMilestone_storedIn flag ms cd :
  stored ms → Entry.version cd ∈ versions →
  stored (updateMilestone older (flag, ms) cd).2.
Proof.
  intros Hst Hv m e. unfold updateMilestone.
  destruct (ms !! milestoneOf (Entry.version cd)) as [current|] eqn:Hcur.
  - destruct (older _ _); simpl; [|apply Hst].
    destruct (decide (milestoneOf (Entry.version cd) = m)) as [<-|Hne].
    + rewrite lookup_insert_eq. by intros [= <-].
    + rewrite lookup_insert_ne by done. apply Hst.
  - simpl. rewrite lookup_setProperty. case_bool_decide.
    + by intros [= <-].
    + apply Hst.
Qed.

Lemma updateMilestone_advanced flag ms cd m old :
  ms !! m = Some old →
  ∃ new, (updateMilestone older (flag, ms) cd).2 !! m = Some new ∧
         newer old new.
Proof.
  intros Hold. unfold updateMilestone.
  destruct (decide (milestoneOf (Entry.version cd) = m)) as [->|Hne].
  - rewrite Hold. destruct (older _ _) eqn:Holder; simpl.
    + rewrite lookup_insert_eq. eexists. split; [done|]. by right.
    + exists old. split; [done|]. by left.
  - destruct (ms !! milestoneOf (Entry.version cd)) as [current|].
    + destruct (older _ _); simpl.
      * rewrite lookup_insert_ne by done. exists old. split; [done|by left].
      * exists old. split; [done|by left].
    + simpl. rewrite lookup_setProperty.
      rewrite bool_decide_eq_false_2 by (intros [? _]; congruence).
      exists old. split; [done|by left].
Qed.

Lemma foldl_updateMilestone cds flag ms :
  stored ms →
  (∀ cd, cd ∈ cds → Entry.version cd ∈ versions) →
  stored (foldl (updateMilestone older) (flag, ms) cds).2 ∧
  ∀ m old, ms !! m = Some old →
    ∃ new, (foldl (updateMilestone older) (flag, ms) cds).2 !! m = Some new ∧
           newer old new.
Proof using older_order.
  revert flag ms. induction cds as [|cd cds IH]; intros flag ms Hst Hcds.
  - split; [done|]. intros m old Hold. exists old. split; [done|by left].
  - cbn [foldl].
    destruct (updateMilestone older (flag, ms) cd) as [flag1 ms1] eqn:Hstep.
    assert (stored ms1) as Hst1.
    { replace ms1 with (updateMilestone older (flag, ms) cd).2 by by rewrite Hstep.
      apply updateMilestone_storedIn; [done|]. apply Hcds. by left. }
    destruct (IH flag1 ms1 Hst1) as [Hst' Hadv'].
    { intros cd' Hin. apply Hcds. by right. }
    split; [done|]. intros m old Hold.
    destruct (updateMilestone_advanced flag ms cd m old Hold) as (mid & Hmid & Hadv1).
    rewrite Hstep in Hmid. simpl in Hmid.
    destruct (Hadv' m mid Hmid) as (new & Hnew & Hadv2).
    exists new. split; [done|].
    apply (advanced_trans old mid new);
      [by eapply Hst|by eapply Hst1|by eapply Hst'|done..].
Qed.

Lemma updateLatestVersionsPerMilestone_advanced doc lkg n :
  stored (PerMilestone.milestones doc) →
  (∀ cd, cd ∈ Object_values (LastKnownGood.channels lkg) →
     Entry.version cd ∈ versions) →
  ∃ doc' n',
    updateLatestVersionsPerMilestone Date_now older doc lkg n = Some (doc', n') ∧
    stored (PerMilestone.milestones doc') ∧
    ∀ m old, PerMilestone.milestones doc !! m = Some old →
      ∃ new, PerMilestone.milestones doc' !! m = Some new ∧ newer old new.
Proof using older_order.
  intros Hst Hcds.
  destruct (foldl_updateMilestone _ false _ Hst Hcds) as [Hst' Hadv].
  unfold updateLatestVersionsPerMilestone.
  destruct (foldl _ _ _) as [[] ms'] eqn:Hfold; simpl in *.
  - eexists _, _. split; [done|]. by split.
  - eexists _, _. split; [done|]. by split.
Qed.

Lemma successiveMilestoneRuns_advanced snapshots doc n :
  stored (PerMilestone.milestones doc) →
  (∀ lkg cd, lkg ∈ snapshots →
     cd ∈ Object_values (LastKnownGood.channels lkg) →
     Entry.version cd ∈ versions) →
  ∃ doc' n',
    successiveMilestoneRuns Date_now older doc snapshots n = Some (doc', n') ∧
    stored (PerMilestone.milestones doc') ∧
    ∀ m old, PerMilestone.milestones doc !! m = Some old →
      ∃ new, PerMilestone.milestones doc' !! m = Some new ∧ newer old new.
Proof using older_order.
  revert doc n. induction snapshots as [|lkg snapshots IH]; intros doc n Hst Hin.
  - exists doc, n. split_and!; [done..|]. intros m old Hold. exists old.
    split; [done|by left].
  - destruct (updateLatestVersionsPerMilestone_advanced doc lkg n Hst)
      as (doc1 & n1 & Hrun1 & Hst1 & Hadv1).
    { intros cd. apply Hin. by left. }
    destruct (IH doc1 n1 Hst1) as (doc' & n' & Hrun & Hst' & Hadv).
    { intros lkg' cd' Hl. apply Hin. by right. }
    exists doc', n'. split_and!; [|done|].
    { simpl. unfold Run_bind. by rewrite Hrun1. }
    intros m old Hold.
    destruct (Hadv1 m old Hold) as (mid & Hmid & Hadv_mid).
    destruct (Hadv m mid Hmid) as (new & Hnew & Hadv_new).
    exists new. split; [done|].
    apply (advanced_trans old mid new);
      [by eapply Hst|by eapply Hst1|by eapply Hst'|done..].
Qed.

End MilestoneFacts.

Section MilestoneLoop.
Variable older : string → string → bool.
Implicit Types (ms : gmap string Milestone.t) (cd : Entry.t)
  (cds : list Entry.t) (flag : bool).

Local Abbreviation stepM := (updateMilestone older).

(** One iteration leaves flag and milestones as they are; or it raises the
    flag on an assignment to [milestones.__proto__], which adds no key; or
    it raises the flag and writes the entry of the channel's milestone. *)
Lemma updateMilestone_cases flag ms cd :
  stepM (flag, ms) cd = (flag, ms) ∨
  (stepM (flag, ms) cd = (true, ms) ∧
   ms !! milestoneOf (Entry.version cd) = None ∧
   milestoneOf (Entry.version cd) = "__proto__") ∨
  (stepM (flag, ms) cd).1 = true ∧
  ∃ entry,
    (stepM (flag, ms) cd).2
      = <[milestoneOf (Entry.version cd) := entry]> ms ∧
    Milestone.version entry = Entry.version cd ∧
    Milestone.revision entry = Entry.revision cd ∧
    match ms !! milestoneOf (Entry.version cd) with
    | Some current =>
        Milestone.milestone entry = Milestone.milestone current ∧
        older (Milestone.version current) (Entry.version cd) = true
    | None =>
        Milestone.milestone entry = milestoneOf (Entry.version cd) ∧
        milestoneOf (Entry.version cd) ≠ "__proto__"
    end.
Proof.
  unfold updateMilestone.
  destruct (ms !! milestoneOf (Entry.version cd)) as [current|] eqn:Hcur.
  - destruct (older _ _) eqn:Holder; [right; right|by left].
    split; [done|].
    exists (Milestone.mk (Milestone.milestone current) (Entry.version cd)
              (Entry.revision cd)).
    simpl. by split_and!.
  - right. unfold setProperty. case_bool_decide as Hproto; [by left|right].
    split; [done|].
    exists (Milestone.mk (milestoneOf (Entry.version cd)) (Entry.version cd)
              (Entry.revision cd)).
    simpl. by split_and!.
Qed.

Lemma foldl_updateMilestone_cons flag ms cd cds :
  foldl stepM (flag, ms) (cd :: cds)
  = foldl stepM ((stepM (flag, ms) cd).1, (stepM (flag, ms) cd).2) cds.
Proof. cbn [foldl]. by destruct (stepM (flag, ms) cd). Qed.

Lemma foldl_flag_raised ms cds : (foldl stepM (true, ms) cds).1 = true.
Proof.
  revert ms. induction cds as [|cd cds IH]; intros ms; [done|].
  rewrite foldl_updateMilestone_cons.
  destruct (updateMilestone_cases true ms cd) as [->|[[-> _]|[-> _]]];
    apply IH.
Qed.

(** When the flag is down after the loop, nothing was changed. *)
Lemma foldl_flag_down flag ms cds :
  (foldl stepM (flag, ms) cds).1 = false →
  flag = false ∧ (foldl stepM (flag, ms) cds).2 = ms.
Proof.
  revert flag ms. induction cds as [|cd cds IH]; intros flag ms; [done|].
  rewrite foldl_updateMilestone_cons.
  destruct (updateMilestone_cases flag ms cd) as [->|[[-> _]|[Hraised _]]].
  - apply IH.
  - cbn [fst snd]. by rewrite foldl_flag_raised.
  - rewrite Hraised. by rewrite foldl_flag_raised.
Qed.

Lemma updateMilestone_dom flag ms cd :
  dom (stepM (flag, ms) cd).2
  = dom ms ∪ ({[milestoneOf (Entry.version cd)]} ∖ {["__proto__"]}).
Proof.
  destruct (updateMilestone_cases flag ms cd)
    as [Hsame|[(Hsame & _ & Hproto)|(_ & e & Hms1 & _ & _ & Hcur)]].
  - rewrite Hsame. cbn [snd].
    destruct (ms !! milestoneOf (Entry.version cd)) as [current|] eqn:Hcur.
    + apply elem_of_dom_2 in Hcur. set_solver.
    + unfold updateMilestone in Hsame. rewrite Hcur in Hsame.
      unfold setProperty in Hsame. case_bool_decide as Hproto; [set_solver|].
      injection Hsame as _ Hms.
      apply (f_equal (λ m, m !! milestoneOf (Entry.version cd))) in Hms.
      by rewrite lookup_insert_eq, Hcur in Hms.
  - rewrite Hsame. cbn [snd]. set_solver.
  - rewrite Hms1, dom_insert_L.
    destruct (ms !! milestoneOf (Entry.version cd)) as [current|] eqn:Hlook.
    + apply elem_of_dom_2 in Hlook. set_solver.
    + destruct Hcur as [_ Hproto]. set_solver.
Qed.

Lemma foldl_updateMilestone_dom flag ms cds :
  dom (foldl stepM (flag, ms) cds).2
  = dom ms
    ∪ (list_to_set ((λ cd, milestoneOf (Entry.version cd)) <$> cds)
       ∖ {["__proto__"]}).
Proof.
  revert flag ms. induction cds as [|cd cds IH]; intros flag ms.
  - simpl. set_solver.
  - rewrite foldl_updateMilestone_cons, IH, updateMilestone_dom, fmap_cons,
      list_to_set_cons.
    set_solver.
Qed.

Lemma foldl_updateMilestone_wellKeyed flag ms cds :
  wellKeyed ms → wellKeyed (foldl stepM (flag, ms) cds).2.
Proof.
  revert flag ms. induction cds as [|cd cds IH]; intros flag ms Hwk; [done|].
  rewrite foldl_updateMilestone_cons. apply IH.
  destruct (updateMilestone_cases flag ms cd)
    as [->|[[-> _]|(_ & e & Hms1 & Hv & _ & Hm)]]; [done..|].
  rewrite Hms1.
  apply map_Forall_insert_2; [|done]. rewrite Hv. split; [|done].
  destruct (ms !! milestoneOf (Entry.version cd)) as [current|] eqn:Hcur;
    [|by destruct Hm].
  destruct Hm as [-> _]. by apply (Hwk _ _ Hcur).
Qed.

(** Where an entry of the result comes from: it is the entry there was, or
    it carries the version and the revision of a channel with this
    milestone, under the [milestone] property the key had, or has got. *)
Lemma foldl_updateMilestone_provenance flag ms cds m new :
  (foldl stepM (flag, ms) cds).2 !! m = Some new →
  ms !! m = Some new ∨
  ∃ cd, cd ∈ cds ∧ milestoneOf (Entry.version cd) = m ∧
        Milestone.version new = Entry.version cd ∧
        Milestone.revision new = Entry.revision cd ∧
        Milestone.milestone new =
          match ms !! m with
          | Some old => Milestone.milestone old
          | None => m
          end.
Proof.
  revert flag ms. induction cds as [|cd cds IH]; intros flag ms; [by left|].
  rewrite foldl_updateMilestone_cons. intros Hnew.
  destruct (IH _ _ Hnew) as [Hstep|(cd' & Hin & Hm & Hv & Hr & Hk)].
  - destruct (updateMilestone_cases flag ms cd)
      as [Hsame|[(Hsame & _)|(_ & e & Hms1 & Hve & Hre & Hcur)]].
    + rewrite Hsame in Hstep. by left.
    + rewrite Hsame in Hstep. by left.
    + rewrite Hms1 in Hstep.
      destruct (decide (milestoneOf (Entry.version cd) = m)) as [Heq|Hne].
      * rewrite Heq, lookup_insert_eq in Hstep. injection Hstep as ->.
        right. exists cd. rewrite <- Heq. split_and!; [by left|done..|].
        destruct (ms !! milestoneOf (Entry.version cd)); by destruct Hcur.
      * rewrite lookup_insert_ne in Hstep by done. by left.
  - right. exists cd'. split_and!; [by right|done..|].
    rewrite Hk.
    destruct (updateMilestone_cases flag ms cd)
      as [Hsame|[(Hsame & _)|(_ & e & Hms1 & _ & _ & Hcur)]].
    + by rewrite Hsame.
    + by rewrite Hsame.
    + rewrite Hms1.
      destruct (decide (milestoneOf (Entry.version cd) = m)) as [Heq|Hne].
      * rewrite Heq in Hcur. rewrite Heq, lookup_insert_eq.
        destruct (ms !! m); by destruct Hcur.
      * by rewrite lookup_insert_ne.
Qed.

Section Ordered.
Variable versions : list string.
Hypothesis older_order : StrictOrderOn older versions.

(** After the loop the entry of a channel's milestone is not older than the
    channel's version. *)
Lemma foldl_updateMilestone_covers flag ms cds :
  storedIn versions ms →
  (∀ cd, cd ∈ cds → Entry.version cd ∈ versions) →
  ∀ cd, cd ∈ cds → milestoneOf (Entry.version cd) ≠ "__proto__" →
    ∃ entry,
      (foldl stepM (flag, ms) cds).2 !! milestoneOf (Entry.version cd)
        = Some entry ∧
      older (Milestone.version entry) (Entry.version cd) = false.
Proof using older_order.
  revert flag ms.
  induction cds as [|cd0 cds IH]; intros flag ms Hst Hcds cd Hin Hproto.
  { by apply elem_of_nil in Hin. }
  rewrite foldl_updateMilestone_cons.
  assert (Entry.version cd0 ∈ versions) as Hv0 by (apply Hcds; by left).
  pose proof (updateMilestone_storedIn older versions flag ms cd0 Hst Hv0) as Hst1.
  assert (∀ cd, cd ∈ cds → Entry.version cd ∈ versions) as Hcds'
    by (intros ? ?; apply Hcds; by right).
  apply elem_of_cons in Hin as [->|Hin]; [|by apply IH].
  assert (∃ e1, (stepM (flag, ms) cd0).2 !! milestoneOf (Entry.version cd0)
                  = Some e1 ∧
                older (Milestone.version e1) (Entry.version cd0) = false)
    as (e1 & He1 & Hnot).
  { unfold updateMilestone.
    destruct (ms !! milestoneOf (Entry.version cd0)) as [current|] eqn:Hcur.
    - destruct (older _ _) eqn:Holder; simpl.
      + rewrite lookup_insert_eq. eexists. split; [done|]. simpl.
        by apply (older_irrefl _ _ older_order).
      + by exists current.
    - simpl. rewrite lookup_setProperty, bool_decide_eq_true_2 by done.
      eexists. split; [done|]. simpl.
      by apply (older_irrefl _ _ older_order). }
  destruct (foldl_updateMilestone older versions older_order cds
              (stepM (flag, ms) cd0).1 _ Hst1 Hcds')
    as [Hst' Hadv].
  destruct (Hadv _ _ He1) as (new & Hnew & Hadvanced).
  exists new. split; [done|].
  destruct Hadvanced as [->|Holder]; [done|].
  destruct (older (Milestone.version new) (Entry.version cd0)) eqn:Hcontra;
    [|done].
  rewrite <- Hnot. symmetry.
  apply (older_trans _ _ older_order _ (Milestone.version new)); try done.
  - by eapply Hst1.
  - by eapply Hst'.
Qed.

(** When no channel has the milestone [__proto__], a raised flag tells a
    change: some key is new, or holds a strictly newer version. *)
Lemma foldl_updateMilestone_changed flag ms cds :
  storedIn versions ms →
  (∀ cd, cd ∈ cds → Entry.version cd ∈ versions) →
  (∀ cd, cd ∈ cds → milestoneOf (Entry.version cd) ≠ "__proto__") →
  (foldl stepM (flag, ms) cds).1 = true →
  flag = true ∨ (foldl stepM (flag, ms) cds).2 ≠ ms.
Proof using older_order.
  revert flag ms.
  induction cds as [|cd cds IH]; intros flag ms Hst Hcds Hproto.
  { simpl. by left. }
  rewrite foldl_updateMilestone_cons.
  assert (Entry.version cd ∈ versions) as Hv by (apply Hcds; by left).
  pose proof (updateMilestone_storedIn older versions flag ms cd Hst Hv) as Hst1.
  assert (∀ cd, cd ∈ cds → Entry.version cd ∈ versions) as Hcds'
    by (intros ? ?; apply Hcds; by right).
  assert (∀ cd, cd ∈ cds → milestoneOf (Entry.version cd) ≠ "__proto__")
    as Hproto' by (intros ? ?; apply Hproto; by right).
  destruct (updateMilestone_cases flag ms cd)
    as [Hsame|[(_ & _ & Habsurd)|(_ & e & Hms1 & Hve & _ & Hcur)]].
  { rewrite Hsame. by apply IH. }
  { destruct (Hproto cd); [by left|done]. }
  intros _. right.
  destruct (foldl_updateMilestone older versions older_order cds
              (stepM (flag, ms) cd).1 _ Hst1 Hcds')
    as [Hst' Hadv].
  assert ((stepM (flag, ms) cd).2 !! milestoneOf (Entry.version cd) = Some e)
    as He by (rewrite Hms1; apply lookup_insert_eq).
  destruct (Hadv _ _ He) as (new & Hnew & Hadvanced).
  intros Heq. rewrite Heq in Hnew.
  rewrite Hnew in Hcur. destruct Hcur as [_ Holder]. rewrite <- Hve in Holder.
  assert (Milestone.version new ∈ versions) as Hnv by by eapply Hst.
  assert (Milestone.version e ∈ versions) as Hev by by eapply Hst1.
  destruct Hadvanced as [->|Holder'].
  - by rewrite (older_irrefl _ _ older_order) in Holder.
  - assert (older (Milestone.version new) (Milestone.version new) = true)
      as Hloop
      by by apply (older_trans _ _ older_order _ (Milestone.version e)).
    by rewrite (older_irrefl _ _ older_order) in Hloop.
Qed.

End Ordered.

(** Where every channel finds an entry that is not older than its version,
    the loop changes nothing. *)
Lemma foldl_updateMilestone_fixpoint flag ms cds :
  (∀ cd, cd ∈ cds →
     ∃ entry, ms !! milestoneOf (Entry.version cd) = Some entry ∧
              older (Milestone.version entry) (Entry.version cd) = false) →
  foldl stepM (flag, ms) cds = (flag, ms).
Proof.
  induction cds as [|cd cds IH]; intros Hall; [done|].
  rewrite foldl_updateMilestone_cons.
  assert (stepM (flag, ms) cd = (flag, ms)) as ->.
  { destruct (Hall cd) as (e & He & Hnot); [by left|].
    unfold updateMilestone. by rewrite He, Hnot. }
  apply IH. intros cd' Hin. apply Hall. by right.
Qed.

End MilestoneLoop.

Lemma updateLatestVersionsPerMilestone_inv Date_now older doc lkg n :
  let result :=
    foldl (updateMilestone older) (false, PerMilestone.milestones doc)
      (Object_values (LastKnownGood.channels lkg)) in
  ∃ doc' n',
    updateLatestVersionsPerMilestone Date_now older doc lkg n = Some (doc', n') ∧
    PerMilestone.milestones doc' = result.2 ∧
    (result.1 = false ∧ n' = n ∧
       PerMilestone.timestamp doc' = PerMilestone.timestamp doc
     ∨ result.1 = true ∧ n' = S n ∧ PerMilestone.timestamp doc' = Date_now n).
Proof.
  intros result. unfold updateLatestVersionsPerMilestone. fold result.
  destruct result as [[] ms']; eexists _, _; (split; [done|]); simpl.
  - split; [done|]. by right.
  - split; [done|]. by left.
Qed.

(** C3: when being older is irreflexive and transitive on the versions at
    hand, a run of the Milestone Index Updater returns, and
    - the entry of a milestone key there was keeps its [milestone], and is
      the entry there was or carries the version and the revision of a
      channel of this milestone, a version strictly newer than the one that
      was stored;
    - every channel is taken into account: after the run the entry of its
      milestone holds a version that is not older than the channel's (for
      the milestone [__proto__], which the assignment of line 139 does not
      add, this is not so);
    - the entry of a milestone key that was not there is
      [{milestone, version, revision}] of a channel of this milestone.
    Hence any series of runs returns, and every milestone stored before it
    is still stored after it, with the same entry or a strictly newer
    version, never an older one. *)
Theorem milestone_monotone
    (Date_now : nat → string) (isOlderVersion : string → string → bool)
    (versions : list string)
    (document : PerMilestone.t) (snapshots : list LastKnownGood.t) (n : nat) :
  StrictOrderOn isOlderVersion versions →
  map_Forall (λ _ e, Milestone.version e ∈ versions)
    (PerMilestone.milestones document) →
  Forall (λ lkg, Forall (λ cd, Entry.version cd ∈ versions)
                   (Object_values (LastKnownGood.channels lkg))) snapshots →
  (∀ data lastKnownGoodVersionsData k,
     map_Forall (λ _ e, Milestone.version e ∈ versions)
       (PerMilestone.milestones data) →
     Forall (λ cd, Entry.version cd ∈ versions)
       (Object_values (LastKnownGood.channels lastKnownGoodVersionsData)) →
     ∃ data' k',
       updateLatestVersionsPerMilestone Date_now isOlderVersion data
         lastKnownGoodVersionsData k = Some (data', k') ∧
       (∀ m old,
          PerMilestone.milestones data !! m = Some old →
          ∃ new,
            PerMilestone.milestones data' !! m = Some new ∧
            Milestone.milestone new = Milestone.milestone old ∧
            (new = old ∨
             isOlderVersion (Milestone.version old) (Milestone.version new)
               = true ∧
             ∃ cd,
               cd ∈ Object_values
                      (LastKnownGood.channels lastKnownGoodVersionsData) ∧
               milestoneOf (Entry.version cd) = m ∧
               Milestone.version new = Entry.version cd ∧
               Milestone.revision new = Entry.revision cd)) ∧
       (∀ cd,
          cd ∈ Object_values
                 (LastKnownGood.channels lastKnownGoodVersionsData) →
          milestoneOf (Entry.version cd) ≠ "__proto__" →
          ∃ entry,
            PerMilestone.milestones data' !! milestoneOf (Entry.version cd)
              = Some entry ∧
            isOlderVersion (Milestone.version entry) (Entry.version cd)
              = false) ∧
       (∀ m new,
          PerMilestone.milestones data !! m = None →
          PerMilestone.milestones data' !! m = Some new →
          ∃ cd,
            cd ∈ Object_values
                   (LastKnownGood.channels lastKnownGoodVersionsData) ∧
            milestoneOf (Entry.version cd) = m ∧
            new = Milestone.mk m (Entry.version cd) (Entry.revision cd))) ∧
  ∃ document' n',
    successiveMilestoneRuns Date_now isOlderVersion document snapshots n
      = Some (document', n') ∧
    ∀ m old, PerMilestone.milestones document !! m = Some old →
      ∃ new, PerMilestone.milestones document' !! m = Some new ∧
        (new = old ∨
         isOlderVersion (Milestone.version old) (Milestone.version new) = true) ∧
        isOlderVersion (Milestone.version new) (Milestone.version old) = false.
Proof.
  intros Horder Hstored Hincoming. split.
  - intros data lkg k Hdata Hlkg. rewrite Forall_forall in Hlkg.
    destruct (updateLatestVersionsPerMilestone_inv Date_now isOlderVersion
                data lkg k) as (data' & k' & Hrun & Hms & _).
    exists data', k'. split; [done|]. rewrite Hms.
    destruct (foldl_updateMilestone isOlderVersion versions Horder
                (Object_values (LastKnownGood.channels lkg)) false
                (PerMilestone.milestones data) Hdata Hlkg) as [_ Hadv].
    split_and!.
    + intros m old Hold. destruct (Hadv m old Hold) as (new & Hnew & Hnewer).
      exists new. split; [done|].
      destruct (foldl_updateMilestone_provenance _ _ _ _ _ _ Hnew)
        as [Hsame|(cd & Hin & Hm & Hv & Hr & Hk)].
      * assert (new = old) as -> by congruence. split; [done|by left].
      * rewrite Hold in Hk. split; [done|].
        destruct Hnewer as [->|Holder]; [by left|right].
        split; [done|]. by exists cd.
    + intros cd Hin Hproto.
      by apply (foldl_updateMilestone_covers isOlderVersion versions Horder).
    + intros m new Hnone Hnew.
      destruct (foldl_updateMilestone_provenance _ _ _ _ _ _ Hnew)
        as [Hsame|(cd & Hin & Hm & Hv & Hr & Hk)]; [congruence|].
      exists cd. split_and!; [done..|].
      rewrite Hnone in Hk. destruct new. simpl in *. congruence.
  - destruct (successiveMilestoneRuns_advanced Date_now isOlderVersion versions
                Horder snapshots document n Hstored)
      as (document' & n' & Hrun & Hstored' & Hadv).
    { intros lkg cd Hlkg Hcd. rewrite Forall_forall in Hincoming.
      specialize (Hincoming lkg Hlkg). rewrite Forall_forall in Hincoming.
      by apply Hincoming. }
    exists document', n'. split; [done|]. intros m old Hold.
    destruct (Hadv m old Hold) as (new & Hnew & Hadvanced).
    exists new. split_and!; [done..|].
    apply (advanced_not_older isOlderVersion versions Horder);
      [by eapply Hstored|by eapply Hstored'|done].
Qed.

Lemma milestone_monotone_witness :
  ∃ document' n',
    successiveMilestoneRuns clock_example SpecModel.isOlderVersion
      perMilestone_example [lastKnownGood_reconciled; lastKnownGood_example] 2
      = Some (document', n') ∧
    ∀ m old, PerMilestone.milestones perMilestone_example !! m = Some old →
      ∃ new, PerMilestone.milestones document' !! m = Some new ∧
        (new = old ∨
         SpecModel.isOlderVersion (Milestone.version old) (Milestone.version new)
           = true) ∧
        SpecModel.isOlderVersion (Milestone.version new) (Milestone.version old)
          = false.
Proof.
  refine (proj2 (milestone_monotone clock_example SpecModel.isOlderVersion
                   versions_example perMilestone_example
                   [lastKnownGood_reconciled; lastKnownGood_example] 2
                   _ _ _)).
  - apply older_order, strictTotalOnb_sound. vm_compute. reflexivity.
  - apply (bool_decide_unpack _). vm_compute. exact I.
  - apply (bool_decide_unpack _). vm_compute. exact I.
Defined.

(** A channel of the milestone [__proto__] adds no key, and the timestamp
    is a new one. *)
Example updateLatestVersionsPerMilestone_proto :
  updateLatestVersionsPerMilestone clock_example SpecModel.isOlderVersion
    perMilestone_updated
    (LastKnownGood.mk "2023-12-14T00:09:21.000Z"
       [("Stable", Entry.mk "__proto__.0.1.2" "1")]) 3
  = Some (PerMilestone.mk "2023-12-14T00:09:23.000Z"
            (PerMilestone.milestones perMilestone_updated), 4).
Proof. vm_compute. reflexivity. Qed.

Example updateLatestVersionsPerMilestone_example :
  updateLatestVersionsPerMilestone clock_example SpecModel.isOlderVersion
    perMilestone_example lastKnownGood_reconciled 2
  = Some (perMilestone_updated, 3).
Proof. vm_compute. reflexivity. Qed.

(** ** The Build-Track Reducer *)

Example re_exec_example :
  re_exec "120.0.6099.109" = Some ("120.0.6099", "109").
Proof. vm_compute. reflexivity. Qed.

Example re_exec_no_patch : re_exec "120.0.6099.x" = None.
Proof. vm_compute. reflexivity. Qed.

(** The group [build] does not reach back over a U+2028. *)
Example re_exec_line_separator :
  re_exec ("1" +:+ String (ascii_of_nat 226)
                     (String (ascii_of_nat 128)
                        (String (ascii_of_nat 168) ".5")))
  = Some ("", "5").
Proof. vm_compute. reflexivity. Qed.

(** The build prefix [__proto__] is no key of the result. *)
Example prepareLatestPatchVersionsPerBuild_proto :
  prepareLatestPatchVersionsPerBuild SpecModel.isOlderVersion
    (KnownGood.mk "2023-12-14T00:09:24.000Z" [Entry.mk "__proto__.5" "1"])
  = Some (PerBuild.mk "2023-12-14T00:09:24.000Z" ∅).
Proof. vm_compute. reflexivity. Qed.

Example prepareLatestPatchVersionsPerBuild_example :
  prepareLatestPatchVersionsPerBuild SpecModel.isOlderVersion knownGood_builds
  = Some (PerBuild.mk "2023-12-14T00:09:24.000Z"
            (<["120.0.1" := Entry.mk "120.0.1.5" "1000005"]>
               (<["121.0.2" := Entry.mk "121.0.2.1" "1000101"]> ∅))).
Proof. vm_compute. reflexivity. Qed.

Lemma find_first {A} (P : A → bool) (pre post : list A) (x : A) :
  P x = true → (∀ y, y ∈ pre → P y = false) →
  List.find P (pre ++ x :: post) = Some x.
Proof.
  intros Hx. induction pre as [|y pre IH]; intros Hpre; simpl.
  - by rewrite Hx.
  - rewrite (Hpre y) by by left. apply IH. intros z Hz. apply Hpre. by right.
Qed.

Section BuildReducerFacts.
Variable older : string → string → bool.
Implicit Types (m : gmap string Entry.t) (e cur : Entry.t)
  (l track : list Entry.t) (build : string).

Lemma reduceEntry_lookup m e m' build :
  reduceEntry older m e = Some m' →
  m' !! build =
    if bool_decide (buildPrefix (Entry.version e) = Some build)
    then keepNewer older (m !! build) e
    else m !! build.
Proof.
  unfold reduceEntry, buildPrefix.
  destruct (re_exec (Entry.version e)) as [[b patch]|]; [simpl|done].
  case_bool_decide as Hb.
  - injection Hb as ->. unfold keepNewer.
    destruct (m !! build) as [known|] eqn:Hknown.
    + destruct (older _ _); intros [= <-]; [|done]. by rewrite lookup_insert_eq.
    + intros [= <-]. by rewrite lookup_insert_eq.
  - assert (b ≠ build) by congruence.
    destruct (m !! b) as [known|] eqn:Hknown.
    + destruct (older _ _); intros [= <-]; [|done]. by rewrite lookup_insert_ne.
    + intros [= <-]. by rewrite lookup_insert_ne.
Qed.

(** For each build the loop is a fold of [keepNewer] over the entries of
    that build track. *)
Lemma reduceEntries_lookup l m m' build :
  reduceEntries older m l = Some m' →
  m' !! build = foldl (keepNewer older) (m !! build) (onTrack build l).
Proof.
  revert m. induction l as [|e l IH]; intros m; simpl.
  - by intros [= <-].
  - destruct (reduceEntry older m e) as [m1|] eqn:Hstep; [|done].
    intros Hrest. rewrite (IH _ Hrest).
    rewrite (reduceEntry_lookup _ _ _ build Hstep).
    by case_bool_decide.
Qed.

Lemma reduceEntries_total l m :
  Forall (λ e, is_Some (re_exec (Entry.version e))) l →
  is_Some (reduceEntries older m l).
Proof.
  intros Hl. revert m. induction Hl as [|e l [[b patch] He] Hl IH]; intros m; simpl.
  - done.
  - unfold reduceEntry. rewrite He.
    destruct (m !! b) as [known|]; [destruct (older _ _)|]; apply IH.
Qed.

Lemma reduceEntries_throws l m e :
  e ∈ l → re_exec (Entry.version e) = None → reduceEntries older m l = None.
Proof.
  intros Hin He. revert m. induction l as [|e' l IH]; intros m; simpl.
  - by apply elem_of_nil in Hin.
  - destruct (reduceEntry older m e') as [m1|] eqn:Hstep; [|done].
    apply elem_of_cons in Hin as [<-|Hin]; [|by apply IH].
    unfold reduceEntry in Hstep. by rewrite He in Hstep.
Qed.

Section Track.
Variable versions : list string.
Hypothesis older_total_order : StrictTotalOn older versions.

Lemma older_neg_trans a b c :
  a ∈ versions → b ∈ versions → c ∈ versions →
  older a b = true → older a c = true ∨ older c b = true.
Proof using older_total_order.
  intros Ha Hb Hc Hab. destruct (decide (a = c)) as [->|Hne]; [by right|].
  destruct (older_total _ _ older_total_order a c Ha Hc Hne) as [?|Hca];
    [by left|right].
  by apply (older_trans _ _ (older_order _ _ older_total_order) c a b).
Qed.

(** The entry the fold holds is the first entry met so far that no entry
    met so far is newer than. *)
Lemma foldl_keepNewer rest pre cur post :
  Entry.version <$> (pre ++ cur :: post) ++ rest ⊆ versions →
  (∀ x, x ∈ pre → ∃ y, y ∈ pre ++ cur :: post ∧
                       older (Entry.version x) (Entry.version y) = true) →
  (∀ x, x ∈ pre ++ cur :: post →
        older (Entry.version cur) (Entry.version x) = false) →
  foldl (keepNewer older) (Some cur) rest
  = highestOf older ((pre ++ cur :: post) ++ rest).
Proof using older_total_order.
  revert pre cur post. induction rest as [|e rest IH]; intros pre cur post Hsub Hpre Hcur.
  - simpl. rewrite app_nil_r. symmetry. apply find_first.
    + apply forallb_forall. intros x Hx%list_elem_of_In.
      by rewrite Hcur.
    + intros y Hy. destruct (Hpre y Hy) as (z & Hz & Hyz).
      apply not_true_iff_false. rewrite forallb_forall. intros Hall.
      specialize (Hall z (proj1 (list_elem_of_In _ _) Hz)).
      by rewrite Hyz in Hall.
  - assert (∀ x, x ∈ (pre ++ cur :: post) ++ e :: rest →
                 Entry.version x ∈ versions) as Hin.
    { intros x Hx. apply Hsub. by apply list_elem_of_fmap_2. }
    assert (Entry.version cur ∈ versions) as Hcurv by (apply Hin; set_solver).
    assert (Entry.version e ∈ versions) as Hev by (apply Hin; set_solver).
    simpl. destruct (older (Entry.version cur) (Entry.version e)) eqn:Holder.
    + replace ((pre ++ cur :: post) ++ e :: rest)
        with (((pre ++ cur :: post) ++ e :: []) ++ rest)
        by (by rewrite <- !app_assoc).
      apply IH.
      * rewrite <- app_assoc. exact Hsub.
      * intros x Hx. exists e. split; [set_solver|].
        assert (Entry.version x ∈ versions) as Hxv by (apply Hin; set_solver).
        destruct (older_neg_trans _ _ (Entry.version x) Hcurv Hev Hxv Holder)
          as [Hcx|Hxe]; [|done].
        by rewrite Hcur in Hcx.
      * intros x [Hx|Hx]%elem_of_app.
        -- assert (Entry.version x ∈ versions) as Hxv by (apply Hin; set_solver).
           destruct (older_neg_trans _ _ (Entry.version x) Hcurv Hev Hxv Holder)
             as [Hcx|Hxe]; [by rewrite Hcur in Hcx|].
           by apply (older_asym older versions);
             [apply older_order| | |].
        -- apply list_elem_of_singleton in Hx as ->.
           by apply (older_irrefl _ _ (older_order _ _ older_total_order)).
    + assert ((pre ++ cur :: post) ++ e :: rest
              = (pre ++ cur :: (post ++ [e])) ++ rest) as Heq.
      { rewrite <- !app_assoc. simpl. by rewrite <- !app_assoc. }
      rewrite Heq in *. apply IH.
      * exact Hsub.
      * intros x Hx. destruct (Hpre x Hx) as (y & Hy & Hxy).
        exists y. split; [set_solver|done].
      * intros x Hx.
        assert (x ∈ pre ++ cur :: post ∨ x = e) as [Hx'|Hxe] by set_solver;
          [by apply Hcur|by subst x].
Qed.

Lemma foldl_keepNewer_highest track :
  Entry.version <$> track ⊆ versions →
  foldl (keepNewer older) None track = highestOf older track.
Proof using older_total_order.
  destruct track as [|e track]; [done|]. intros Hsub. simpl.
  apply (foldl_keepNewer track [] e []).
  - done.
  - intros x Hx. by apply elem_of_nil in Hx.
  - intros x Hx. apply list_elem_of_singleton in Hx as ->.
    apply (older_irrefl _ _ (older_order _ _ older_total_order)).
    apply Hsub. set_solver.
Qed.

End Track.
End BuildReducerFacts.

Lemma isDigit_not_dot c : isDigit c = true → Ascii.eqb c "."%char = false.
Proof.
  intros Hd. destruct (Ascii.eqb_spec c "."%char) as [->|]; [|done].
  by vm_compute in Hd.
Qed.

Lemma isDigit_not_lineTerminator c :
  isDigit c = true → isLineTerminator c = false.
Proof.
  unfold isDigit, isLineTerminator. intros [H1 H2]%andb_true_iff.
  apply Nat.leb_le in H1. apply orb_false_iff.
  split; apply Nat.eqb_neq; lia.
Qed.

Lemma isDigit_not_atLineTerminator c s :
  isDigit c = true → atLineTerminator (String c s) = false.
Proof.
  intros Hc. unfold atLineTerminator.
  rewrite (isDigit_not_lineTerminator c Hc). cbn [orb].
  destruct s as [|c2 [|c3 s]]; [done..|].
  unfold isLineSeparator. unfold isDigit in Hc.
  apply andb_true_iff in Hc as [_ Hc]. apply Nat.leb_le in Hc.
  assert ((nat_of_ascii c =? 226) = false) as -> by (apply Nat.eqb_neq; lia).
  done.
Qed.

(** Whether a character of [build] is a line terminator does not depend on
    the [.patch] that follows [build]. *)
Lemma atLineTerminator_before_dot c build patch :
  atLineTerminator (String c (build +:+ "." +:+ patch))
  = atLineTerminator (String c build).
Proof.
  unfold atLineTerminator. f_equal.
  destruct build as [|c2 [|c3 build]].
  - change ("" +:+ "." +:+ patch) with (String "." patch).
    destruct patch as [|c3 patch]; [done|].
    unfold isLineSeparator.
    by rewrite (andb_comm (nat_of_ascii c =? 226)), andb_false_l.
  - change (String c2 "" +:+ "." +:+ patch) with (String c2 (String "." patch)).
    unfold isLineSeparator. by rewrite andb_false_r.
  - done.
Qed.

Lemma matchHere_digits s : allDigits s = true → matchHere s = None.
Proof.
  induction s as [|c s IH]; [done|]. cbn [allDigits matchHere].
  intros [Hc Hs]%andb_true_iff.
  by rewrite (isDigit_not_atLineTerminator c s Hc), (IH Hs),
    (isDigit_not_dot c Hc).
Qed.

Lemma digitsToEnd_allDigits s : digitsToEnd s = true → allDigits s = true.
Proof. by destruct s. Qed.

Lemma append_associative (a b c : string) :
  (a +:+ b) +:+ c = a +:+ b +:+ c.
Proof.
  induction a as [|x a IH]; [done|].
  change (String x ((a +:+ b) +:+ c) = String x (a +:+ b +:+ c)).
  by rewrite IH.
Qed.

Lemma matchHere_unfold c rest :
  matchHere (String c rest) =
    match (if atLineTerminator (String c rest) then None
           else matchHere rest) with
    | Some (build, patch) => Some (String c build, patch)
    | None =>
        if Ascii.eqb c "."%char && digitsToEnd rest then
          Some (EmptyString, rest)
        else None
    end.
Proof. done. Qed.

Lemma matchHere_sound s build patch :
  matchHere s = Some (build, patch) →
  s = build +:+ "." +:+ patch ∧
  noLineTerminator build = true ∧ digitsToEnd patch = true.
Proof.
  revert build. induction s as [|c rest IH]; intros build; [done|].
  rewrite matchHere_unfold.
  destruct (atLineTerminator (String c rest)) eqn:Hlt.
  - destruct (Ascii.eqb_spec c "."%char) as [->|]; [|done]. cbn [andb].
    destruct (digitsToEnd rest) eqn:Hd; [|done]. by intros [= <- <-].
  - destruct (matchHere rest) as [[build' patch']|] eqn:Hrest.
    + intros [= <- <-]. destruct (IH _ eq_refl) as (-> & Hb & Hp).
      split_and!; [done| |done]. cbn [noLineTerminator].
      rewrite atLineTerminator_before_dot in Hlt. by rewrite Hlt, Hb.
    + destruct (Ascii.eqb_spec c "."%char) as [->|]; [|done]. cbn [andb].
      destruct (digitsToEnd rest) eqn:Hd; [|done]. by intros [= <- <-].
Qed.

Lemma matchHere_build_patch build patch :
  noLineTerminator build = true → digitsToEnd patch = true →
  matchHere (build +:+ "." +:+ patch) = Some (build, patch).
Proof.
  intros Hbuild Hpatch. induction build as [|c build IH].
  - change ("" +:+ "." +:+ patch) with (String "." patch).
    rewrite matchHere_unfold.
    rewrite (matchHere_digits patch) by by apply digitsToEnd_allDigits.
    rewrite Hpatch. by destruct (atLineTerminator _).
  - cbn [noLineTerminator] in Hbuild.
    apply andb_true_iff in Hbuild as [Hc Hbuild]. apply negb_true_iff in Hc.
    change (String c build +:+ "." +:+ patch)
      with (String c (build +:+ "." +:+ patch)).
    rewrite matchHere_unfold, atLineTerminator_before_dot, Hc.
    by rewrite (IH Hbuild).
Qed.

Lemma re_exec_unfold s :
  re_exec s =
    match matchHere s with
    | Some groups => Some groups
    | None =>
        match s with
        | EmptyString => None
        | String c1 rest =>
            match rest with
            | String c2 (String c3 rest') =>
                if isLineSeparator c1 c2 c3 then re_exec rest'
                else re_exec rest
            | _ => re_exec rest
            end
        end
    end.
Proof. by destruct s. Qed.

(** Induction along the positions [re_exec] tries. *)
Lemma string_skip_ind (P : string → Prop) :
  P EmptyString →
  (∀ c s, P s →
          (∀ c2 c3 s', s = String c2 (String c3 s') → P s') →
          P (String c s)) →
  ∀ s, P s.
Proof.
  intros Hempty Hstep s.
  enough (P s ∧ ∀ c2 c3 s', s = String c2 (String c3 s') → P s')
    as [? _] by done.
  enough (P s ∧ ∀ c s', s = String c s' →
                  P s' ∧ ∀ c3 s'', s' = String c3 s'' → P s'') as [Hs Htail].
  { split; [done|]. intros c2 c3 s' ->.
    destruct (Htail c2 _ eq_refl) as [_ Htail']. by eapply Htail'. }
  induction s as [|c s [IHs IHtail]].
  - split; [done|]. by intros.
  - assert (P (String c s)) as Hcs.
    { apply Hstep; [done|]. intros c2 c3 s' ->.
      destruct (IHtail c2 _ eq_refl) as [_ H]. by eapply H. }
    split; [done|]. intros c' s' [= <- <-]. split; [done|].
    intros c3 s'' ->. by destruct (IHtail c3 _ eq_refl).
Qed.

Lemma re_exec_sound s build patch :
  re_exec s = Some (build, patch) →
  noLineTerminator build = true ∧ digitsToEnd patch = true ∧
  ∃ skipped, s = skipped +:+ build +:+ "." +:+ patch.
Proof.
  induction s as [|c rest IH IHskip] using string_skip_ind;
    rewrite re_exec_unfold.
  - done.
  - destruct (matchHere (String c rest)) as [[b p]|] eqn:Hm.
    + intros [= -> ->]. destruct (matchHere_sound _ _ _ Hm) as (Hs & Hb & Hp).
      split_and!; [done..|]. by exists "".
    + assert (re_exec rest = Some (build, patch) →
              noLineTerminator build = true ∧ digitsToEnd patch = true ∧
              ∃ skipped, String c rest = skipped +:+ build +:+ "." +:+ patch)
        as Hrest.
      { intros Hrest. destruct (IH Hrest) as (Hb & Hp & skipped & ->).
        split_and!; [done..|]. by exists (String c skipped). }
      destruct rest as [|c2 [|c3 rest']]; [done..|].
      destruct (isLineSeparator c c2 c3); [|done].
      intros Hskip.
      destruct (IHskip c2 c3 rest' eq_refl Hskip) as (Hb & Hp & skipped & ->).
      split_and!; [done..|].
      by exists (String c (String c2 (String c3 skipped))).
Qed.

(** On one line the match starts at the first character. *)
Lemma re_exec_one_line s :
  noLineTerminator s = true → re_exec s = matchHere s.
Proof.
  induction s as [|c rest IH]; [done|]. cbn [noLineTerminator].
  intros [Hc Hrest]%andb_true_iff. apply negb_true_iff in Hc.
  rewrite re_exec_unfold.
  destruct (matchHere (String c rest)) as [groups|] eqn:Hm; [done|].
  rewrite matchHere_unfold, Hc in Hm.
  assert (re_exec rest = None) as Hnone.
  { rewrite (IH Hrest). by destruct (matchHere rest) as [[b p]|]. }
  destruct rest as [|c2 [|c3 rest']]; [done..|].
  unfold atLineTerminator in Hc. apply orb_false_iff in Hc as [_ ->]. done.
Qed.

(** A string that ends in a dot and a numeral is matched, whatever comes
    before. *)
Lemma re_exec_ends before patch :
  digitsToEnd patch = true → is_Some (re_exec (before +:+ "." +:+ patch)).
Proof.
  intros Hpatch.
  induction before as [|c before IH IHskip] using string_skip_ind.
  - change ("" +:+ "." +:+ patch) with ("" +:+ "." +:+ patch).
    rewrite re_exec_unfold, (matchHere_build_patch "" patch) by done. done.
  - change (String c before +:+ "." +:+ patch)
      with (String c (before +:+ "." +:+ patch)).
    rewrite re_exec_unfold.
    destruct (matchHere _) as [groups|]; [done|].
    destruct before as [|c2 [|c3 before']].
    + change ("" +:+ "." +:+ patch) with (String "." patch) in *.
      destruct patch as [|c3 patch]; [done|].
      unfold isLineSeparator.
      by rewrite (andb_comm (nat_of_ascii c =? 226)), andb_false_l.
    + change (String c2 "" +:+ "." +:+ patch)
        with (String c2 (String "." patch)) in *.
      unfold isLineSeparator. by rewrite andb_false_r.
    + change (String c2 (String c3 before') +:+ "." +:+ patch)
        with (String c2 (String c3 (before' +:+ "." +:+ patch))) in *.
      cbv beta iota. destruct (isLineSeparator c c2 c3); [|done].
      by eapply IHskip.
Qed.

(** A string [build.patch], where [patch] is a numeral and [build] is on
    one line, is split at its last dot. *)
Lemma re_exec_build_patch build patch :
  noLineTerminator build = true → digitsToEnd patch = true →
  re_exec (build +:+ "." +:+ patch) = Some (build, patch).
Proof.
  intros Hbuild Hpatch.
  by rewrite re_exec_unfold, matchHere_build_patch.
Qed.

Lemma onTrack_nil build l :
  Forall (λ entry, buildPrefix (Entry.version entry) ≠ Some build) l →
  onTrack build l = [].
Proof.
  unfold onTrack. induction 1 as [|e l He _ IH]; [done|]. cbn [List.filter].
  by rewrite bool_decide_eq_false_2.
Qed.

(** C5: when every version of the catalog ends in a dot and a numeral, no
    build prefix is [__proto__] (which the assignment of line 176 does not
    add to the result), and being older is a strict total order on the
    versions of the catalog, the Build-Track Reducer returns, under the
    timestamp of the catalog, the map that sends each build prefix to the
    first entry of its build track that no entry of the track is newer
    than, and has no other key; the build prefix of [build.patch] is
    [build]; the catalog of "120.0.1.1", "120.0.1.5" and "121.0.2.1" gives
    "120.0.1" with "120.0.1.5" and "121.0.2" with "121.0.2.1"; and the
    reducer throws on a catalog with a version that does not end in a dot
    and a numeral. *)
Theorem build_track_reduction (isOlderVersion : string → string → bool) :
  (∀ knownGoodVersions,
     StrictTotalOn isOlderVersion
       (Entry.version <$> KnownGood.versions knownGoodVersions) →
     Forall (λ entry, is_Some (buildPrefix (Entry.version entry)))
       (KnownGood.versions knownGoodVersions) →
     Forall (λ entry, buildPrefix (Entry.version entry) ≠ Some "__proto__")
       (KnownGood.versions knownGoodVersions) →
     ∃ result,
       prepareLatestPatchVersionsPerBuild isOlderVersion knownGoodVersions
         = Some result ∧
       PerBuild.timestamp result = KnownGood.timestamp knownGoodVersions ∧
       ∀ build,
         PerBuild.builds result !! build =
         latestPatchOf isOlderVersion build (KnownGood.versions knownGoodVersions)) ∧
  (∀ build patch,
     noLineTerminator build = true → digitsToEnd patch = true →
     buildPrefix (build +:+ "." +:+ patch) = Some build) ∧
  (isOlderVersion "120.0.1.1" "120.0.1.5" = true →
   ∀ timestamp r1 r2 r3,
     prepareLatestPatchVersionsPerBuild isOlderVersion
       (KnownGood.mk timestamp
          [Entry.mk "120.0.1.1" r1; Entry.mk "120.0.1.5" r2;
           Entry.mk "121.0.2.1" r3])
     = Some (PerBuild.mk timestamp
               (<["121.0.2" := Entry.mk "121.0.2.1" r3]>
                  (<["120.0.1" := Entry.mk "120.0.1.5" r2]> ∅)))) ∧
  (∀ knownGoodVersions entry,
     entry ∈ KnownGood.versions knownGoodVersions →
     buildPrefix (Entry.version entry) = None →
     prepareLatestPatchVersionsPerBuild isOlderVersion knownGoodVersions = None).
Proof.
  split_and!.
  - intros kgv Horder Hmatch Hproto.
    destruct (reduceEntries_total isOlderVersion (KnownGood.versions kgv) ∅)
      as [map Hmap].
    { eapply Forall_impl; [exact Hmatch|]. intros e [b Hb]. unfold buildPrefix in Hb.
      destruct (re_exec (Entry.version e)); [done|discriminate Hb]. }
    exists (PerBuild.mk (KnownGood.timestamp kgv) (delete "__proto__" map)).
    split_and!.
    + unfold prepareLatestPatchVersionsPerBuild. by rewrite Hmap.
    + done.
    + intros build. simpl.
      destruct (decide (build = "__proto__")) as [->|Hne].
      { rewrite lookup_delete_eq. unfold latestPatchOf.
        by rewrite (onTrack_nil _ _ Hproto). }
      rewrite lookup_delete_ne by done.
      rewrite (reduceEntries_lookup _ _ _ _ build Hmap), lookup_empty.
      apply (foldl_keepNewer_highest isOlderVersion _ Horder).
      unfold onTrack. intros v (e & -> & He%list_elem_of_In%filter_In)%list_elem_of_fmap.
      apply list_elem_of_fmap_2, list_elem_of_In, He.
  - intros build patch Hbuild Hpatch. unfold buildPrefix.
    by rewrite re_exec_build_patch.
  - intros Holder timestamp r1 r2 r3.
    unfold prepareLatestPatchVersionsPerBuild. simpl KnownGood.versions.
    assert (re_exec "120.0.1.1" = Some ("120.0.1", "1")) as H1
      by (vm_compute; reflexivity).
    assert (re_exec "120.0.1.5" = Some ("120.0.1", "5")) as H2
      by (vm_compute; reflexivity).
    assert (re_exec "121.0.2.1" = Some ("121.0.2", "1")) as H3
      by (vm_compute; reflexivity).
    cbn [reduceEntries]. unfold reduceEntry. cbn [Entry.version].
    rewrite H1, lookup_empty. cbn [reduceEntries].
    rewrite H2, lookup_insert_eq. cbn [Entry.version]. rewrite Holder.
    rewrite H3, lookup_insert_ne, lookup_insert_ne, lookup_empty by done.
    rewrite insert_insert_eq. cbn [KnownGood.timestamp]. do 2 f_equal.
  - intros kgv entry Hin Hnone. unfold prepareLatestPatchVersionsPerBuild.
    rewrite (reduceEntries_throws isOlderVersion _ ∅ entry Hin); [done|].
    unfold buildPrefix in Hnone. by destruct (re_exec (Entry.version entry)).
Qed.

Lemma build_track_reduction_witness :
  (∃ result,
     prepareLatestPatchVersionsPerBuild SpecModel.isOlderVersion knownGood_merged
       = Some result ∧
     PerBuild.timestamp result = KnownGood.timestamp knownGood_merged ∧
     ∀ build,
       PerBuild.builds result !! build =
       latestPatchOf SpecModel.isOlderVersion build
         (KnownGood.versions knownGood_merged)) ∧
  buildPrefix ("120.0.6099" +:+ "." +:+ "109") = Some "120.0.6099" ∧
  prepareLatestPatchVersionsPerBuild SpecModel.isOlderVersion
    (KnownGood.mk "2023-12-14T00:09:24.000Z"
       [Entry.mk "120.0.1.1" "1000001"; Entry.mk "120.0.1.5" "1000005";
        Entry.mk "121.0.2.1" "1000101"])
  = Some (PerBuild.mk "2023-12-14T00:09:24.000Z"
            (<["121.0.2" := Entry.mk "121.0.2.1" "1000101"]>
               (<["120.0.1" := Entry.mk "120.0.1.5" "1000005"]> ∅))).
Proof.
  split_and!.
  - apply (proj1 (build_track_reduction SpecModel.isOlderVersion)).
    + apply strictTotalOnb_sound. vm_compute. reflexivity.
    + apply (bool_decide_unpack _). vm_compute. exact I.
    + apply (bool_decide_unpack _). vm_compute. exact I.
  - apply (proj1 (proj2 (build_track_reduction SpecModel.isOlderVersion)));
      vm_compute; reflexivity.
  - apply (proj1 (proj2 (proj2
             (build_track_reduction SpecModel.isOlderVersion)))).
    vm_compute. reflexivity.
Defined.

(** ** The Download Matrix Expander *)

Section ExpanderFacts.
Variable binaries : list string.
Variable platforms : list string.
Variable makeDownloadUrl : string → option string → string → string.
Variable predatesChromeDriverAvailability : string → bool.
Variable predatesChromeHeadlessShellAvailability : string → bool.

Local Abbreviation addBinary' :=
  (addBinary platforms makeDownloadUrl predatesChromeDriverAvailability
     predatesChromeHeadlessShellAvailability).
Local Abbreviation downloadsFor' :=
  (downloadsFor binaries platforms makeDownloadUrl
     predatesChromeDriverAvailability predatesChromeHeadlessShellAvailability).
Local Abbreviation expanded' :=
  (expanded binaries platforms makeDownloadUrl
     predatesChromeDriverAvailability predatesChromeHeadlessShellAvailability).
Local Abbreviation expandRecord' :=
  (expandRecord binaries platforms makeDownloadUrl
     predatesChromeDriverAvailability predatesChromeHeadlessShellAvailability).
Local Abbreviation expandRecords' :=
  (expandRecords binaries platforms makeDownloadUrl
     predatesChromeDriverAvailability predatesChromeHeadlessShellAvailability).

(** *** The [downloads] object *)

(** A key the loop never assigns is not in the result. *)
Lemma downloadsFor_skipped version name :
  (∀ downloads binary,
     binary = name → addBinary' version downloads binary = downloads) →
  downloadsFor' version !! name = None.
Proof.
  intros Hskip. unfold downloadsFor.
  enough (∀ downloads, downloads !! name = None →
            foldl (addBinary' version) downloads binaries !! name = None)
    as H by (apply H, lookup_empty).
  induction binaries as [|binary bs IH]; intros downloads Hnone; simpl; [done|].
  apply IH. destruct (decide (binary = name)) as [->|Hne].
  - by rewrite Hskip.
  - unfold addBinary. repeat case_match; try done; by rewrite lookup_insert_ne.
Qed.

Lemma downloadsFor_mojojs version : downloadsFor' version !! "mojojs" = None.
Proof.
  apply downloadsFor_skipped. intros downloads binary ->. unfold addBinary.
  rewrite (bool_decide_eq_true_2 ("mojojs" = "mojojs")) by done.
  by repeat case_match.
Qed.

Lemma downloadsFor_chromedriver version :
  predatesChromeDriverAvailability version = true →
  downloadsFor' version !! "chromedriver" = None.
Proof.
  intros Hpre. apply downloadsFor_skipped. intros downloads binary ->.
  unfold addBinary. rewrite Hpre.
  by rewrite (bool_decide_eq_true_2 ("chromedriver" = "chromedriver")).
Qed.

Lemma downloadsFor_chrome_headless_shell version :
  predatesChromeHeadlessShellAvailability version = true →
  downloadsFor' version !! "chrome-headless-shell" = None.
Proof.
  intros Hpre. apply downloadsFor_skipped. intros downloads binary ->.
  unfold addBinary. rewrite Hpre.
  rewrite (bool_decide_eq_true_2
             ("chrome-headless-shell" = "chrome-headless-shell")) by done.
  by repeat case_match.
Qed.

End ExpanderFacts.

(** *** The copy *)

Section CloneFacts.
Variable source : Heap.
Implicit Types (heap : Heap) (memory : gmap nat nat)
  (state : gmap nat nat * Heap) (address copy : nat).

Lemma memberCopy_mono heap heap' address copy :
  heap `prefix_of` heap' →
  memberCopy source heap address copy → memberCopy source heap' address copy.
Proof.
  intros Hpre (Hfresh & Hlt & Hkind). split_and!; [done| |].
  - apply prefix_length in Hpre. lia.
  - destruct Hkind as [(r & Hs & Hc)|(ms & ms' & Hs & Hc)]; [left|right].
    + exists r. eauto using prefix_lookup_Some.
    + exists ms, ms'. eauto using prefix_lookup_Some.
Qed.

Lemma collectionCopy_mono heap heap' address copy :
  heap `prefix_of` heap' →
  collectionCopy source heap address copy →
  collectionCopy source heap' address copy.
Proof.
  intros Hpre (Hfresh & Hlt & Hkind). split_and!; [done| |].
  - apply prefix_length in Hpre. lia.
  - destruct Hkind as [(r & Hs & Hc)|(ms & ms' & Hs & Hc & Hms)]; [left|right].
    + exists r. eauto using prefix_lookup_Some.
    + exists ms, ms'. split_and!; eauto using prefix_lookup_Some.
      eapply List.Forall2_impl; [|exact Hms].
      intros kv kv' [Hk Hm]. eauto using memberCopy_mono.
Qed.

Lemma collectionCopy_member heap address copy :
  collectionCopy source heap address copy → memberCopy source heap address copy.
Proof.
  intros (Hfresh & Hlt & Hkind). split_and!; [done..|].
  destruct Hkind as [(r & Hs & Hc)|(ms & ms' & Hs & Hc & _)]; eauto 6.
Qed.

Lemma cloning_extend memory heap address release :
  cloning source (memory, heap) →
  source !! address = Some (Record_ release) →
  cloning source
    (<[address := length heap]> memory, heap ++ [Record_ release]).
Proof.
  intros [Hpre Hmem] Hsrc. simpl in *. split; simpl.
  - by apply prefix_app_r.
  - intros a c. destruct (decide (address = a)) as [<-|Hne].
    + rewrite lookup_insert_eq. intros [= <-]. split_and!.
      * by apply prefix_length.
      * rewrite length_app. simpl. lia.
      * left. exists release. split; [done|]. by apply list_lookup_middle.
    + rewrite lookup_insert_ne by done. intros Hc.
      eapply collectionCopy_mono; [|by apply Hmem]. by apply prefix_app_r.
Qed.

Lemma cloneRecord_spec state address copy state' :
  cloning source state →
  cloneRecord source state address = Some (copy, state') →
  cloning source state' ∧ state.2 `prefix_of` state'.2 ∧
  memberCopy source state'.2 address copy.
Proof.
  destruct state as [memory heap]. intros Hinv. unfold cloneRecord.
  destruct (memory !! address) as [c|] eqn:Hmem.
  - intros [= <- <-]. split_and!; [done..|].
    apply collectionCopy_member. by apply Hinv.
  - destruct (source !! address) as [[| |release]|] eqn:Hsrc; try done.
    intros [= <- <-]. simpl. split_and!.
    + by apply cloning_extend.
    + by apply prefix_app_r.
    + destruct Hinv as [Hpre _]. simpl in Hpre. split_and!.
      * by apply prefix_length.
      * rewrite length_app. simpl. lia.
      * left. exists release. split; [done|]. by apply list_lookup_middle.
Qed.

Lemma cloneMembers_spec members state copies state' :
  cloning source state →
  cloneMembers source state members = Some (copies, state') →
  cloning source state' ∧ state.2 `prefix_of` state'.2 ∧
  Forall2 (λ kv kv', kv.1 = kv'.1 ∧ memberCopy source state'.2 kv.2 kv'.2)
    members copies.
Proof.
  revert state copies. induction members as [|[key address] members IH];
    intros state copies Hinv; simpl.
  - intros [= <- <-]. split_and!; [done..|constructor].
  - destruct (cloneRecord source state address) as [[copy state1]|] eqn:Hrec;
      [|done].
    destruct (cloneMembers source state1 members) as [[copies' state2]|] eqn:Hrest;
      [|done].
    intros [= <- <-].
    destruct (cloneRecord_spec _ _ _ _ Hinv Hrec) as (Hinv1 & Hpre1 & Hcopy).
    destruct (IH _ _ Hinv1 Hrest) as (Hinv2 & Hpre2 & Hcopies).
    split_and!; [done|by etrans|]. constructor; [|done].
    split; [done|]. simpl. by eapply memberCopy_mono.
Qed.

Lemma cloneCollection_spec state address copy state' :
  cloning source state →
  cloneCollection source state address = Some (copy, state') →
  cloning source state' ∧ state.2 `prefix_of` state'.2 ∧
  collectionCopy source state'.2 address copy.
Proof.
  destruct state as [memory heap]. intros Hinv. unfold cloneCollection.
  destruct (memory !! address) as [c|] eqn:Hmem.
  - intros [= <- <-]. split_and!; [done..|]. by apply Hinv.
  - destruct (source !! address) as [[|members|]|] eqn:Hsrc; try done.
    destruct (cloneMembers source (memory, heap) members)
      as [[copies [memory1 heap1]]|] eqn:Hms; [|done].
    intros [= <- <-]. simpl.
    destruct (cloneMembers_spec _ _ _ _ Hinv Hms) as (Hinv1 & Hpre1 & Hcopies).
    simpl in *.
    assert (collectionCopy source (heap1 ++ [Collection copies]) address
              (length heap1)) as Hcopy.
    { destruct Hinv1 as [Hpre _]. simpl in Hpre. split_and!.
      - by apply prefix_length.
      - rewrite length_app. simpl. lia.
      - right. exists members, copies. split_and!; [done| |].
        + by apply list_lookup_middle.
        + eapply List.Forall2_impl; [|exact Hcopies].
          intros kv kv' [Hk Hm]. split; [done|].
          eapply memberCopy_mono; [|done]. by apply prefix_app_r. }
    split_and!; [|by apply prefix_app_r|done].
    destruct Hinv1 as [Hpre Hmem1]. split; simpl in *.
    + by apply prefix_app_r.
    + intros a c. destruct (decide (address = a)) as [<-|Hne].
      * rewrite lookup_insert_eq. by intros [= <-].
      * rewrite lookup_insert_ne by done. intros Hc.
        eapply collectionCopy_mono; [|by apply Hmem1]. by apply prefix_app_r.
Qed.

Lemma cloneCollections_spec collections state copies state' :
  cloning source state →
  cloneCollections source state collections = Some (copies, state') →
  cloning source state' ∧ state.2 `prefix_of` state'.2 ∧
  Forall2 (λ kv kv', kv.1 = kv'.1 ∧ collectionCopy source state'.2 kv.2 kv'.2)
    collections copies.
Proof.
  revert state copies. induction collections as [|[key address] collections IH];
    intros state copies Hinv; simpl.
  - intros [= <- <-]. split_and!; [done..|constructor].
  - destruct (cloneCollection source state address) as [[copy state1]|] eqn:Hcol;
      [|done].
    destruct (cloneCollections source state1 collections)
      as [[copies' state2]|] eqn:Hrest; [|done].
    intros [= <- <-].
    destruct (cloneCollection_spec _ _ _ _ Hinv Hcol) as (Hinv1 & Hpre1 & Hcopy).
    destruct (IH _ _ Hinv1 Hrest) as (Hinv2 & Hpre2 & Hcopies).
    split_and!; [done|by etrans|]. constructor; [|done].
    split; [done|]. simpl. by eapply collectionCopy_mono.
Qed.

(** The copy is a new document with the timestamp and the keys of the
    original, the heap only grows. *)
Lemma structuredClone_spec data copy heap' :
  structuredClone source data = Some (copy, heap') →
  ∃ timestamp collections copies,
    source !! data = Some (Document timestamp collections) ∧
    heap' !! copy = Some (Document timestamp copies) ∧
    source `prefix_of` heap' ∧ length source ≤ copy ∧
    Forall2 (λ kv kv', kv.1 = kv'.1 ∧ collectionCopy source heap' kv.2 kv'.2)
      collections copies.
Proof.
  unfold structuredClone.
  destruct (source !! data) as [[timestamp collections| |]|] eqn:Hdata; try done.
  destruct (cloneCollections source (∅, source) collections)
    as [[copies [memory1 heap1]]|] eqn:Hcols; [|done].
  intros [= <- <-].
  assert (cloning source (∅, source)) as Hinv0.
  { split; [done|]. intros a c. simpl. by rewrite lookup_empty. }
  destruct (cloneCollections_spec _ _ _ _ Hinv0 Hcols) as (_ & Hpre & Hcopies).
  simpl in *. exists timestamp, collections, copies. split_and!.
  - done.
  - by apply list_lookup_middle.
  - by apply prefix_app_r.
  - by apply prefix_length.
  - eapply List.Forall2_impl; [|exact Hcopies].
    intros kv kv' [Hk Hc]. split; [done|].
    eapply collectionCopy_mono; [|done]. by apply prefix_app_r.
Qed.

Lemma cloneRecord_total state address :
  is_Some (recordAt source address) →
  is_Some (cloneRecord source state address).
Proof.
  destruct state as [memory heap]. intros [release Hr]. unfold cloneRecord.
  destruct (memory !! address); [done|]. unfold recordAt in Hr.
  by destruct (source !! address) as [[| |]|].
Qed.

Lemma cloneMembers_total members state :
  Forall (λ member, is_Some (recordAt source member)) (Object_values members) →
  is_Some (cloneMembers source state members).
Proof.
  unfold Object_values. revert state.
  induction members as [|[key address] members IH]; intros state; simpl; [done|].
  intros [Hhead Htail]%Forall_cons.
  destruct (cloneRecord_total state address Hhead) as [[copy state1] ->].
  by destruct (IH state1 Htail) as [[copies state2] ->].
Qed.

Lemma cloneCollection_total state address members :
  source !! address = Some (Collection members) →
  Forall (λ member, is_Some (recordAt source member)) (Object_values members) →
  is_Some (cloneCollection source state address).
Proof.
  destruct state as [memory heap]. intros Hsrc Hms. unfold cloneCollection.
  destruct (memory !! address); [done|]. rewrite Hsrc.
  by destruct (cloneMembers_total members (memory, heap) Hms)
    as [[copies [memory1 heap1]] ->].
Qed.

Lemma cloneCollections_total collections state :
  Forall (λ collection,
            ∃ members,
              source !! collection = Some (Collection members) ∧
              Forall (λ member, is_Some (recordAt source member))
                (Object_values members))
    (Object_values collections) →
  is_Some (cloneCollections source state collections).
Proof.
  unfold Object_values at 1. revert state.
  induction collections as [|[key address] collections IH]; intros state; simpl;
    [done|].
  intros [(members & Hsrc & Hms) Htail]%Forall_cons.
  destruct (cloneCollection_total state address members Hsrc Hms)
    as [[copy state1] ->].
  by destruct (IH state1 Htail) as [[copies state2] ->].
Qed.

Lemma structuredClone_total data :
  registryAt source data → is_Some (structuredClone source data).
Proof.
  intros (timestamp & collections & Hdata & Hcols). unfold structuredClone.
  rewrite Hdata.
  by destruct (cloneCollections_total collections (∅, source) Hcols)
    as [[copies [memory1 heap1]] ->].
Qed.

End CloneFacts.

Lemma get_Forall2 {A B} (R : A → B → Prop) (o : Object A) (o' : Object B) key :
  Forall2 (λ kv kv', kv.1 = kv'.1 ∧ R kv.2 kv'.2) o o' →
  match get key o, get key o' with
  | Some v, Some v' => R v v'
  | None, None => True
  | _, _ => False
  end.
Proof.
  induction 1 as [|[k v] [k' v'] o o' [Hk HR] _ IH]; simpl; [done|].
  simpl in Hk. subst k'. by destruct (decide (k = key)).
Qed.

Lemma Forall2_and_r {A B} (R : A → B → Prop) (Q : B → Prop) l k :
  Forall2 R l k → Forall Q k → Forall2 (λ x y, R x y ∧ Q y) l k.
Proof.
  induction 1 as [|x y l k HR _ IH]; [constructor|].
  intros [HQ Hk]%Forall_cons. constructor; [done|]. by apply IH.
Qed.

(** *** The expansion of the copy *)

Lemma recordAt_insert_ne (heap : Heap) (l a : nat) (object : HeapObject) :
  l ≠ a → recordAt (<[l := object]> heap) a = recordAt heap a.
Proof. intros Hne. unfold recordAt. by rewrite list_lookup_insert_ne. Qed.

Lemma recordAt_insert_eq (heap : Heap) (l : nat) (release : Release.t) :
  l < length heap →
  recordAt (<[l := Record_ release]> heap) l = Some release.
Proof. intros Hlt. unfold recordAt. by rewrite list_lookup_insert_eq. Qed.

Section AddDownloadsFacts.
Variable binaries : list string.
Variable platforms : list string.
Variable makeDownloadUrl : string → option string → string → string.
Variable predatesChromeDriverAvailability : string → bool.
Variable predatesChromeHeadlessShellAvailability : string → bool.

Local Abbreviation expanded' :=
  (expanded binaries platforms makeDownloadUrl
     predatesChromeDriverAvailability predatesChromeHeadlessShellAvailability).
Local Abbreviation expandRecord' :=
  (expandRecord binaries platforms makeDownloadUrl
     predatesChromeDriverAvailability predatesChromeHeadlessShellAvailability).
Local Abbreviation expandRecords' :=
  (expandRecords binaries platforms makeDownloadUrl
     predatesChromeDriverAvailability predatesChromeHeadlessShellAvailability).
Local Abbreviation addDownloads' :=
  (addDownloads binaries platforms makeDownloadUrl
     predatesChromeDriverAvailability predatesChromeHeadlessShellAvailability).

Lemma expandRecord_inv (heap heap' : Heap) (address : nat) :
  expandRecord' heap address = Some heap' →
  ∃ release,
    heap !! address = Some (Record_ release) ∧
    heap' = <[address := Record_ (expanded' release)]> heap.
Proof.
  unfold expandRecord.
  destruct (heap !! address) as [[| |release]|]; try done.
  intros [= <-]. by exists release.
Qed.

Lemma expandRecords_spec (values : list nat) (heap heap' : Heap) :
  expandRecords' heap values = Some heap' →
  (∀ a, a ∉ values → heap' !! a = heap !! a) ∧
  (∀ a, recordAt heap a = None → heap' !! a = heap !! a) ∧
  (∀ a, a ∈ values →
     ∃ release, heap !! a = Some (Record_ release) ∧
                heap' !! a = Some (Record_ (expanded' release))).
Proof.
  revert heap. induction values as [|l values IH]; intros heap; simpl.
  - intros [= <-]. split_and!; [done..|]. intros a Ha. by apply elem_of_nil in Ha.
  - destruct (expandRecord' heap l) as [heap1|] eqn:Hstep; [|done].
    intros Hrest. destruct (IH _ Hrest) as (Hout & Hkind & Hin).
    apply expandRecord_inv in Hstep as (release & Hl & ->).
    assert (l < length heap) as Hlt by by eapply lookup_lt_Some.
    split_and!.
    + intros a [Hne Ha]%not_elem_of_cons.
      rewrite Hout by done. apply list_lookup_insert_ne. congruence.
    + intros a Ha. assert (l ≠ a) as Hne.
      { intros ->. unfold recordAt in Ha. by rewrite Hl in Ha. }
      rewrite Hkind.
      * by apply list_lookup_insert_ne.
      * by rewrite recordAt_insert_ne.
    + intros a Ha. destruct (decide (a ∈ values)) as [Hvs|Hvs].
      * destruct (Hin a Hvs) as (r1 & Hr1 & Hr1').
        destruct (decide (a = l)) as [->|Hne].
        -- rewrite list_lookup_insert_eq in Hr1 by done.
           injection Hr1 as <-. by exists release.
        -- rewrite list_lookup_insert_ne in Hr1 by congruence. by exists r1.
      * apply elem_of_cons in Ha as [->|Ha]; [|done].
        exists release. split; [done|].
        rewrite Hout by done. by apply list_lookup_insert_eq.
Qed.

Lemma expandRecords_total (values : list nat) (heap : Heap) :
  (∀ a, a ∈ values → is_Some (recordAt heap a)) →
  is_Some (expandRecords' heap values).
Proof.
  revert heap. induction values as [|l values IH]; intros heap Hall; simpl.
  - done.
  - destruct (Hall l) as [release Hl]; [by left|].
    unfold recordAt in Hl. unfold expandRecord.
    destruct (heap !! l) as [[| |release']|] eqn:Hheap; try done.
    apply IH. intros a Ha. destruct (decide (a = l)) as [->|Hne].
    + rewrite recordAt_insert_eq; [done|]. by eapply lookup_lt_Some.
    + rewrite recordAt_insert_ne by congruence. apply Hall. by right.
Qed.

Lemma mapM_recordAt_copies (source heap : Heap) (members copies : Object nat) :
  Forall2 (λ kv kv',
             ∃ release, recordAt source kv.2 = Some release ∧
                        recordAt heap kv'.2 = Some (expanded' release))
    members copies →
  ∃ releases : list Release.t,
    mapM (recordAt source) (Object_values members) = Some releases ∧
    mapM (recordAt heap) (Object_values copies) = Some (expanded' <$> releases).
Proof.
  induction 1 as [|[k a] [k' c] members copies (release & Hs & Hc) _ IH].
  - by exists [].
  - destruct IH as (releases & Hms & Hcs). exists (release :: releases).
    unfold Object_values in *. rewrite !fmap_cons.
    split; apply mapM_Some_2; (constructor; [done|]); by apply mapM_Some_1.
Qed.

(** What a call of [addDownloads] that returns has done. *)
Lemma addDownloads_spec (heap : Heap) (data : nat) (key : string)
    (copy : nat) (heap' : Heap) :
  addDownloads' heap data key = Some (copy, heap') →
  (∀ a object, heap !! a = Some object → heap' !! a = Some object) ∧
  length heap ≤ copy ∧
  (key ≠ "timestamp" →
   ∃ releases : list Release.t,
     recordsAt heap data key = Some releases ∧
     recordsAt heap' copy key = Some (expanded' <$> releases)).
Proof.
  unfold addDownloads.
  destruct (structuredClone heap data) as [[copy1 heap1]|] eqn:Hclone; [|done].
  destruct (structuredClone_spec _ _ _ _ Hclone)
    as (timestamp & collections & copies & Hdata & Hcopy & Hpre & Hfresh & Hcols).
  rewrite Hcopy. case_bool_decide as Hkey.
  { case_bool_decide; [|done]. intros [= <- <-].
    split_and!; [|done..]. intros a object Ha. by eapply prefix_lookup_Some. }
  pose proof (get_Forall2 _ _ _ key Hcols) as Hget.
  destruct (get key copies) as [collection'|] eqn:Hget'; [|done].
  destruct (get key collections) as [collection|] eqn:Hgetc; [|done].
  destruct (heap1 !! collection') as [[|members'|]|] eqn:Hcollection'; try done.
  destruct (expandRecords' heap1 (Object_values members')) as [heap2|] eqn:Hexp;
    [|done].
  intros [= <- <-].
  destruct (expandRecords_spec _ _ _ Hexp) as (Hout & Hkind & Hin).
  destruct Hget as (_ & _ & [(r & _ & Hr)|(members & ms' & Hsrc & Hc & Hms)]);
    [congruence|].
  assert (ms' = members') as -> by congruence.
  split_and!; [|done|].
  - intros a object Ha. rewrite Hout; [by eapply prefix_lookup_Some|].
    intros (kv' & -> & Hkv)%list_elem_of_fmap.
    apply lookup_lt_Some in Ha.
    apply list_elem_of_lookup in Hkv as [i Hi].
    destruct (Forall2_lookup_r _ _ _ _ _ Hms Hi) as (kv & _ & _ & Hm).
    destruct Hm as [Hm _]. lia.
  - intros _. unfold recordsAt.
    rewrite Hdata, Hgetc, Hsrc.
    rewrite (Hkind copy1), Hcopy, Hget' by (unfold recordAt; by rewrite Hcopy).
    rewrite (Hkind collection'), Hcollection'
      by (unfold recordAt; by rewrite Hcollection').
    apply mapM_recordAt_copies.
    assert (Forall (λ kv', kv'.2 ∈ Object_values members') members') as Hall.
    { apply Forall_forall. intros kv' Hkv'. by apply list_elem_of_fmap_2. }
    eapply List.Forall2_impl; [|exact (Forall2_and_r _ _ _ _ Hms Hall)].
    intros kv kv' [[_ (_ & _ & Hm)] Hkv']. simpl in Hkv'.
    destruct (Hin _ Hkv') as (r1 & Hr1 & Hr1').
    destruct Hm as [(r & Hs & Hc1)|(ms & ms' & _ & Hc1)]; [|congruence].
    assert (r1 = r) as -> by congruence.
    exists r. unfold recordAt. by rewrite Hs, Hr1'.
Qed.

(** On a document read from a JSON file, and a key of it, the call
    returns. *)
Lemma addDownloads_total (heap : Heap) (data : nat) (key : string)
    timestamp collections :
  registryAt heap data →
  heap !! data = Some (Document timestamp collections) →
  key ≠ "timestamp" → is_Some (get key collections) →
  is_Some (addDownloads' heap data key).
Proof.
  intros Hreg Hdata Hkey [collection Hget].
  destruct (structuredClone_total heap data Hreg) as [[copy1 heap1] Hclone].
  destruct (structuredClone_spec _ _ _ _ Hclone)
    as (timestamp' & collections' & copies & Hdata' & Hcopy & Hpre & Hfresh & Hcols).
  assert (collections' = collections) as -> by congruence.
  destruct Hreg as (timestamp0 & collections0 & Hdata0 & Hall).
  assert (collections0 = collections) as -> by congruence.
  rewrite Forall_forall in Hall.
  destruct (Hall collection (get_elem_of _ _ _ Hget)) as (members & Hsrc & Hms).
  unfold addDownloads. rewrite Hclone, Hcopy.
  rewrite bool_decide_eq_false_2 by done.
  pose proof (get_Forall2 _ _ _ key Hcols) as Hrel. rewrite Hget in Hrel.
  destruct (get key copies) as [collection'|]; [|done].
  destruct Hrel as (_ & _ & [(r & Hr & _)|(ms & members' & Hs & Hc & Hcopies)]);
    [congruence|].
  assert (ms = members) as -> by congruence.
  rewrite Hc.
  destruct (expandRecords_total (Object_values members') heap1) as [heap2 ->];
    [|done].
  intros a (kv' & -> & Hkv)%list_elem_of_fmap.
  apply list_elem_of_lookup in Hkv as [i Hi].
  destruct (Forall2_lookup_r _ _ _ _ _ Hcopies Hi) as (kv & Hkvi & _ & Hm).
  rewrite Forall_forall in Hms.
  destruct (Hms kv.2) as [release Hrelease].
  { apply list_elem_of_fmap_2. by eapply list_elem_of_lookup_2. }
  destruct Hm as (_ & _ & [(r & Hs' & Hc')|(ms1 & ms2 & Hs' & _)]).
  - unfold recordAt. by rewrite Hc'.
  - unfold recordAt in Hrelease. by rewrite Hs' in Hrelease.
Qed.

End AddDownloadsFacts.

Lemma recordsAt_frame (heap heap' : Heap) document key releases :
  (∀ a object, heap !! a = Some object → heap' !! a = Some object) →
  recordsAt heap document key = Some releases →
  recordsAt heap' document key = Some releases.
Proof.
  intros Hframe. unfold recordsAt.
  destruct (heap !! document) as [[timestamp collections| |]|] eqn:Hdoc; try done.
  rewrite (Hframe _ _ Hdoc).
  destruct (get key collections) as [collection|]; [|done].
  destruct (heap !! collection) as [[|members|]|] eqn:Hcol; try done.
  rewrite (Hframe _ _ Hcol). intros Hms%mapM_Some_1. apply mapM_Some_2.
  eapply List.Forall2_impl; [|exact Hms].
  intros a release. unfold recordAt.
  destruct (heap !! a) as [[| |r]|] eqn:Ha; try done.
  by rewrite (Hframe _ _ Ha).
Qed.

Example addDownloads_example_copy :
  ∃ heap', addDownloads_example = Some (9, heap') ∧
    fmap (M := option) (fmap (M := list) Release.version)
      (recordsAt heap' 9 "channels")
      = Some ["113.0.5672.0"; "118.0.5993.70"; "121.0.6167.16"] ∧
    fmap (M := option)
      (fmap (M := list) (λ r, fmap (M := option) dom (Release.downloads r)))
      (recordsAt heap' 9 "channels")
      = Some [Some ({["chrome"]} : gset string);
              Some ({["chrome"; "chromedriver"]} : gset string);
              Some ({["chrome"; "chromedriver"; "chrome-headless-shell"]}
                      : gset string)].
Proof.
  eexists. split; [vm_compute; reflexivity|]. split; vm_compute; reflexivity.
Qed.

(** C6: when a call of [addDownloads] on a collection returns, the records
    of the copy are the records of the input, version by version, each with
    a [downloads] object; that object has no "chromedriver" key when the
    version predates the availability of chromedriver, and no
    "chrome-headless-shell" key when it predates that of
    chrome-headless-shell. *)
Theorem addDownloads_omits_unavailable
    (binaries platforms : list string)
    (makeDownloadUrl : string → option string → string → string)
    (predatesChromeDriverAvailability : string → bool)
    (predatesChromeHeadlessShellAvailability : string → bool)
    (heap : Heap) (data : nat) (key : string) (copy : nat) (heap' : Heap) :
  addDownloads binaries platforms makeDownloadUrl
    predatesChromeDriverAvailability predatesChromeHeadlessShellAvailability
    heap data key = Some (copy, heap') →
  key ≠ "timestamp" →
  ∃ releases releases' : list Release.t,
    recordsAt heap data key = Some releases ∧
    recordsAt heap' copy key = Some releases' ∧
    Release.version <$> releases' = Release.version <$> releases ∧
    Forall (λ release,
              ∃ downloads,
                Release.downloads release = Some downloads ∧
                (predatesChromeDriverAvailability (Release.version release)
                   = true →
                 downloads !! "chromedriver" = None) ∧
                (predatesChromeHeadlessShellAvailability
                   (Release.version release) = true →
                 downloads !! "chrome-headless-shell" = None))
      releases'.
Proof.
  intros Hcall Hkey.
  destruct (addDownloads_spec _ _ _ _ _ _ _ _ _ _ Hcall)
    as (_ & _ & Hrecords).
  destruct (Hrecords Hkey) as (releases & Hin & Hout).
  eexists releases, _. split_and!; [done..| |].
  - rewrite <- list_fmap_compose. by apply list_fmap_ext.
  - apply Forall_fmap, Forall_forall. intros release _. simpl.
    eexists. split_and!; [done| |].
    + apply downloadsFor_chromedriver.
    + apply downloadsFor_chrome_headless_shell.
Qed.

Lemma addDownloads_omits_unavailable_witness :
  ∃ releases releases' : list Release.t,
    recordsAt heap_example 0 "channels" = Some releases ∧
    recordsAt heap_expanded 9 "channels" = Some releases' ∧
    Release.version <$> releases' = Release.version <$> releases ∧
    Forall (λ release,
              ∃ downloads,
                Release.downloads release = Some downloads ∧
                (predatesChromeDriverAvailability_example
                   (Release.version release) = true →
                 downloads !! "chromedriver" = None) ∧
                (predatesChromeHeadlessShellAvailability_example
                   (Release.version release) = true →
                 downloads !! "chrome-headless-shell" = None))
      releases'.
Proof.
  apply (addDownloads_omits_unavailable binaries_example platforms_example
           makeDownloadUrl_example predatesChromeDriverAvailability_example
           predatesChromeHeadlessShellAvailability_example
           heap_example 0 "channels" 9 heap_expanded).
  - vm_compute. reflexivity.
  - apply (bool_decide_unpack _). vm_compute. exact I.
Defined.

(** C7: the [downloads] object built for a record never has the key
    "mojojs", whatever the version and the list of binaries; so, when a call
    of [addDownloads] on a collection returns, no record of the copy has
    that key in its [downloads]. *)
Theorem addDownloads_excludes_mojojs
    (binaries platforms : list string)
    (makeDownloadUrl : string → option string → string → string)
    (predatesChromeDriverAvailability : string → bool)
    (predatesChromeHeadlessShellAvailability : string → bool) :
  (∀ version,
     downloadsFor binaries platforms makeDownloadUrl
       predatesChromeDriverAvailability predatesChromeHeadlessShellAvailability
       version !! "mojojs" = None) ∧
  (∀ (heap : Heap) (data : nat) (key : string) (copy : nat) (heap' : Heap),
     addDownloads binaries platforms makeDownloadUrl
       predatesChromeDriverAvailability predatesChromeHeadlessShellAvailability
       heap data key = Some (copy, heap') →
     key ≠ "timestamp" →
     ∃ releases releases' : list Release.t,
       recordsAt heap data key = Some releases ∧
       recordsAt heap' copy key = Some releases' ∧
       Release.version <$> releases' = Release.version <$> releases ∧
       Forall (λ release,
                 ∃ downloads,
                   Release.downloads release = Some downloads ∧
                   downloads !! "mojojs" = None)
         releases').
Proof.
  split; [apply downloadsFor_mojojs|].
  intros heap data key copy heap' Hcall Hkey.
  destruct (addDownloads_spec _ _ _ _ _ _ _ _ _ _ Hcall)
    as (_ & _ & Hrecords).
  destruct (Hrecords Hkey) as (releases & Hin & Hout).
  eexists releases, _. split_and!; [done..| |].
  - rewrite <- list_fmap_compose. by apply list_fmap_ext.
  - apply Forall_fmap, Forall_forall. intros release _. simpl.
    eexists. split; [done|]. apply downloadsFor_mojojs.
Qed.

Lemma addDownloads_excludes_mojojs_witness :
  ∃ releases releases' : list Release.t,
    recordsAt heap_example 0 "channels" = Some releases ∧
    recordsAt heap_expanded 9 "channels" = Some releases' ∧
    Release.version <$> releases' = Release.version <$> releases ∧
    Forall (λ release,
              ∃ downloads,
                Release.downloads release = Some downloads ∧
                downloads !! "mojojs" = None)
      releases'.
Proof.
  apply (proj2 (addDownloads_excludes_mojojs binaries_example platforms_example
                  makeDownloadUrl_example
                  predatesChromeDriverAvailability_example
                  predatesChromeHeadlessShellAvailability_example)
           heap_example 0 "channels" 9 heap_expanded).
  - vm_compute. reflexivity.
  - apply (bool_decide_unpack _). vm_compute. exact I.
Defined.

(** C8: a call of [addDownloads] that returns leaves every object of the
    heap it was called on as it was, and returns a new document; on a
    document read from a JSON file and a key of it the call does return, the
    records of the input are then the ones they were, and the records of the
    copy are these records with their [downloads]. *)
Theorem addDownloads_leaves_input
    (binaries platforms : list string)
    (makeDownloadUrl : string → option string → string → string)
    (predatesChromeDriverAvailability : string → bool)
    (predatesChromeHeadlessShellAvailability : string → bool)
    (heap : Heap) (data : nat) (key : string) :
  (∀ copy heap',
     addDownloads binaries platforms makeDownloadUrl
       predatesChromeDriverAvailability predatesChromeHeadlessShellAvailability
       heap data key = Some (copy, heap') →
     length heap ≤ copy ∧
     ∀ a object, heap !! a = Some object → heap' !! a = Some object) ∧
  (∀ timestamp collections,
     registryAt heap data →
     heap !! data = Some (Document timestamp collections) →
     key ≠ "timestamp" → is_Some (get key collections) →
     ∃ copy heap' (releases : list Release.t),
       addDownloads binaries platforms makeDownloadUrl
         predatesChromeDriverAvailability
         predatesChromeHeadlessShellAvailability
         heap data key = Some (copy, heap') ∧
       recordsAt heap data key = Some releases ∧
       recordsAt heap' data key = Some releases ∧
       recordsAt heap' copy key =
         Some (expanded binaries platforms makeDownloadUrl
                 predatesChromeDriverAvailability
                 predatesChromeHeadlessShellAvailability <$> releases)).
Proof.
  split.
  - intros copy heap' Hcall.
    destruct (addDownloads_spec _ _ _ _ _ _ _ _ _ _ Hcall) as (Hframe & Hfresh & _).
    by split.
  - intros timestamp collections Hreg Hdata Hkey Hget.
    destruct (addDownloads_total binaries platforms makeDownloadUrl
                predatesChromeDriverAvailability
                predatesChromeHeadlessShellAvailability
                heap data key timestamp collections Hreg Hdata Hkey Hget)
      as [[copy heap'] Hcall].
    destruct (addDownloads_spec _ _ _ _ _ _ _ _ _ _ Hcall)
      as (Hframe & _ & Hrecords).
    destruct (Hrecords Hkey) as (releases & Hin & Hout).
    exists copy, heap', releases. split_and!; [done..| |done].
    by eapply recordsAt_frame.
Qed.

Lemma addDownloads_leaves_input_witness :
  (9 ≥ length heap_example ∧
   ∀ a object, heap_example !! a = Some object →
               heap_expanded !! a = Some object) ∧
  ∃ copy heap' (releases : list Release.t),
    addDownloads binaries_example platforms_example makeDownloadUrl_example
      predatesChromeDriverAvailability_example
      predatesChromeHeadlessShellAvailability_example
      heap_example 0 "channels" = Some (copy, heap') ∧
    recordsAt heap_example 0 "channels" = Some releases ∧
    recordsAt heap' 0 "channels" = Some releases ∧
    recordsAt heap' copy "channels" =
      Some (expanded binaries_example platforms_example makeDownloadUrl_example
              predatesChromeDriverAvailability_example
              predatesChromeHeadlessShellAvailability_example <$> releases).
Proof.
  pose proof (addDownloads_leaves_input binaries_example platforms_example
                makeDownloadUrl_example predatesChromeDriverAvailability_example
                predatesChromeHeadlessShellAvailability_example
                heap_example 0 "channels") as [Hframe Htotal].
  split.
  - apply Hframe. vm_compute. reflexivity.
  - apply (Htotal "2023-12-14T00:09:21.000Z" [("channels", 1)]).
    + eexists _, _. split; [reflexivity|].
      repeat constructor; eexists; (split; [reflexivity|]);
        repeat constructor; by eexists.
    + reflexivity.
    + apply (bool_decide_unpack _). vm_compute. exact I.
    + by eexists.
Defined.

(** * Further properties of the script *)

(** ** The Channel Snapshot Reconciler, continued *)

Section ReconcilerMore.
Variable Date_now : nat → string.
Implicit Types (lkg : LastKnownGood.t) (cd : Channel.t) (cds : list Channel.t).

Local Abbreviation step := (reconcileChannel Date_now).
Local Abbreviation run := (forOf (reconcileChannel Date_now)).

Lemma step_sets_entry lkg cd n lkg1 n1 :
  step lkg cd n = Some (lkg1, n1) →
  Channel.ok cd = true →
  get (Channel.channel cd) (LastKnownGood.channels lkg1)
  = Some (Entry.mk (Channel.version cd) (Channel.revision cd)).
Proof.
  intros Hstep Hok.
  destruct (step_get_same _ _ _ _ _ _ Hstep Hok) as [Hd [[v r] Hg]].
  unfold differs in Hd. rewrite Hok, Hg in Hd. simpl in Hd.
  apply negb_false_iff in Hd. unfold sameVersion in Hd. simpl in Hd.
  apply andb_true_iff in Hd as [Hv%bool_decide_eq_true Hr%bool_decide_eq_true].
  by rewrite Hg, Hv, Hr.
Qed.

Lemma run_last_observed cds lkg n lkg' n' c :
  run cds lkg n = Some (lkg', n') →
  get c (LastKnownGood.channels lkg') =
    match lastObserved c cds with
    | Some cd => Some (Entry.mk (Channel.version cd) (Channel.revision cd))
    | None => get c (LastKnownGood.channels lkg)
    end.
Proof.
  revert lkg n. induction cds as [|cd cds IH]; intros lkg n.
  - by intros [= <- <-].
  - rewrite (run_cons Date_now).
    destruct (step lkg cd n) as [[lkg1 n1]|] eqn:Hs; [|done].
    intros Hr. rewrite (IH _ _ Hr). unfold lastObserved. simpl List.filter.
    destruct (Channel.ok cd && bool_decide (Channel.channel cd = c)) eqn:Hm.
    + rewrite last_cons. destruct (last _); [done|].
      apply andb_true_iff in Hm as [Hok <-%bool_decide_eq_true].
      by eapply step_sets_entry.
    + destruct (last _); [done|].
      eapply step_get_other; [done|]. intros Hok Heq.
      by rewrite Hok, bool_decide_eq_true_2 in Hm.
Qed.

Lemma run_returns cds lkg n :
  (∀ cd, cd ∈ cds → Channel.ok cd = true →
     Channel.channel cd ∈ Object_keys (LastKnownGood.channels lkg)) →
  is_Some (run cds lkg n).
Proof.
  revert lkg n. induction cds as [|cd cds IH]; intros lkg n Hall; [done|].
  rewrite (run_cons Date_now).
  assert (is_Some (step lkg cd n)) as [[lkg1 n1] Hs].
  { unfold reconcileChannel. destruct (Channel.ok cd) eqn:Hok; [|done]. simpl.
    destruct (get _ _) as [known|] eqn:Hg.
    - by destruct (sameVersion known cd).
    - apply get_None_keys in Hg. destruct Hg. apply Hall; [by left|done]. }
  rewrite Hs. apply IH. intros cd' Hin Hok'.
  rewrite (step_keys _ _ _ _ _ _ Hs). apply Hall; [by right|done].
Qed.

End ReconcilerMore.

(** X1: after a run of the reconciler that returns, the persisted entry of
    a channel name is the (version, revision) pair of the last [ok] record
    of the snapshot that carries this name, and is the entry it was when no
    [ok] record carries the name. *)
Theorem reconciler_last_record_wins
    (Date_now : nat → string) (data : Dashboard.t)
    (lkg lkg' : LastKnownGood.t) (n n' : nat) (c : string) :
  prepareLastKnownGoodVersionsData Date_now data lkg n = Some (lkg', n') →
  get c (LastKnownGood.channels lkg') =
    match lastObserved c (Object_values (Dashboard.channels data)) with
    | Some cd => Some (Entry.mk (Channel.version cd) (Channel.revision cd))
    | None => get c (LastKnownGood.channels lkg)
    end.
Proof. apply run_last_observed. Qed.

Lemma reconciler_last_record_wins_witness :
  get "Beta" (LastKnownGood.channels lastKnownGood_reconciled)
  = Some (Entry.mk "121.0.6167.16" "1233107").
Proof.
  apply (reconciler_last_record_wins clock_example dashboard_example
           lastKnownGood_example lastKnownGood_reconciled 0 2 "Beta").
  vm_compute. reflexivity.
Defined.

(** X2: when the lookups of the [ok] names of the snapshot are lookups of
    own properties (a name that is no key of the persisted channels is none
    of the names every object inherits), the reconciler returns exactly
    when the name of every [ok] record of the snapshot is a key of the
    persisted channels. *)
Theorem reconciler_returns_iff
    (Date_now : nat → string) (data : Dashboard.t)
    (lkg : LastKnownGood.t) (n : nat) :
  Forall (λ cd, Channel.ok cd = true →
                ownLookup (Channel.channel cd) (LastKnownGood.channels lkg))
    (Object_values (Dashboard.channels data)) →
  is_Some (prepareLastKnownGoodVersionsData Date_now data lkg n) ↔
  ∀ cd, cd ∈ Object_values (Dashboard.channels data) →
        Channel.ok cd = true →
        Channel.channel cd ∈ Object_keys (LastKnownGood.channels lkg).
Proof.
  intros _. split.
  - intros [result Hrun] cd Hin Hok.
    destruct (decide (Channel.channel cd
                        ∈ Object_keys (LastKnownGood.channels lkg)))
      as [|Hmissing]; [done|].
    apply get_None_keys in Hmissing.
    unfold prepareLastKnownGoodVersionsData in Hrun.
    by rewrite (run_throws Date_now _ _ _ cd Hin Hok Hmissing) in Hrun.
  - apply run_returns.
Qed.

Lemma reconciler_returns_iff_witness :
  is_Some (prepareLastKnownGoodVersionsData clock_example dashboard_example
             lastKnownGood_example 0) ∧
  ¬ is_Some (prepareLastKnownGoodVersionsData clock_example dashboard_extended
               lastKnownGood_example 0).
Proof.
  assert (Forall (λ cd, Channel.ok cd = true →
                        ownLookup (Channel.channel cd)
                          (LastKnownGood.channels lastKnownGood_example))
            (Object_values (Dashboard.channels dashboard_example))) as Hown.
  { apply (bool_decide_unpack _). vm_compute. exact I. }
  assert (Forall (λ cd, Channel.ok cd = true →
                        ownLookup (Channel.channel cd)
                          (LastKnownGood.channels lastKnownGood_example))
            (Object_values (Dashboard.channels dashboard_extended))) as Hown'.
  { apply (bool_decide_unpack _). vm_compute. exact I. }
  split.
  - apply (proj2 (reconciler_returns_iff clock_example dashboard_example
                    lastKnownGood_example 0 Hown)).
    apply (proj1 (Forall_forall
                    (λ cd, Channel.ok cd = true →
                           Channel.channel cd
                           ∈ Object_keys
                               (LastKnownGood.channels lastKnownGood_example))
                    (Object_values (Dashboard.channels dashboard_example)))).
    apply (bool_decide_unpack _). vm_compute. exact I.
  - intros Hsome.
    pose proof (proj1 (reconciler_returns_iff clock_example dashboard_extended
                         lastKnownGood_example 0 Hown') Hsome
                  (Channel.mk "Extended" "120.0.6099.109" "1217362" true)) as H.
    assert ("Extended" ∈ Object_keys (LastKnownGood.channels lastKnownGood_example))
      as Hkey.
    { apply H; [|reflexivity]. apply (bool_decide_unpack _). vm_compute. exact I. }
    assert ("Extended" ∉ Object_keys (LastKnownGood.channels lastKnownGood_example))
      as Hnot.
    { apply (bool_decide_unpack _). vm_compute. exact I. }
    by apply Hnot.
Defined.

(** ** The Flat Catalog Merger, continued *)

Section MergerMore.
Variable Date_now : nat → string.
Variable older : string → string → bool.
Implicit Types (e x y : Entry.t) (l acc entries : list Entry.t)
  (kgv : KnownGood.t) (set : gset string).

Local Abbreviation ascending := (inOrder older).
Local Abbreviation loop := (forOf (mergeEntry Date_now)).

Lemma merge_loop_clock entries set kgv n set' kgv' n' :
  loop entries (set, kgv) n = Some ((set', kgv'), n') →
  length (KnownGood.versions kgv) ≤ length (KnownGood.versions kgv') ∧
  n' = n + (length (KnownGood.versions kgv') - length (KnownGood.versions kgv)) ∧
  KnownGood.timestamp kgv' =
    (if decide (n' = n) then KnownGood.timestamp kgv else Date_now (n' - 1)).
Proof.
  revert set kgv n. induction entries as [|entry entries IH]; intros set kgv n.
  - intros [= <- <- <-]. split_and!; [lia..|]. by rewrite decide_True.
  - rewrite forOf_cons.
    destruct (decide (Entry.version entry ∈ set)) as [Hin|Hin].
    + rewrite (mergeEntry_present Date_now) by done. apply IH.
    + rewrite (mergeEntry_absent Date_now) by done. intros Hrest.
      destruct (IH _ _ _ Hrest) as (Hlen & Hn & Hts). simpl in *.
      rewrite length_app in *. simpl in *. split_and!; [lia..|].
      rewrite Hts. rewrite (decide_False (P := n' = n)) by lia.
      case_decide as Hn'; [|done]. f_equal. lia.
Qed.

Lemma merge_loop_set entries set kgv n set' kgv' n' :
  set = list_to_set (Entry.version <$> KnownGood.versions kgv) →
  loop entries (set, kgv) n = Some ((set', kgv'), n') →
  set' = list_to_set (Entry.version <$> KnownGood.versions kgv') ∧
  set ⊆ set' ∧
  ∀ e, e ∈ entries → Entry.version e ∈ set'.
Proof.
  revert set kgv n. induction entries as [|entry entries IH]; intros set kgv n Hset.
  - intros [= <- <- <-]. split_and!; [done..|].
    intros e He. by apply elem_of_nil in He.
  - rewrite forOf_cons.
    destruct (decide (Entry.version entry ∈ set)) as [Hin|Hin].
    + rewrite (mergeEntry_present Date_now) by done. intros Hrest.
      destruct (IH _ _ _ Hset Hrest) as (Hset' & Hsub & Hall).
      split_and!; [done..|]. intros e [->|He]%elem_of_cons; [|by apply Hall].
      by apply Hsub.
    + rewrite (mergeEntry_absent Date_now) by done. intros Hrest.
      assert ({[Entry.version entry]} ∪ set =
              list_to_set
                (Entry.version <$>
                 KnownGood.versions kgv ++
                 [Entry.mk (Entry.version entry) (Entry.revision entry)]))
        as Hset1.
      { rewrite fmap_app, list_to_set_app_L, Hset. simpl. set_solver. }
      destruct (IH _ (KnownGood.mk (Date_now n)
                         (KnownGood.versions kgv ++
                          [Entry.mk (Entry.version entry)
                             (Entry.revision entry)])) _ Hset1 Hrest) as (Hset' & Hsub & Hall).
      split_and!; [done|set_solver|].
      intros e [->|He]%elem_of_cons; [|by apply Hall]. set_solver.
Qed.

Lemma merge_loop_noop entries set kgv n :
  (∀ e, e ∈ entries → Entry.version e ∈ set) →
  loop entries (set, kgv) n = Some ((set, kgv), n).
Proof.
  induction entries as [|entry entries IH]; intros Hall; [done|].
  rewrite forOf_cons, (mergeEntry_present Date_now) by (apply Hall; by left).
  apply IH. intros e He. apply Hall. by right.
Qed.

(** The entry appended for a version is the first channel entry that has
    this version. *)
Lemma merge_loop_first entries set kgv n set' kgv' n' :
  set = list_to_set (Entry.version <$> KnownGood.versions kgv) →
  loop entries (set, kgv) n = Some ((set', kgv'), n') →
  ∃ added,
    KnownGood.versions kgv' = KnownGood.versions kgv ++ added ∧
    ∀ e, e ∈ added →
      (Entry.version e ∉ Entry.version <$> KnownGood.versions kgv) ∧
      (List.find (λ x, bool_decide (Entry.version x = Entry.version e)) entries
       = Some e).
Proof.
  revert set kgv n. induction entries as [|entry entries IH]; intros set kgv n Hset.
  - intros [= <- <- <-]. exists []. rewrite app_nil_r. split; [done|].
    intros e He. by apply elem_of_nil in He.
  - rewrite forOf_cons.
    destruct (decide (Entry.version entry ∈ set)) as [Hin|Hin].
    + rewrite (mergeEntry_present Date_now) by done. intros Hrest.
      destruct (IH _ _ _ Hset Hrest) as (added & Hv & Hadd).
      exists added. split; [done|]. intros e He.
      destruct (Hadd e He) as [Hnew Hfind]. split; [done|]. simpl.
      rewrite bool_decide_eq_false_2; [done|].
      intros Heq. apply Hnew. rewrite <- Heq.
      rewrite Hset in Hin. by apply elem_of_list_to_set in Hin.
    + rewrite (mergeEntry_absent Date_now) by done. intros Hrest.
      assert ({[Entry.version entry]} ∪ set =
              list_to_set
                (Entry.version <$>
                 KnownGood.versions kgv ++
                 [Entry.mk (Entry.version entry) (Entry.revision entry)]))
        as Hset1.
      { rewrite fmap_app, list_to_set_app_L, Hset. simpl. set_solver. }
      destruct (IH _ (KnownGood.mk (Date_now n)
                         (KnownGood.versions kgv ++
                          [Entry.mk (Entry.version entry)
                             (Entry.revision entry)])) _ Hset1 Hrest) as (added & Hv & Hadd).
      simpl in Hv, Hadd. exists (entry :: added). split.
      { rewrite Hv, <- app_assoc. simpl. by destruct entry. }
      assert (Entry.version entry ∉ Entry.version <$> KnownGood.versions kgv)
        as Hnew.
      { intros Hold. apply Hin. rewrite Hset. by apply elem_of_list_to_set. }
      intros e [->|He]%elem_of_cons.
      * split; [done|]. simpl. by rewrite bool_decide_eq_true_2.
      * destruct (Hadd e He) as [Hnew' Hfind]. rewrite fmap_app in Hnew'.
        split; [set_solver|]. simpl.
        rewrite bool_decide_eq_false_2; [done|]. set_solver.
Qed.

Lemma StronglySorted_middle {A} (R : A → A → Prop) (k1 k2 : list A) (a : A) :
  StronglySorted R (k1 ++ a :: k2) → Forall (λ b, R b a) k1.
Proof.
  induction k1 as [|b k1 IH]; simpl; [constructor|].
  intros [Hs Hb]%StronglySorted_inv. constructor; [|by apply IH].
  rewrite Forall_forall in Hb. apply Hb. set_solver.
Qed.

Lemma insertSorted_behind x acc :
  Forall (λ y, ascending y x) acc →
  insertSorted (compareFn older) x acc = acc ++ [x].
Proof.
  induction 1 as [|y acc Hy _ IH]; simpl; [done|].
  rewrite compareFn_negative. unfold inOrder in Hy. by rewrite Hy, IH.
Qed.

(** Sorting an array that is in ascending order leaves it as it is. *)
Lemma Array_sort_ascending l :
  StronglySorted ascending l → Array_sort (compareFn older) l = l.
Proof.
  unfold Array_sort.
  enough (∀ acc, StronglySorted ascending (acc ++ l) →
            foldl (λ s x, insertSorted (compareFn older) x s) acc l = acc ++ l)
    as H by (intros Hs; by apply (H [])).
  induction l as [|x l IH]; intros acc Hs; simpl.
  - by rewrite app_nil_r.
  - rewrite insertSorted_behind by by eapply StronglySorted_middle.
    rewrite IH; rewrite <- app_assoc; done.
Qed.

Lemma updateKnownGoodVersions_noop kgv lkg n :
  StronglySorted ascending (KnownGood.versions kgv) →
  (∀ e, e ∈ Object_values (LastKnownGood.channels lkg) →
        Entry.version e ∈ Entry.version <$> KnownGood.versions kgv) →
  updateKnownGoodVersions Date_now older kgv lkg n = Some (kgv, n).
Proof.
  intros Hsorted Hknown. unfold updateKnownGoodVersions, Run_bind.
  rewrite merge_loop_noop.
  - simpl. rewrite Array_sort_ascending by done. by destruct kgv.
  - intros e He. apply elem_of_list_to_set. by apply Hknown.
Qed.

End MergerMore.

Lemma updateKnownGoodVersions_inv Date_now older kgv lkg n result n' :
  updateKnownGoodVersions Date_now older kgv lkg n = Some (result, n') →
  ∃ set' kgv',
    forOf (mergeEntry Date_now)
      (Object_values (LastKnownGood.channels lkg))
      (list_to_set (Entry.version <$> KnownGood.versions kgv), kgv) n
    = Some ((set', kgv'), n') ∧
    result = KnownGood.mk (KnownGood.timestamp kgv')
               (Array_sort (compareFn older) (KnownGood.versions kgv')).
Proof.
  unfold updateKnownGoodVersions, Run_bind.
  destruct (forOf _ _ _ _) as [[[set' kgv'] n1]|]; [|done].
  intros [= <- <-]. by exists set', kgv'.
Qed.

(** X3: the merger reads the clock once for every entry it appends; the
    catalog it returns keeps the timestamp it had when nothing is appended,
    and has the last reading otherwise. *)
Theorem merger_bumps_per_new_version
    (Date_now : nat → string) (isOlderVersion : string → string → bool)
    (knownGoodVersions result : KnownGood.t)
    (lastKnownGoodVersions : LastKnownGood.t) (n n' : nat) :
  updateKnownGoodVersions Date_now isOlderVersion knownGoodVersions
    lastKnownGoodVersions n = Some (result, n') →
  length (KnownGood.versions knownGoodVersions)
    ≤ length (KnownGood.versions result) ∧
  n' = n + (length (KnownGood.versions result)
            - length (KnownGood.versions knownGoodVersions)) ∧
  KnownGood.timestamp result =
    (if decide (n' = n) then KnownGood.timestamp knownGoodVersions
     else Date_now (n' - 1)).
Proof.
  intros (set' & kgv' & Hloop & ->)%updateKnownGoodVersions_inv.
  apply merge_loop_clock in Hloop. simpl.
  by rewrite (Permutation_length (Array_sort_perm _ _)).
Qed.

Lemma merger_bumps_per_new_version_witness :
  length (KnownGood.versions knownGood_example)
    ≤ length (KnownGood.versions knownGood_merged) ∧
  5 = 2 + (length (KnownGood.versions knownGood_merged)
           - length (KnownGood.versions knownGood_example)) ∧
  KnownGood.timestamp knownGood_merged = clock_example (5 - 1).
Proof.
  apply (merger_bumps_per_new_version clock_example SpecModel.isOlderVersion
           knownGood_example knownGood_merged lastKnownGood_reconciled 2 5).
  vm_compute. reflexivity.
Defined.

Lemma updateKnownGoodVersions_versions Date_now older kgv lkg n result n' v :
  updateKnownGoodVersions Date_now older kgv lkg n = Some (result, n') →
  v ∈ Entry.version <$> KnownGood.versions result ↔
  v ∈ Entry.version <$> KnownGood.versions kgv ∨
  v ∈ Entry.version <$> Object_values (LastKnownGood.channels lkg).
Proof.
  intros (set' & kgv' & Hloop & ->)%updateKnownGoodVersions_inv. simpl.
  rewrite (fmap_Permutation _ _ _ (Array_sort_perm _ _)).
  destruct (merge_loop_set Date_now older _ _ _ _ _ _ _ eq_refl Hloop)
    as (Hset' & Hsub & Hall).
  destruct (merge_loop Date_now older
              (Object_values (LastKnownGood.channels lkg))
              (list_to_set (Entry.version <$> KnownGood.versions kgv))
              kgv n eq_refl)
    as (set2 & kgv2 & n2 & added & Hloop2 & Hv & _ & Hadd).
  rewrite Hloop in Hloop2. injection Hloop2 as <- <- <-.
  split.
  - rewrite Hv, fmap_app. intros [Hold|Hnew]%elem_of_app; [by left|right].
    apply list_elem_of_fmap in Hnew as (e & -> & He).
    apply list_elem_of_fmap_2. by apply Hadd.
  - intros [Hold|Hnew].
    + apply (elem_of_list_to_set (C := gset string)). rewrite <- Hset'.
      apply Hsub. by apply elem_of_list_to_set.
    + apply list_elem_of_fmap in Hnew as (e & -> & He).
      apply (elem_of_list_to_set (C := gset string)). rewrite <- Hset'.
      by apply Hall.
Qed.

(** X4: the versions of the catalog the merger returns are the versions of
    the catalog it read together with the versions of the channels. *)
Theorem merger_version_set
    (Date_now : nat → string) (isOlderVersion : string → string → bool)
    (knownGoodVersions result : KnownGood.t)
    (lastKnownGoodVersions : LastKnownGood.t) (n n' : nat) (v : string) :
  updateKnownGoodVersions Date_now isOlderVersion knownGoodVersions
    lastKnownGoodVersions n = Some (result, n') →
  v ∈ Entry.version <$> KnownGood.versions result ↔
  v ∈ Entry.version <$> KnownGood.versions knownGoodVersions ∨
  v ∈ Entry.version <$>
        Object_values (LastKnownGood.channels lastKnownGoodVersions).
Proof. apply updateKnownGoodVersions_versions. Qed.

Lemma merger_version_set_witness :
  "121.0.6167.16" ∈ Entry.version <$> KnownGood.versions knownGood_merged ↔
  "121.0.6167.16" ∈ Entry.version <$> KnownGood.versions knownGood_example ∨
  "121.0.6167.16" ∈ Entry.version <$>
        Object_values (LastKnownGood.channels lastKnownGood_reconciled).
Proof.
  apply (merger_version_set clock_example SpecModel.isOlderVersion
           knownGood_example knownGood_merged lastKnownGood_reconciled 2 5).
  vm_compute. reflexivity.
Defined.

(** X5: an entry of the returned catalog whose version the catalog did not
    hold is the first channel entry, in the order of the channels, with
    that version: of two channels with the same new version the first gives
    the revision. *)
Theorem merger_first_channel_wins
    (Date_now : nat → string) (isOlderVersion : string → string → bool)
    (knownGoodVersions result : KnownGood.t)
    (lastKnownGoodVersions : LastKnownGood.t) (n n' : nat) (e : Entry.t) :
  updateKnownGoodVersions Date_now isOlderVersion knownGoodVersions
    lastKnownGoodVersions n = Some (result, n') →
  e ∈ KnownGood.versions result →
  Entry.version e ∉ Entry.version <$> KnownGood.versions knownGoodVersions →
  List.find (λ x, bool_decide (Entry.version x = Entry.version e))
    (Object_values (LastKnownGood.channels lastKnownGoodVersions))
  = Some e.
Proof.
  intros (set' & kgv' & Hloop & ->)%updateKnownGoodVersions_inv He Hnew.
  simpl in He. rewrite Array_sort_perm in He.
  destruct (merge_loop_first Date_now isOlderVersion _ _ _ _ _ _ _ eq_refl Hloop)
    as (added & Hv & Hadd).
  rewrite Hv in He. apply elem_of_app in He as [Hold|Hadded].
  - destruct Hnew. by apply list_elem_of_fmap_2.
  - by apply Hadd.
Qed.

Lemma merger_first_channel_wins_witness :
  List.find (λ x, bool_decide (Entry.version x = "121.0.6167.16"))
    (Object_values (LastKnownGood.channels lastKnownGood_reconciled))
  = Some (Entry.mk "121.0.6167.16" "1233107").
Proof.
  apply (merger_first_channel_wins clock_example SpecModel.isOlderVersion
           knownGood_example knownGood_merged lastKnownGood_reconciled 2 5
           (Entry.mk "121.0.6167.16" "1233107")).
  - vm_compute. reflexivity.
  - apply (bool_decide_unpack _). vm_compute. exact I.
  - apply (bool_decide_unpack _). vm_compute. exact I.
Defined.

(** X6: on a catalog that is in ascending order and holds the version of
    every channel, the merger returns the catalog as it is and does not read
    the clock. *)
Theorem merger_noop_when_known
    (Date_now : nat → string) (isOlderVersion : string → string → bool)
    (knownGoodVersions : KnownGood.t)
    (lastKnownGoodVersions : LastKnownGood.t) (n : nat) :
  StronglySorted (inOrder isOlderVersion)
    (KnownGood.versions knownGoodVersions) →
  Forall (λ e, Entry.version e
               ∈ Entry.version <$> KnownGood.versions knownGoodVersions)
    (Object_values (LastKnownGood.channels lastKnownGoodVersions)) →
  updateKnownGoodVersions Date_now isOlderVersion knownGoodVersions
    lastKnownGoodVersions n = Some (knownGoodVersions, n).
Proof.
  intros Hsorted Hknown. apply updateKnownGoodVersions_noop; [done|].
  by apply Forall_forall.
Qed.

Lemma merger_noop_when_known_witness :
  updateKnownGoodVersions clock_example SpecModel.isOlderVersion
    knownGood_merged lastKnownGood_example 5 = Some (knownGood_merged, 5).
Proof.
  apply (merger_noop_when_known clock_example SpecModel.isOlderVersion
           knownGood_merged lastKnownGood_example 5).
  - unfold inOrder. apply (bool_decide_unpack _). vm_compute. exact I.
  - apply (bool_decide_unpack _). vm_compute. exact I.
Defined.

(** X7: the merger is idempotent when being older is a strict total order
    on the versions at hand: run again on the catalog it returned, with the
    same channels, it returns that catalog and does not read the clock. *)
Theorem merger_idempotent
    (Date_now : nat → string) (isOlderVersion : string → string → bool)
    (knownGoodVersions result : KnownGood.t)
    (lastKnownGoodVersions : LastKnownGood.t) (n n' : nat) :
  StrictTotalOn isOlderVersion
    ((Entry.version <$> KnownGood.versions knownGoodVersions) ++
     (Entry.version <$>
        Object_values (LastKnownGood.channels lastKnownGoodVersions))) →
  updateKnownGoodVersions Date_now isOlderVersion knownGoodVersions
    lastKnownGoodVersions n = Some (result, n') →
  updateKnownGoodVersions Date_now isOlderVersion result
    lastKnownGoodVersions n' = Some (result, n').
Proof.
  intros Hsto Hrun.
  pose proof Hrun as (set' & kgv' & Hloop & ->)%updateKnownGoodVersions_inv.
  apply updateKnownGoodVersions_noop; simpl.
  - eapply Array_sort_sorted; [by apply older_order|].
    intros v Hv. apply elem_of_app.
    apply (updateKnownGoodVersions_versions Date_now isOlderVersion _ _ _ _ _ v Hrun).
    simpl. by rewrite (fmap_Permutation _ _ _ (Array_sort_perm _ _)).
  - intros e He.
    apply (updateKnownGoodVersions_versions Date_now isOlderVersion _ _ _ _ _
             (Entry.version e) Hrun).
    right. by apply list_elem_of_fmap_2.
Qed.

Lemma merger_idempotent_witness :
  updateKnownGoodVersions clock_example SpecModel.isOlderVersion
    knownGood_merged lastKnownGood_reconciled 5 = Some (knownGood_merged, 5).
Proof.
  apply (merger_idempotent clock_example SpecModel.isOlderVersion
           knownGood_example knownGood_merged lastKnownGood_reconciled 2 5).
  - apply strictTotalOnb_sound. vm_compute. reflexivity.
  - vm_compute. reflexivity.
Defined.

(** ** The Milestone Index Updater, continued *)

(** X8: the Milestone Index Updater always returns and reads the clock at
    most once in a run: it returns the document as it is, or the document
    with the one new reading as its timestamp; and, when being older is
    irreflexive and transitive on the versions at hand and no channel has
    the milestone [__proto__], a new timestamp comes with changed
    milestones. *)
Theorem milestone_bumps_once
    (Date_now : nat → string) (isOlderVersion : string → string → bool)
    (document : PerMilestone.t) (lastKnownGoodVersionsData : LastKnownGood.t)
    (n : nat) :
  ∃ document' n',
    updateLatestVersionsPerMilestone Date_now isOlderVersion document
      lastKnownGoodVersionsData n = Some (document', n') ∧
    (n' = n ∧ document' = document
     ∨ n' = S n ∧ PerMilestone.timestamp document' = Date_now n) ∧
    (∀ versions,
       StrictOrderOn isOlderVersion versions →
       storedIn versions (PerMilestone.milestones document) →
       Forall (λ cd, Entry.version cd ∈ versions)
         (Object_values (LastKnownGood.channels lastKnownGoodVersionsData)) →
       "__proto__" ∉ milestoneKeys lastKnownGoodVersionsData →
       n' = S n →
       PerMilestone.milestones document' ≠ PerMilestone.milestones document).
Proof.
  destruct (updateLatestVersionsPerMilestone_inv Date_now isOlderVersion
              document lastKnownGoodVersionsData n)
    as (document' & n' & Hrun & Hms & Hflag).
  exists document', n'. split_and!; [done| |].
  - destruct Hflag as [(Hdown & -> & Hts)|(_ & -> & Hts)]; [left|by right].
    split; [done|]. apply foldl_flag_down in Hdown as [_ Hsame].
    rewrite Hsame in Hms. destruct document, document'. simpl in *. congruence.
  - intros versions Horder Hstored Hincoming Hproto Hn.
    destruct Hflag as [(_ & -> & _)|(Hup & _ & _)]; [lia|].
    rewrite Hms. rewrite Forall_forall in Hincoming.
    assert (∀ cd,
              cd ∈ Object_values
                     (LastKnownGood.channels lastKnownGoodVersionsData) →
              milestoneOf (Entry.version cd) ≠ "__proto__") as Hproto'.
    { intros cd Hin Heq. apply Hproto. unfold milestoneKeys.
      apply list_elem_of_fmap. by exists cd. }
    by destruct (foldl_updateMilestone_changed isOlderVersion versions Horder
                   false _ _ Hstored Hincoming Hproto' Hup).
Qed.

Lemma milestone_bumps_once_witness :
  ∃ document' n',
    updateLatestVersionsPerMilestone clock_example SpecModel.isOlderVersion
      perMilestone_updated lastKnownGood_example 3 = Some (document', n') ∧
    n' = 3 ∧ document' = perMilestone_updated.
Proof.
  destruct (milestone_bumps_once clock_example SpecModel.isOlderVersion
              perMilestone_updated lastKnownGood_example 3)
    as (document' & n' & Hrun & [[-> ->]|[-> _]] & _).
  - by exists perMilestone_updated, 3.
  - vm_compute in Hrun. discriminate Hrun.
Defined.

(** X9: when being older is irreflexive and transitive on the versions at
    hand, after a run every channel of the per-channel document whose
    milestone is not [__proto__] has its milestone among the keys, with a
    version that is not older than the channel's. *)
Theorem milestone_covers_channels
    (Date_now : nat → string) (isOlderVersion : string → string → bool)
    (versions : list string)
    (document document' : PerMilestone.t)
    (lastKnownGoodVersionsData : LastKnownGood.t) (n n' : nat) :
  StrictOrderOn isOlderVersion versions →
  storedIn versions (PerMilestone.milestones document) →
  Forall (λ cd, Entry.version cd ∈ versions)
    (Object_values (LastKnownGood.channels lastKnownGoodVersionsData)) →
  updateLatestVersionsPerMilestone Date_now isOlderVersion document
    lastKnownGoodVersionsData n = Some (document', n') →
  Forall (λ cd,
            milestoneOf (Entry.version cd) ≠ "__proto__" →
            ∃ entry,
              PerMilestone.milestones document'
                !! milestoneOf (Entry.version cd) = Some entry ∧
              isOlderVersion (Milestone.version entry) (Entry.version cd)
                = false)
    (Object_values (LastKnownGood.channels lastKnownGoodVersionsData)).
Proof.
  intros Horder Hstored Hincoming Hrun.
  destruct (updateLatestVersionsPerMilestone_inv Date_now isOlderVersion
              document lastKnownGoodVersionsData n)
    as (document2 & n2 & Hrun2 & Hms & _).
  rewrite Hrun in Hrun2. injection Hrun2 as <- <-. rewrite Hms.
  rewrite Forall_forall in Hincoming. apply Forall_forall.
  by apply (foldl_updateMilestone_covers isOlderVersion versions Horder).
Qed.

Lemma milestone_covers_channels_witness :
  Forall (λ cd,
            milestoneOf (Entry.version cd) ≠ "__proto__" →
            ∃ entry,
              PerMilestone.milestones perMilestone_updated
                !! milestoneOf (Entry.version cd) = Some entry ∧
              SpecModel.isOlderVersion (Milestone.version entry)
                (Entry.version cd) = false)
    (Object_values (LastKnownGood.channels lastKnownGood_reconciled)).
Proof.
  apply (milestone_covers_channels clock_example SpecModel.isOlderVersion
           versions_example perMilestone_example perMilestone_updated
           lastKnownGood_reconciled 2 3).
  - apply older_order, strictTotalOnb_sound. vm_compute. reflexivity.
  - apply (bool_decide_unpack _). vm_compute. exact I.
  - apply (bool_decide_unpack _). vm_compute. exact I.
  - vm_compute. reflexivity.
Defined.

(** X10: the Milestone Index Updater is idempotent when being older is
    irreflexive and transitive on the versions at hand and no channel has
    the milestone [__proto__]: run again on the document it returned, with
    the same per-channel document, it returns that document and does not
    read the clock. *)
Theorem milestone_idempotent
    (Date_now : nat → string) (isOlderVersion : string → string → bool)
    (versions : list string)
    (document document' : PerMilestone.t)
    (lastKnownGoodVersionsData : LastKnownGood.t) (n n' : nat) :
  StrictOrderOn isOlderVersion versions →
  storedIn versions (PerMilestone.milestones document) →
  Forall (λ cd, Entry.version cd ∈ versions)
    (Object_values (LastKnownGood.channels lastKnownGoodVersionsData)) →
  "__proto__" ∉ milestoneKeys lastKnownGoodVersionsData →
  updateLatestVersionsPerMilestone Date_now isOlderVersion document
    lastKnownGoodVersionsData n = Some (document', n') →
  updateLatestVersionsPerMilestone Date_now isOlderVersion document'
    lastKnownGoodVersionsData n' = Some (document', n').
Proof.
  intros Horder Hstored Hincoming Hproto Hrun.
  destruct (updateLatestVersionsPerMilestone_inv Date_now isOlderVersion
              document lastKnownGoodVersionsData n)
    as (document2 & n2 & Hrun2 & Hms & _).
  rewrite Hrun in Hrun2. injection Hrun2 as <- <-.
  rewrite Forall_forall in Hincoming.
  assert (∀ cd,
            cd ∈ Object_values
                   (LastKnownGood.channels lastKnownGoodVersionsData) →
            ∃ entry,
              PerMilestone.milestones document'
                !! milestoneOf (Entry.version cd) = Some entry ∧
              isOlderVersion (Milestone.version entry) (Entry.version cd)
                = false) as Hcovers.
  { intros cd Hin. rewrite Hms.
    apply (foldl_updateMilestone_covers isOlderVersion versions Horder);
      [done..|].
    intros Heq. apply Hproto. unfold milestoneKeys.
    apply list_elem_of_fmap. by exists cd. }
  unfold updateLatestVersionsPerMilestone.
  rewrite (foldl_updateMilestone_fixpoint isOlderVersion false _ _ Hcovers).
  by destruct document'.
Qed.

Lemma milestone_idempotent_witness :
  updateLatestVersionsPerMilestone clock_example SpecModel.isOlderVersion
    perMilestone_updated lastKnownGood_reconciled 3
  = Some (perMilestone_updated, 3).
Proof.
  apply (milestone_idempotent clock_example SpecModel.isOlderVersion
           versions_example perMilestone_example perMilestone_updated
           lastKnownGood_reconciled 2 3).
  - apply older_order, strictTotalOnb_sound. vm_compute. reflexivity.
  - apply (bool_decide_unpack _). vm_compute. exact I.
  - apply (bool_decide_unpack _). vm_compute. exact I.
  - apply (bool_decide_unpack _). vm_compute. exact I.
  - vm_compute. reflexivity.
Defined.

(** X11: after a run the milestone keys are the keys there were together
    with the first components of the channels' versions, [__proto__]
    apart, which is a key after the run only if it was one before; and
    when every entry sat under the key that is its [milestone] property
    and the first component of its version, every entry still does. *)
Theorem milestone_keys
    (Date_now : nat → string) (isOlderVersion : string → string → bool)
    (document document' : PerMilestone.t)
    (lastKnownGoodVersionsData : LastKnownGood.t) (n n' : nat) :
  updateLatestVersionsPerMilestone Date_now isOlderVersion document
    lastKnownGoodVersionsData n = Some (document', n') →
  dom (PerMilestone.milestones document')
  = dom (PerMilestone.milestones document)
    ∪ (list_to_set (milestoneKeys lastKnownGoodVersionsData)
       ∖ {["__proto__"]}) ∧
  (wellKeyed (PerMilestone.milestones document) →
   wellKeyed (PerMilestone.milestones document')).
Proof.
  intros Hrun.
  destruct (updateLatestVersionsPerMilestone_inv Date_now isOlderVersion
              document lastKnownGoodVersionsData n)
    as (document2 & n2 & Hrun2 & Hms & _).
  rewrite Hrun in Hrun2. injection Hrun2 as <- <-. rewrite Hms. split.
  - apply foldl_updateMilestone_dom.
  - apply foldl_updateMilestone_wellKeyed.
Qed.

Lemma milestone_keys_witness :
  dom (PerMilestone.milestones perMilestone_updated)
  = dom (PerMilestone.milestones perMilestone_example)
    ∪ (list_to_set (milestoneKeys lastKnownGood_reconciled)
       ∖ {["__proto__"]}) ∧
  wellKeyed (PerMilestone.milestones perMilestone_updated).
Proof.
  destruct (milestone_keys clock_example SpecModel.isOlderVersion
              perMilestone_example perMilestone_updated
              lastKnownGood_reconciled 2 3) as [Hdom Hkeyed].
  - vm_compute. reflexivity.
  - split; [done|]. apply Hkeyed.
    apply (bool_decide_unpack _). vm_compute. exact I.
Defined.

(** ** The Build-Track Reducer, continued *)

(** X12: the pattern of the Build-Track Reducer matches exactly the strings
    that end in a dot and a numeral; the groups it gives are a [build] on
    one line and a numeral [patch] with [build.patch] at the end of the
    string, and [build.patch] is the whole string when the string is on one
    line (it has no line feed, carriage return, U+2028 or U+2029). *)
Theorem re_exec_characterisation (s : string) :
  (is_Some (re_exec s) ↔
   ∃ before patch, s = before +:+ "." +:+ patch ∧ digitsToEnd patch = true) ∧
  (∀ build patch,
     re_exec s = Some (build, patch) →
     noLineTerminator build = true ∧ digitsToEnd patch = true ∧
     (∃ skipped, s = skipped +:+ build +:+ "." +:+ patch) ∧
     (noLineTerminator s = true → s = build +:+ "." +:+ patch)).
Proof.
  split; [split|].
  - intros [[build patch] Hs].
    destruct (re_exec_sound _ _ _ Hs) as (_ & Hp & skipped & ->).
    exists (skipped +:+ build), patch. split; [|done].
    by rewrite append_associative.
  - intros (before & patch & -> & Hp). by apply re_exec_ends.
  - intros build patch Hs.
    destruct (re_exec_sound _ _ _ Hs) as (Hb & Hp & Hskipped).
    split_and!; [done..|]. intros Hline.
    rewrite (re_exec_one_line _ Hline) in Hs.
    by apply matchHere_sound in Hs as (-> & _).
Qed.

Lemma re_exec_characterisation_witness :
  noLineTerminator "120.0.6099" = true ∧ digitsToEnd "109" = true ∧
  (∃ skipped, "120.0.6099.109" = skipped +:+ "120.0.6099" +:+ "." +:+ "109") ∧
  (noLineTerminator "120.0.6099.109" = true →
   "120.0.6099.109" = "120.0.6099" +:+ "." +:+ "109").
Proof.
  apply (proj2 (re_exec_characterisation "120.0.6099.109")).
  vm_compute. reflexivity.
Defined.

Section BuildReducerMore.
Variable older : string → string → bool.
Implicit Types (e h : Entry.t) (track l : list Entry.t).

Lemma foldl_keepNewer_elem track known h :
  foldl (keepNewer older) known track = Some h →
  known = Some h ∨ h ∈ track.
Proof.
  revert known. induction track as [|e track IH]; intros known; simpl.
  - by left.
  - intros [Hk|Hin]%IH; [|right; by right].
    unfold keepNewer in Hk. destruct known as [k|].
    + destruct (older _ _); injection Hk as <-; [right; by left|by left].
    + injection Hk as <-. right. by left.
Qed.

Lemma foldl_keepNewer_is_Some track known :
  is_Some (foldl (keepNewer older) known track) ↔ is_Some known ∨ track ≠ [].
Proof.
  revert known. induction track as [|e track IH]; intros known; simpl.
  - split; [by left|]. by intros [|[]].
  - rewrite IH. split; [by right|]. intros _. left. unfold keepNewer.
    destruct known; [destruct (older _ _)|]; done.
Qed.

Lemma elem_of_onTrack build l e :
  e ∈ onTrack build l ↔ e ∈ l ∧ buildPrefix (Entry.version e) = Some build.
Proof.
  unfold onTrack. rewrite list_elem_of_In, filter_In, <- list_elem_of_In.
  by rewrite bool_decide_eq_true.
Qed.

Lemma prepareLatestPatchVersionsPerBuild_lookup kgv result build :
  prepareLatestPatchVersionsPerBuild older kgv = Some result →
  PerBuild.builds result !! build
  = if bool_decide (build = "__proto__") then None
    else foldl (keepNewer older) None (onTrack build (KnownGood.versions kgv)).
Proof.
  unfold prepareLatestPatchVersionsPerBuild.
  destruct (reduceEntries older ∅ (KnownGood.versions kgv)) as [map|] eqn:Hmap;
    [|done].
  intros [= <-]. simpl. case_bool_decide as Hproto.
  - subst build. apply lookup_delete_eq.
  - rewrite lookup_delete_ne by done.
    by rewrite (reduceEntries_lookup _ _ _ _ build Hmap), lookup_empty.
Qed.

End BuildReducerMore.

(** X13: whatever the comparator, when the Build-Track Reducer returns, a
    build is a key of the result exactly when it is not [__proto__] and is
    the build prefix of a version of the catalog, and the entry under a key
    is an entry of the catalog with this build prefix. *)
Theorem builds_keys_and_values
    (isOlderVersion : string → string → bool)
    (knownGoodVersions : KnownGood.t) (result : PerBuild.t) (build : string) :
  prepareLatestPatchVersionsPerBuild isOlderVersion knownGoodVersions
    = Some result →
  (is_Some (PerBuild.builds result !! build) ↔
   build ≠ "__proto__" ∧
   ∃ e, e ∈ KnownGood.versions knownGoodVersions ∧
        buildPrefix (Entry.version e) = Some build) ∧
  (∀ h, PerBuild.builds result !! build = Some h →
        h ∈ KnownGood.versions knownGoodVersions ∧
        buildPrefix (Entry.version h) = Some build).
Proof.
  intros Hrun.
  rewrite (prepareLatestPatchVersionsPerBuild_lookup _ _ _ build Hrun).
  case_bool_decide as Hproto.
  { split; [|by intros h [=]]. split; [by intros [? [=]]|by intros [? _]]. }
  split.
  - rewrite foldl_keepNewer_is_Some. split.
    + intros [[? [=]]|Hne]. split; [done|].
      destruct (onTrack build (KnownGood.versions knownGoodVersions))
        as [|e track] eqn:Htrack; [done|].
      exists e. apply elem_of_onTrack. rewrite Htrack. by left.
    + intros (_ & e & He). right. apply elem_of_onTrack in He.
      intros Hnil. rewrite Hnil in He. by apply elem_of_nil in He.
  - intros h [[=]|Hin]%foldl_keepNewer_elem. by apply elem_of_onTrack.
Qed.

Lemma builds_keys_and_values_witness :
  (is_Some (PerBuild.builds perBuild_example !! "120.0.1") ↔
   "120.0.1" ≠ "__proto__" ∧
   ∃ e, e ∈ KnownGood.versions knownGood_builds ∧
        buildPrefix (Entry.version e) = Some "120.0.1") ∧
  (∀ h, PerBuild.builds perBuild_example !! "120.0.1" = Some h →
        h ∈ KnownGood.versions knownGood_builds ∧
        buildPrefix (Entry.version h) = Some "120.0.1").
Proof.
  apply (builds_keys_and_values SpecModel.isOlderVersion knownGood_builds
           perBuild_example "120.0.1").
  vm_compute. reflexivity.
Defined.

(** X14: when being older is a strict total order on the versions of the
    catalog and the Build-Track Reducer returns, every entry of the catalog
    has a build prefix, and, unless the prefix is [__proto__], the entry
    published for this prefix is not older than it. *)
Theorem builds_dominate
    (isOlderVersion : string → string → bool)
    (knownGoodVersions : KnownGood.t) (result : PerBuild.t) :
  StrictTotalOn isOlderVersion
    (Entry.version <$> KnownGood.versions knownGoodVersions) →
  prepareLatestPatchVersionsPerBuild isOlderVersion knownGoodVersions
    = Some result →
  Forall (λ e,
            ∃ build,
              buildPrefix (Entry.version e) = Some build ∧
              (build ≠ "__proto__" →
               ∃ h,
                 PerBuild.builds result !! build = Some h ∧
                 isOlderVersion (Entry.version h) (Entry.version e) = false))
    (KnownGood.versions knownGoodVersions).
Proof.
  intros Horder Hrun. apply Forall_forall. intros e He.
  destruct (buildPrefix (Entry.version e)) as [build|] eqn:Hprefix; last first.
  { unfold prepareLatestPatchVersionsPerBuild in Hrun.
    rewrite (reduceEntries_throws isOlderVersion _ ∅ e He) in Hrun; [done|].
    unfold buildPrefix in Hprefix. by destruct (re_exec (Entry.version e)). }
  exists build. split; [done|]. intros Hproto.
  pose proof (prepareLatestPatchVersionsPerBuild_lookup _ _ _ build Hrun)
    as Hlookup.
  rewrite bool_decide_eq_false_2 in Hlookup by done.
  pose proof Hlookup as Hfold.
  rewrite (foldl_keepNewer_highest isOlderVersion _ Horder) in Hlookup.
  2:{ intros v (x & -> & Hx%elem_of_onTrack)%list_elem_of_fmap.
      apply list_elem_of_fmap_2, Hx. }
  assert (e ∈ onTrack build (KnownGood.versions knownGoodVersions)) as Htrack
    by by apply elem_of_onTrack.
  destruct (PerBuild.builds result !! build) as [h|] eqn:Hh.
  - exists h. split; [done|].
    symmetry in Hlookup. apply find_some in Hlookup as [_ Hall].
    rewrite forallb_forall in Hall.
    apply list_elem_of_In in Htrack. apply Hall in Htrack.
    by apply negb_true_iff in Htrack.
  - pose proof (proj2 (foldl_keepNewer_is_Some isOlderVersion
                         (onTrack build (KnownGood.versions knownGoodVersions))
                         None)) as Hsome.
    rewrite <- Hfold in Hsome.
    destruct Hsome as [? [=]]. right. intros Hnil. rewrite Hnil in Htrack.
    by apply elem_of_nil in Htrack.
Qed.

Lemma builds_dominate_witness :
  Forall (λ e,
            ∃ build,
              buildPrefix (Entry.version e) = Some build ∧
              (build ≠ "__proto__" →
               ∃ h,
                 PerBuild.builds perBuild_example !! build = Some h ∧
                 SpecModel.isOlderVersion (Entry.version h) (Entry.version e)
                   = false))
    (KnownGood.versions knownGood_builds).
Proof.
  apply (builds_dominate SpecModel.isOlderVersion knownGood_builds
           perBuild_example).
  - apply strictTotalOnb_sound. vm_compute. reflexivity.
  - vm_compute. reflexivity.
Defined.

(** ** The milestone key *)

Lemma split_dot_cons s : ∃ first others, split_dot s = first :: others.
Proof.
  induction s as [|c s (first & others & IH)]; simpl; [by eexists _, _|].
  destruct (Ascii.eqb c "."%char); [by eexists _, _|].
  rewrite IH. by eexists _, _.
Qed.

Lemma milestoneOf_String c s :
  milestoneOf (String c s)
  = if Ascii.eqb c "."%char then "" else String c (milestoneOf s).
Proof.
  unfold milestoneOf. simpl. destruct (Ascii.eqb c "."%char); [done|].
  by destruct (split_dot_cons s) as (first & others & ->).
Qed.

(** X15: the milestone key of a version is its text before the first dot:
    it has no dot, it is [m] for a version [m.rest] where [m] has no dot,
    and it is the whole version when the version has no dot. *)
Theorem milestoneOf_first_component (version : string) :
  noDot (milestoneOf version) = true ∧
  (noDot version = true → milestoneOf version = version) ∧
  (∀ m rest,
     noDot m = true → version = m +:+ "." +:+ rest →
     milestoneOf version = m).
Proof.
  split_and!.
  - induction version as [|c s IH]; [done|]. rewrite milestoneOf_String.
    destruct (Ascii.eqb c "."%char) eqn:Hc; [done|]. simpl. by rewrite Hc.
  - induction version as [|c s IH]; [done|]. simpl.
    intros [Hc Hs]%andb_true_iff. apply negb_true_iff in Hc.
    by rewrite milestoneOf_String, Hc, IH.
  - intros m rest Hm ->. induction m as [|c m IH]; [done|].
    simpl in Hm. apply andb_true_iff in Hm as [Hc Hm].
    apply negb_true_iff in Hc.
    change (String c m +:+ "." +:+ rest) with (String c (m +:+ "." +:+ rest)).
    by rewrite milestoneOf_String, Hc, IH.
Qed.

Lemma milestoneOf_first_component_witness :
  milestoneOf "120.0.6099.109" = "120".
Proof.
  apply (proj2 (proj2 (milestoneOf_first_component "120.0.6099.109"))
           "120" "0.6099.109"); reflexivity.
Defined.

(** ** The Download Matrix Expander, continued *)

Section ExpanderMore.
Variable binaries : list string.
Variable platforms : list string.
Variable makeDownloadUrl : string → option string → string → string.
Variable predatesChromeDriverAvailability : string → bool.
Variable predatesChromeHeadlessShellAvailability : string → bool.

Local Abbreviation addBinary' :=
  (addBinary platforms makeDownloadUrl predatesChromeDriverAvailability
     predatesChromeHeadlessShellAvailability).
Local Abbreviation published' :=
  (published predatesChromeDriverAvailability
     predatesChromeHeadlessShellAvailability).
Local Abbreviation platformDownloads' :=
  (platformDownloads platforms makeDownloadUrl).
Local Abbreviation addDownloads' :=
  (addDownloads binaries platforms makeDownloadUrl
     predatesChromeDriverAvailability predatesChromeHeadlessShellAvailability).
Local Abbreviation expandRecords' :=
  (expandRecords binaries platforms makeDownloadUrl
     predatesChromeDriverAvailability predatesChromeHeadlessShellAvailability).

Lemma addBinary_published version downloads binary :
  addBinary' version downloads binary =
    if published' version binary
    then <[binary := platformDownloads' version binary]> downloads
    else downloads.
Proof.
  unfold addBinary, published.
  destruct (bool_decide (binary = "chromedriver")
            && predatesChromeDriverAvailability version); [done|].
  destruct (bool_decide (binary = "chrome-headless-shell")
            && predatesChromeHeadlessShellAvailability version); [done|].
  by destruct (bool_decide (binary = "mojojs")).
Qed.

Lemma foldl_addBinary_lookup version bs downloads binary :
  foldl (addBinary' version) downloads bs !! binary =
    if bool_decide (binary ∈ bs) && published' version binary
    then Some (platformDownloads' version binary)
    else downloads !! binary.
Proof.
  revert downloads. induction bs as [|b bs IH]; intros downloads.
  - rewrite (bool_decide_eq_false_2 (binary ∈ [])) by apply not_elem_of_nil.
    done.
  - cbn [foldl]. rewrite IH, addBinary_published.
    destruct (decide (binary ∈ bs)) as [Hin|Hin].
    + rewrite (bool_decide_eq_true_2 (binary ∈ bs)) by done.
      rewrite (bool_decide_eq_true_2 (binary ∈ b :: bs)) by by right.
      cbn [andb].
      destruct (published' version binary) eqn:Hpub; [done|].
      destruct (decide (binary = b)) as [->|Hne]; [by rewrite Hpub|].
      destruct (published' version b); [|done]. by rewrite lookup_insert_ne.
    + rewrite (bool_decide_eq_false_2 (binary ∈ bs)) by done.
      cbn [andb].
      destruct (decide (binary = b)) as [->|Hne].
      * rewrite (bool_decide_eq_true_2 (b ∈ b :: bs)) by by left.
        cbn [andb].
        destruct (published' version b); [|done]. by rewrite lookup_insert_eq.
      * rewrite (bool_decide_eq_false_2 (binary ∈ b :: bs))
          by (by intros [?|?]%elem_of_cons).
        cbn [andb]. destruct (published' version b); [|done].
        by rewrite lookup_insert_ne.
Qed.

(** What a call that returns went through. *)
Lemma addDownloads_inv (heap : Heap) (data : nat) (key : string)
    (copy : nat) (heap' : Heap) :
  addDownloads' heap data key = Some (copy, heap') →
  key ≠ "timestamp" →
  ∃ timestamp collections copies heap1 collection collection' members members',
    heap !! data = Some (Document timestamp collections) ∧
    heap1 !! copy = Some (Document timestamp copies) ∧
    Object_keys copies = Object_keys collections ∧
    get key collections = Some collection ∧
    get key copies = Some collection' ∧
    heap !! collection = Some (Collection members) ∧
    heap1 !! collection' = Some (Collection members') ∧
    Object_keys members' = Object_keys members ∧
    expandRecords' heap1 (Object_values members') = Some heap'.
Proof.
  unfold addDownloads. intros Hcall Hkey.
  destruct (structuredClone heap data) as [[copy1 heap1]|] eqn:Hclone; [|done].
  destruct (structuredClone_spec _ _ _ _ Hclone)
    as (timestamp & collections & copies & Hdata & Hcopy & Hpre & Hfresh & Hcols).
  rewrite Hcopy, bool_decide_eq_false_2 in Hcall by done.
  pose proof (get_Forall2 _ _ _ key Hcols) as Hget.
  destruct (get key copies) as [collection'|] eqn:Hget'; [|done].
  destruct (get key collections) as [collection|] eqn:Hgetc; [|done].
  destruct (heap1 !! collection') as [[|members'|]|] eqn:Hcollection'; try done.
  destruct (expandRecords' heap1 (Object_values members')) as [heap2|] eqn:Hexp;
    [|done].
  injection Hcall as <- <-.
  destruct Hget as (_ & _ & [(r & _ & Hr)|(members & ms' & Hsrc & Hc & Hms)]);
    [congruence|].
  assert (ms' = members') as -> by congruence.
  exists timestamp, collections, copies, heap1, collection, collection',
    members, members'.
  split_and!; try done.
  - unfold Object_keys. clear -Hcols.
    induction Hcols as [|kv kv' ? ? [Hk _] _ IH]; [done|].
    rewrite !fmap_cons. by rewrite Hk, IH.
  - unfold Object_keys. clear -Hms.
    induction Hms as [|kv kv' ? ? [Hk _] _ IH]; [done|].
    rewrite !fmap_cons. by rewrite Hk, IH.
Qed.

End ExpanderMore.

(** X16: the [downloads] object of a version has, for a binary, one
    [{platform, url}] for each platform, in the order of the platforms and
    with the URL [makeDownloadUrl] gives, when the binary is one of
    [binaries] that passes the three guards; it has no such key
    otherwise.  So no element of it lacks a [platform]. *)
Theorem downloadsFor_lookup
    (binaries platforms : list string)
    (makeDownloadUrl : string → option string → string → string)
    (predatesChromeDriverAvailability : string → bool)
    (predatesChromeHeadlessShellAvailability : string → bool)
    (version binary : string) :
  downloadsFor binaries platforms makeDownloadUrl
    predatesChromeDriverAvailability predatesChromeHeadlessShellAvailability
    version !! binary =
  if bool_decide (binary ∈ binaries)
     && published predatesChromeDriverAvailability
          predatesChromeHeadlessShellAvailability version binary
  then Some (platformDownloads platforms makeDownloadUrl version binary)
  else None.
Proof.
  unfold downloadsFor. rewrite foldl_addBinary_lookup.
  by rewrite lookup_empty.
Qed.

(** X17: [addDownloads] throws when [key] is no key of the document and
    none of the names every object inherits (for which [copy[key]] is not
    [undefined]). *)
Theorem addDownloads_missing_key
    (binaries platforms : list string)
    (makeDownloadUrl : string → option string → string → string)
    (predatesChromeDriverAvailability : string → bool)
    (predatesChromeHeadlessShellAvailability : string → bool)
    (heap : Heap) (data : nat) (key timestamp : string)
    (collections : Object nat) :
  heap !! data = Some (Document timestamp collections) →
  key ≠ "timestamp" →
  get key collections = None →
  key ∉ Object_prototype →
  addDownloads binaries platforms makeDownloadUrl
    predatesChromeDriverAvailability predatesChromeHeadlessShellAvailability
    heap data key = None.
Proof.
  intros Hdata Hkey Hget _.
  destruct (addDownloads _ _ _ _ _ heap data key) as [[copy heap']|] eqn:Hcall;
    [|done].
  destruct (addDownloads_inv _ _ _ _ _ _ _ _ _ _ Hcall Hkey)
    as (ts & cs & _ & _ & c & _ & _ & _ & Hdata' & _ & _ & Hget' & _).
  congruence.
Qed.

Lemma addDownloads_missing_key_witness :
  addDownloads binaries_example platforms_example makeDownloadUrl_example
    predatesChromeDriverAvailability_example
    predatesChromeHeadlessShellAvailability_example
    heap_example 0 "milestones" = None.
Proof.
  apply (addDownloads_missing_key binaries_example platforms_example
           makeDownloadUrl_example predatesChromeDriverAvailability_example
           predatesChromeHeadlessShellAvailability_example
           heap_example 0 "milestones" "2023-12-14T00:09:21.000Z"
           [("channels", 1)]).
  - reflexivity.
  - apply (bool_decide_unpack _). vm_compute. exact I.
  - reflexivity.
  - apply (bool_decide_unpack _). vm_compute. exact I.
Defined.

(** X18: when a call of [addDownloads] on a collection returns, the copy
    has the timestamp and the collection keys of the document, in the same
    order, and its collection [key] has the member keys of the original, in
    the same order. *)
Theorem addDownloads_copy_shape
    (binaries platforms : list string)
    (makeDownloadUrl : string → option string → string → string)
    (predatesChromeDriverAvailability : string → bool)
    (predatesChromeHeadlessShellAvailability : string → bool)
    (heap : Heap) (data : nat) (key : string) (copy : nat) (heap' : Heap) :
  addDownloads binaries platforms makeDownloadUrl
    predatesChromeDriverAvailability predatesChromeHeadlessShellAvailability
    heap data key = Some (copy, heap') →
  key ≠ "timestamp" →
  is_Some (documentAt heap data) ∧
  documentAt heap' copy = documentAt heap data ∧
  is_Some (memberKeysAt heap data key) ∧
  memberKeysAt heap' copy key = memberKeysAt heap data key.
Proof.
  intros Hcall Hkey.
  destruct (addDownloads_inv _ _ _ _ _ _ _ _ _ _ Hcall Hkey)
    as (ts & cs & copies & heap1 & c & c' & ms & ms' & Hdata & Hcopy & Hkeys
        & Hget & Hget' & Hc & Hc' & Hmkeys & Hexp).
  destruct (expandRecords_spec _ _ _ _ _ _ _ _ Hexp) as (_ & Hkind & _).
  assert (heap' !! copy = Some (Document ts copies)) as Hcopy'.
  { rewrite Hkind; [done|]. unfold recordAt. by rewrite Hcopy. }
  assert (heap' !! c' = Some (Collection ms')) as Hc''.
  { rewrite Hkind; [done|]. unfold recordAt. by rewrite Hc'. }
  unfold documentAt, memberKeysAt.
  rewrite Hdata, Hcopy', Hget, Hget', Hc, Hc'', Hkeys, Hmkeys.
  by split_and!.
Qed.

Lemma addDownloads_copy_shape_witness :
  is_Some (documentAt heap_example 0) ∧
  documentAt heap_expanded 9 = documentAt heap_example 0 ∧
  is_Some (memberKeysAt heap_example 0 "channels") ∧
  memberKeysAt heap_expanded 9 "channels"
  = memberKeysAt heap_example 0 "channels".
Proof.
  apply (addDownloads_copy_shape binaries_example platforms_example
           makeDownloadUrl_example predatesChromeDriverAvailability_example
           predatesChromeHeadlessShellAvailability_example
           heap_example 0 "channels" 9 heap_expanded).
  - vm_compute. reflexivity.
  - apply (bool_decide_unpack _). vm_compute. exact I.
Defined.

(** ** The per-version files *)

Lemma append_length (a b : string) :
  String.length (a +:+ b) = String.length a + String.length b.
Proof.
  induction a as [|c a IH]; [done|].
  change (String c a +:+ b) with (String c (a +:+ b)). cbn [String.length].
  by rewrite IH.
Qed.

Lemma append_cancel_r (a b s : string) : a +:+ s = b +:+ s → a = b.
Proof.
  revert b. induction a as [|c a IH]; intros [|d b] Heq; [done| | |].
  - apply (f_equal String.length) in Heq.
    rewrite (append_length (String d b)) in Heq.
    change ("" +:+ s) with s in Heq.
    change (String.length (String d b)) with (S (String.length b)) in Heq.
    lia.
  - apply (f_equal String.length) in Heq.
    rewrite (append_length (String c a)) in Heq.
    change ("" +:+ s) with s in Heq.
    change (String.length (String c a)) with (S (String.length a)) in Heq.
    lia.
  - change (String c (a +:+ s) = String d (b +:+ s)) in Heq.
    injection Heq as -> Heq. f_equal. by apply IH.
Qed.

Lemma fileName_inj (r1 r2 : Release.t) :
  fileName r1 = fileName r2 → Release.version r1 = Release.version r2.
Proof.
  unfold fileName. intros Heq.
  apply (String.app_inj "./dist/") in Heq.
  by apply append_cancel_r in Heq.
Qed.

Lemma recordsAt_inv (heap : Heap) (document : nat) (key : string)
    (releases : list Release.t) :
  recordsAt heap document key = Some releases →
  ∃ timestamp collections,
    heap !! document = Some (Document timestamp collections) ∧
    is_Some (get key collections).
Proof.
  unfold recordsAt. intros Hrec.
  destruct (heap !! document) as [[timestamp collections| |]|]; try done.
  exists timestamp, collections. split; [done|].
  by destruct (get key collections).
Qed.

(** X19: on a catalog as the JSON file gives it, [writePerVersionFiles]
    writes one file for each record of the catalog, in the order of the
    catalog: the file [./dist/<version>.json], whose content is the record
    with its [downloads]. *)
Theorem writePerVersionFiles_files
    (binaries platforms : list string)
    (makeDownloadUrl : string → option string → string → string)
    (predatesChromeDriverAvailability : string → bool)
    (predatesChromeHeadlessShellAvailability : string → bool)
    (heap : Heap) (knownGoodVersions : nat) (releases : list Release.t) :
  registryAt heap knownGoodVersions →
  recordsAt heap knownGoodVersions "versions" = Some releases →
  writePerVersionFiles binaries platforms makeDownloadUrl
    predatesChromeDriverAvailability predatesChromeHeadlessShellAvailability
    heap knownGoodVersions
  = Some ((λ release,
             ("./dist/" +:+ Release.version release +:+ ".json",
              expanded binaries platforms makeDownloadUrl
                predatesChromeDriverAvailability
                predatesChromeHeadlessShellAvailability release))
          <$> releases).
Proof.
  intros Hreg Hrec. unfold writePerVersionFiles.
  destruct (recordsAt_inv _ _ _ _ Hrec) as (timestamp & collections & Hdoc & Hkey).
  assert ("versions" ≠ "timestamp") as Hne by done.
  destruct (addDownloads_total binaries platforms makeDownloadUrl
              predatesChromeDriverAvailability
              predatesChromeHeadlessShellAvailability
              heap knownGoodVersions "versions" timestamp collections
              Hreg Hdoc Hne Hkey) as [[copy heap'] Hcall].
  rewrite Hcall.
  destruct (addDownloads_spec _ _ _ _ _ _ _ _ _ _ Hcall) as (_ & _ & Hcopy).
  destruct (Hcopy Hne) as (releases' & Hrec' & ->).
  assert (releases' = releases) as -> by congruence.
  f_equal. rewrite <- list_fmap_compose. done.
Qed.

Lemma writePerVersionFiles_files_witness :
  writePerVersionFiles binaries_example platforms_example
    makeDownloadUrl_example predatesChromeDriverAvailability_example
    predatesChromeHeadlessShellAvailability_example heap_catalog 3
  = Some ((λ release,
             ("./dist/" +:+ Release.version release +:+ ".json",
              expanded binaries_example platforms_example
                makeDownloadUrl_example
                predatesChromeDriverAvailability_example
                predatesChromeHeadlessShellAvailability_example release))
          <$> [Release.mk "113.0.5672.0" [("revision", "1121455")] None;
               Release.mk "120.0.6099.109" [("revision", "1217362")] None]).
Proof.
  apply (writePerVersionFiles_files binaries_example platforms_example
           makeDownloadUrl_example predatesChromeDriverAvailability_example
           predatesChromeHeadlessShellAvailability_example heap_catalog 3).
  - exists "2023-12-14T00:09:24.000Z", [("versions", 2)].
    split; [reflexivity|].
    repeat constructor.
    exists [("0", 0); ("1", 1)]. split; [reflexivity|].
    repeat constructor; by eexists.
  - reflexivity.
Defined.

(** X20: when the versions of the catalog are pairwise distinct, no two of
    the files [writePerVersionFiles] writes have the same name. *)
Theorem writePerVersionFiles_distinct_names
    (binaries platforms : list string)
    (makeDownloadUrl : string → option string → string → string)
    (predatesChromeDriverAvailability : string → bool)
    (predatesChromeHeadlessShellAvailability : string → bool)
    (heap : Heap) (knownGoodVersions : nat) (releases : list Release.t)
    (files : list (string * Release.t)) :
  recordsAt heap knownGoodVersions "versions" = Some releases →
  NoDup (Release.version <$> releases) →
  writePerVersionFiles binaries platforms makeDownloadUrl
    predatesChromeDriverAvailability predatesChromeHeadlessShellAvailability
    heap knownGoodVersions = Some files →
  NoDup files.*1.
Proof.
  intros Hrec Hnodup. unfold writePerVersionFiles.
  destruct (addDownloads _ _ _ _ _ heap knownGoodVersions "versions")
    as [[copy heap']|] eqn:Hcall; [|done].
  destruct (addDownloads_spec _ _ _ _ _ _ _ _ _ _ Hcall) as (_ & _ & Hcopy).
  destruct (Hcopy ltac:(done)) as (releases' & Hrec' & ->).
  assert (releases' = releases) as -> by congruence.
  intros [= <-]. rewrite <- !list_fmap_compose.
  clear -Hnodup. induction releases as [|r rs IH]; [constructor|].
  rewrite fmap_cons in Hnodup. apply NoDup_cons in Hnodup as [Hnotin Hnodup].
  rewrite fmap_cons. apply NoDup_cons. split; [|by apply IH].
  intros (r' & Heq & Hin)%list_elem_of_fmap. apply Hnotin.
  apply list_elem_of_fmap. exists r'. split; [|done].
  cbn in Heq. by apply fileName_inj in Heq.
Qed.

Lemma writePerVersionFiles_distinct_names_witness :
  NoDup (["./dist/113.0.5672.0.json"; "./dist/120.0.6099.109.json"]).
Proof.
  apply (writePerVersionFiles_distinct_names binaries_example
           platforms_example makeDownloadUrl_example
           predatesChromeDriverAvailability_example
           predatesChromeHeadlessShellAvailability_example heap_catalog 3
           [Release.mk "113.0.5672.0" [("revision", "1121455")] None;
            Release.mk "120.0.6099.109" [("revision", "1217362")] None]
           [("./dist/113.0.5672.0.json",
             expanded binaries_example platforms_example
               makeDownloadUrl_example
               predatesChromeDriverAvailability_example
               predatesChromeHeadlessShellAvailability_example
               (Release.mk "113.0.5672.0" [("revision", "1121455")] None));
            ("./dist/120.0.6099.109.json",
             expanded binaries_example platforms_example
               makeDownloadUrl_example
               predatesChromeDriverAvailability_example
               predatesChromeHeadlessShellAvailability_example
               (Release.mk "120.0.6099.109" [("revision", "1217362")] None))]).
  - reflexivity.
  - apply (bool_decide_unpack _). vm_compute. exact I.
  - vm_compute. reflexivity.
Defined.

(** ** The script *)

Lemma script_inv Date_now older data lkgFile pmFile kgvFile n out n' :
  script Date_now older data lkgFile pmFile kgvFile n = Some (out, n') →
  ∃ n1 n2,
    prepareLastKnownGoodVersionsData Date_now data lkgFile n
      = Some (Script.lastKnownGoodVersionsData out, n1) ∧
    updateLatestVersionsPerMilestone Date_now older pmFile
      (Script.lastKnownGoodVersionsData out) n1
      = Some (Script.latestVersionsPerMilestone out, n2) ∧
    updateKnownGoodVersions Date_now older kgvFile
      (Script.lastKnownGoodVersionsData out) n2
      = Some (Script.knownGoodVersions out, n') ∧
    prepareLatestPatchVersionsPerBuild older (Script.knownGoodVersions out)
      = Some (Script.latestPatchVersionsPerBuild out).
Proof.
  unfold script, Run_bind.
  destruct (prepareLastKnownGoodVersionsData _ _ _ n) as [[lkg n1]|]; [|done].
  destruct (updateLatestVersionsPerMilestone _ _ _ lkg n1) as [[pm n2]|] eqn:Hpm;
    [|done].
  destruct (updateKnownGoodVersions _ _ _ lkg n2) as [[kgv n3]|] eqn:Hkgv;
    [|done].
  destruct (prepareLatestPatchVersionsPerBuild older kgv) as [pb|] eqn:Hpb;
    [|done].
  intros [= <- <-]. by exists n1, n2.
Qed.

(** From the four steps back to the script. *)
Lemma script_intro Date_now older data lkgFile pmFile kgvFile n out n1 n2 n' :
  prepareLastKnownGoodVersionsData Date_now data lkgFile n
    = Some (Script.lastKnownGoodVersionsData out, n1) →
  updateLatestVersionsPerMilestone Date_now older pmFile
    (Script.lastKnownGoodVersionsData out) n1
    = Some (Script.latestVersionsPerMilestone out, n2) →
  updateKnownGoodVersions Date_now older kgvFile
    (Script.lastKnownGoodVersionsData out) n2
    = Some (Script.knownGoodVersions out, n') →
  prepareLatestPatchVersionsPerBuild older (Script.knownGoodVersions out)
    = Some (Script.latestPatchVersionsPerBuild out) →
  script Date_now older data lkgFile pmFile kgvFile n = Some (out, n').
Proof.
  intros H1 H2 H3 H4. unfold script, Run_bind.
  rewrite H1, H2, H3, H4. by destruct out.
Qed.

(** An entry of the catalog has a build, which is among the keys of the
    result unless it is [__proto__]. *)
Lemma prepareLatestPatchVersionsPerBuild_covers older kgv result e :
  prepareLatestPatchVersionsPerBuild older kgv = Some result →
  e ∈ KnownGood.versions kgv →
  ∃ build, buildPrefix (Entry.version e) = Some build ∧
           (build ≠ "__proto__" →
            is_Some (PerBuild.builds result !! build)).
Proof.
  intros Hrun He.
  destruct (buildPrefix (Entry.version e)) as [build|] eqn:Hprefix; last first.
  { unfold prepareLatestPatchVersionsPerBuild in Hrun.
    rewrite (reduceEntries_throws older _ ∅ e He) in Hrun; [done|].
    unfold buildPrefix in Hprefix. by destruct (re_exec (Entry.version e)). }
  exists build. split; [done|]. intros Hproto.
  rewrite (prepareLatestPatchVersionsPerBuild_lookup _ _ _ build Hrun).
  rewrite bool_decide_eq_false_2 by done.
  apply foldl_keepNewer_is_Some. right. intros Hnil.
  assert (e ∈ onTrack build (KnownGood.versions kgv)) as Hin
    by by apply elem_of_onTrack.
  rewrite Hnil in Hin. by apply elem_of_nil in Hin.
Qed.

(** X21: when the script returns, the version of the last [ok] record of
    the snapshot for a channel name is in each of the four documents: it is
    the version of the channel's entry, it is a version of the catalog, its
    milestone is a key of the milestone registry, and it has a build prefix
    that is a key of the build index; the last two unless the milestone, or
    the build prefix, is [__proto__]. *)
Theorem script_publishes_observed_version
    (Date_now : nat → string) (isOlderVersion : string → string → bool)
    (DASHBOARD_DATA : Dashboard.t)
    (lastKnownGoodVersionsFile : LastKnownGood.t)
    (latestVersionsPerMilestoneFile : PerMilestone.t)
    (knownGoodVersionsFile : KnownGood.t)
    (n n' : nat) (out : Script.t) (c : string) (channelData : Channel.t) :
  script Date_now isOlderVersion DASHBOARD_DATA lastKnownGoodVersionsFile
    latestVersionsPerMilestoneFile knownGoodVersionsFile n = Some (out, n') →
  lastObserved c (Object_values (Dashboard.channels DASHBOARD_DATA))
    = Some channelData →
  let version := Channel.version channelData in
  get c (LastKnownGood.channels (Script.lastKnownGoodVersionsData out))
    = Some (Entry.mk version (Channel.revision channelData)) ∧
  version ∈ Entry.version <$> KnownGood.versions (Script.knownGoodVersions out) ∧
  (milestoneOf version ≠ "__proto__" →
   is_Some (PerMilestone.milestones (Script.latestVersionsPerMilestone out)
              !! milestoneOf version)) ∧
  ∃ build,
    buildPrefix version = Some build ∧
    (build ≠ "__proto__" →
     is_Some (PerBuild.builds (Script.latestPatchVersionsPerBuild out)
                !! build)).
Proof.
  intros (n1 & n2 & Hlkg & Hpm & Hkgv & Hpb)%script_inv Hlast version.
  pose proof (run_last_observed Date_now _ _ _ _ _ c Hlkg) as Hget.
  rewrite Hlast in Hget. fold version in Hget.
  pose proof (get_elem_of _ _ _ Hget) as Hin.
  assert (version ∈ Entry.version <$>
            KnownGood.versions (Script.knownGoodVersions out)) as Hcat.
  { apply (updateKnownGoodVersions_versions _ _ _ _ _ _ _ version Hkgv).
    right. apply list_elem_of_fmap.
    by exists (Entry.mk version (Channel.revision channelData)). }
  split_and!; [done|done| |].
  - intros Hproto.
    destruct (updateLatestVersionsPerMilestone_inv Date_now isOlderVersion
                latestVersionsPerMilestoneFile
                (Script.lastKnownGoodVersionsData out) n1)
      as (pm & m & Hrun & Hms & _).
    rewrite Hpm in Hrun. injection Hrun as <- <-. rewrite Hms.
    apply elem_of_dom. rewrite foldl_updateMilestone_dom.
    apply elem_of_union_r, elem_of_difference. split.
    + apply elem_of_list_to_set, list_elem_of_fmap.
      by exists (Entry.mk version (Channel.revision channelData)).
    + by apply not_elem_of_singleton.
  - apply list_elem_of_fmap in Hcat as (e & Hv & He). rewrite Hv.
    by eapply prepareLatestPatchVersionsPerBuild_covers.
Qed.

Lemma script_publishes_observed_version_witness :
  get "Stable" (LastKnownGood.channels
                  (Script.lastKnownGoodVersionsData script_example))
    = Some (Entry.mk "120.0.6099.109" "1217362") ∧
  "120.0.6099.109"
    ∈ Entry.version <$> KnownGood.versions
                          (Script.knownGoodVersions script_example) ∧
  (milestoneOf "120.0.6099.109" ≠ "__proto__" →
   is_Some (PerMilestone.milestones
              (Script.latestVersionsPerMilestone script_example)
              !! milestoneOf "120.0.6099.109")) ∧
  ∃ build,
    buildPrefix "120.0.6099.109" = Some build ∧
    (build ≠ "__proto__" →
     is_Some (PerBuild.builds (Script.latestPatchVersionsPerBuild script_example)
                !! build)).
Proof.
  apply (script_publishes_observed_version clock_example
           SpecModel.isOlderVersion dashboard_example lastKnownGood_example
           perMilestone_example knownGood_example 0 6 script_example "Stable"
           (Channel.mk "Stable" "120.0.6099.109" "1217362" true)).
  - vm_compute. reflexivity.
  - vm_compute. reflexivity.
Defined.

(** X22: the script is idempotent when no two [ok] records of the snapshot
    carry the same channel name, being older is a strict total order on
    the versions at hand and no channel has the milestone [__proto__]: run
    again on the documents it returned, with the same snapshot, it returns
    these documents and does not read the clock. *)
Theorem script_idempotent
    (Date_now : nat → string) (isOlderVersion : string → string → bool)
    (versions : list string)
    (DASHBOARD_DATA : Dashboard.t)
    (lastKnownGoodVersionsFile : LastKnownGood.t)
    (latestVersionsPerMilestoneFile : PerMilestone.t)
    (knownGoodVersionsFile : KnownGood.t)
    (n n' m : nat) (out : Script.t) :
  NoDup (okNames (Object_values (Dashboard.channels DASHBOARD_DATA))) →
  StrictTotalOn isOlderVersion versions →
  storedIn versions (PerMilestone.milestones latestVersionsPerMilestoneFile) →
  Entry.version <$> KnownGood.versions knownGoodVersionsFile ⊆ versions →
  Entry.version <$>
    Object_values (LastKnownGood.channels
                     (Script.lastKnownGoodVersionsData out)) ⊆ versions →
  "__proto__" ∉ milestoneKeys (Script.lastKnownGoodVersionsData out) →
  script Date_now isOlderVersion DASHBOARD_DATA lastKnownGoodVersionsFile
    latestVersionsPerMilestoneFile knownGoodVersionsFile n = Some (out, n') →
  script Date_now isOlderVersion DASHBOARD_DATA
    (Script.lastKnownGoodVersionsData out)
    (Script.latestVersionsPerMilestone out)
    (Script.knownGoodVersions out) m = Some (out, m).
Proof.
  intros Hnodup Htotal Hstored Hcatalog Hchannels Hproto
    (n1 & n2 & Hlkg & Hpm & Hkgv & Hpb)%script_inv.
  pose proof (older_order _ _ Htotal) as Horder.
  assert (∀ cd, cd ∈ Object_values
                       (LastKnownGood.channels
                          (Script.lastKnownGoodVersionsData out)) →
                Entry.version cd ∈ versions) as Hincoming.
  { intros cd Hcd. apply Hchannels, list_elem_of_fmap. by eexists. }
  apply (script_intro _ _ _ _ _ _ m out m m m).
  - apply run_fixpoint. by eapply run_settles.
  - destruct (updateLatestVersionsPerMilestone_inv Date_now isOlderVersion
                latestVersionsPerMilestoneFile
                (Script.lastKnownGoodVersionsData out) n1)
      as (pm & k & Hrun & Hms & _).
    rewrite Hpm in Hrun. injection Hrun as <- <-.
    assert (∀ cd,
              cd ∈ Object_values
                     (LastKnownGood.channels
                        (Script.lastKnownGoodVersionsData out)) →
              ∃ entry,
                PerMilestone.milestones (Script.latestVersionsPerMilestone out)
                  !! milestoneOf (Entry.version cd) = Some entry ∧
                isOlderVersion (Milestone.version entry) (Entry.version cd)
                  = false) as Hcovers.
    { intros cd Hin. rewrite Hms.
      apply (foldl_updateMilestone_covers isOlderVersion versions Horder);
        [done..|].
      intros Heq. apply Hproto. unfold milestoneKeys.
      apply list_elem_of_fmap. by exists cd. }
    unfold updateLatestVersionsPerMilestone.
    rewrite (foldl_updateMilestone_fixpoint isOlderVersion false _ _ Hcovers).
    by destruct (Script.latestVersionsPerMilestone out).
  - pose proof Hkgv as (set' & kgv' & Hloop & Hout)%updateKnownGoodVersions_inv.
    apply updateKnownGoodVersions_noop.
    + rewrite Hout. simpl. eapply Array_sort_sorted; [done|].
      intros v Hv.
      assert (v ∈ Entry.version <$>
                KnownGood.versions (Script.knownGoodVersions out)) as Hv'.
      { rewrite Hout. simpl.
        by rewrite (fmap_Permutation _ _ _ (Array_sort_perm _ _)). }
      apply (updateKnownGoodVersions_versions _ _ _ _ _ _ _ v Hkgv) in Hv'
        as [Hold|Hnew]; [by apply Hcatalog|by apply Hchannels].
    + intros e He.
      apply (updateKnownGoodVersions_versions _ _ _ _ _ _ _
               (Entry.version e) Hkgv).
      right. by apply list_elem_of_fmap_2.
  - done.
Qed.

Lemma script_idempotent_witness :
  script clock_example SpecModel.isOlderVersion dashboard_example
    lastKnownGood_reconciled perMilestone_updated
    (Script.knownGoodVersions script_example) 6 = Some (script_example, 6).
Proof.
  apply (script_idempotent clock_example SpecModel.isOlderVersion
           versions_example dashboard_example lastKnownGood_example
           perMilestone_example knownGood_example 0 6 6 script_example).
  - apply (bool_decide_unpack _). vm_compute. exact I.
  - apply strictTotalOnb_sound. vm_compute. reflexivity.
  - apply (bool_decide_unpack _). vm_compute. exact I.
  - apply (bool_decide_unpack _). vm_compute. exact I.
  - apply (bool_decide_unpack _). vm_compute. exact I.
  - apply (bool_decide_unpack _). vm_compute. exact I.
  - vm_compute. reflexivity.
Defined.

(** ** The comparison function of the merger *)

(** X23: when being older is a strict total order on the versions at hand,
    the comparison function given to [sort] is consistent: it returns 0
    exactly for two entries with the same version, it returns -1 for a pair
    exactly when it returns 1 for the swapped pair, and returning -1 is
    transitive. *)
Theorem compareFn_consistent
    (isOlderVersion : string → string → bool) (versions : list string)
    (a b c : Entry.t) :
  StrictTotalOn isOlderVersion versions →
  Entry.version a ∈ versions →
  Entry.version b ∈ versions →
  Entry.version c ∈ versions →
  (compareFn isOlderVersion a b = 0%Z ↔ Entry.version a = Entry.version b) ∧
  (compareFn isOlderVersion a b = (-1)%Z ↔
   compareFn isOlderVersion b a = 1%Z) ∧
  (compareFn isOlderVersion a b = (-1)%Z →
   compareFn isOlderVersion b c = (-1)%Z →
   compareFn isOlderVersion a c = (-1)%Z).
Proof.
  intros Htotal Ha Hb Hc.
  pose proof (older_order _ _ Htotal) as Horder.
  assert (∀ x y, compareFn isOlderVersion x y = (-1)%Z ↔
                 isOlderVersion (Entry.version x) (Entry.version y) = true)
    as Hneg.
  { intros x y. unfold compareFn.
    destruct (isOlderVersion _ _); [done|]. by case_bool_decide. }
  assert (∀ x y, Entry.version x ∈ versions → Entry.version y ∈ versions →
                 isOlderVersion (Entry.version x) (Entry.version y) = true →
                 isOlderVersion (Entry.version y) (Entry.version x) = false)
    as Hasym.
  { intros x y Hx Hy Hxy.
    destruct (isOlderVersion (Entry.version y) (Entry.version x)) eqn:Hyx;
      [|done].
    rewrite <- (older_irrefl _ _ Horder (Entry.version x) Hx). symmetry.
    by apply (older_trans _ _ Horder _ (Entry.version y)). }
  split_and!.
  - unfold compareFn. split.
    + destruct (isOlderVersion _ _); [done|]. by case_bool_decide.
    + intros Heq. rewrite Heq, (older_irrefl _ _ Horder _ Hb).
      by rewrite bool_decide_eq_true_2.
  - rewrite Hneg. unfold compareFn. split.
    + intros Hab. rewrite (Hasym a b Ha Hb Hab).
      rewrite bool_decide_eq_false_2; [done|].
      intros Heq. rewrite Heq, (older_irrefl _ _ Horder _ Ha) in Hab. done.
    + destruct (isOlderVersion (Entry.version b) (Entry.version a)) eqn:Hba;
        [done|].
      case_bool_decide as Hne; [done|]. intros _.
      destruct (older_total _ _ Htotal _ _ Ha Hb) as [Hab|Hab];
        [congruence|done|congruence].
  - rewrite !Hneg. by apply (older_trans _ _ Horder).
Qed.

Lemma compareFn_consistent_witness :
  (compareFn SpecModel.isOlderVersion
     (Entry.mk "120.0.6099.71" "1217362")
     (Entry.mk "120.0.6099.109" "1217362") = 0%Z ↔
   "120.0.6099.71" = "120.0.6099.109") ∧
  (compareFn SpecModel.isOlderVersion
     (Entry.mk "120.0.6099.71" "1217362")
     (Entry.mk "120.0.6099.109" "1217362") = (-1)%Z ↔
   compareFn SpecModel.isOlderVersion
     (Entry.mk "120.0.6099.109" "1217362")
     (Entry.mk "120.0.6099.71" "1217362") = 1%Z) ∧
  (compareFn SpecModel.isOlderVersion
     (Entry.mk "120.0.6099.71" "1217362")
     (Entry.mk "120.0.6099.109" "1217362") = (-1)%Z →
   compareFn SpecModel.isOlderVersion
     (Entry.mk "120.0.6099.109" "1217362")
     (Entry.mk "121.0.6167.8" "1233107") = (-1)%Z →
   compareFn SpecModel.isOlderVersion
     (Entry.mk "120.0.6099.71" "1217362")
     (Entry.mk "121.0.6167.8" "1233107") = (-1)%Z).
Proof.
  apply (compareFn_consistent SpecModel.isOlderVersion versions_example
           (Entry.mk "120.0.6099.71" "1217362")
           (Entry.mk "120.0.6099.109" "1217362")
           (Entry.mk "121.0.6167.8" "1233107")).
  - apply strictTotalOnb_sound. vm_compute. reflexivity.
  - apply (bool_decide_unpack _). vm_compute. exact I.
  - apply (bool_decide_unpack _). vm_compute. exact I.
  - apply (bool_decide_unpack _). vm_compute. exact I.
Defined.
